(** * basicGA: a shallow embedding of the genetic-algorithm engine

    Sources embedded here:
    - [src/GA.py]            classes [Individual], [Population] and [GA]
                             (the monolithic driver)
    - [src/GA/GAProcess.py]  class [GA] (the modular, elitist driver)

    Numeric model.  The code computes with numpy's float64.  The embedding
    reads its arithmetic in two ways.
    - Exactly: the genes, evaluations and fitness values are rationals ([Q],
      compared with [==]); the one place where the code can produce a value
      that is not a real number (a division by zero in [Population.fitness])
      is modelled with an explicit [np_float] carrying [NaN] and the
      infinities.  The general theorems are stated on this reading.  Where a
      statement depends on the arithmetic being exact it says so; the others
      use of the numbers only comparisons and the products with 0 and 1.
    - In binary64: [Module Float64] carries out the formulas of
      [Individual.initialize] and [Individual.mutate] on Stdlib's primitive
      floats (IEEE 754 binary64, round to nearest even), to run them on
      concrete inputs and see what rounding and overflow do.
    The real power [**] of the mutation schedule is modelled over Stdlib's
    reals in [Module Schedule] and [Module RunSchedule]; the drivers, which
    compute with rationals, take the power function as a parameter
    [float_pow].

    Randomness.  The code draws from numpy's global generator.  The model
    threads a raw stream [rng : nat -> N] with a read position [clock]
    through a state monad; every numpy sampling routine is derived from the
    stream, so that each outcome numpy can produce is produced by some
    stream and no assumption on the stream is needed.

    Objects.  [Individual] objects live in a store ([heap]) and are named by
    references, since [Population.select] can put one object at several
    positions of the population and [Individual.mutate] updates in place. *)

From Stdlib Require Import ZArith NArith QArith Qabs Reals Psatz Lia List Bool Floats.
From stdpp Require Import base list functions.

(** ** Python outcomes *)

Inductive exn := AssertionError | IndexError | ValueError | TypeError.

Inductive outcome (A : Type) : Type :=
| Ok (a : A)
| Raise (e : exn).
Arguments Ok {A} a.
Arguments Raise {A} e.

Definition obind {A B} (o : outcome A) (k : A -> outcome B) : outcome B :=
  match o with
  | Ok a => k a
  | Raise e => Raise e
  end.

(** ** numpy on one-dimensional float arrays *)

Module np.

(** A float64 as far as the code can tell them apart: a number, an
    infinity, or nan. *)
Inductive np_float := Fin (q : Q) | PInf | NInf | NaN.

(** Shape rule of an elementwise binary operation on 1-D arrays: equal
    lengths, or one operand of length 1 that is stretched; anything else is
    numpy's "operands could not be broadcast together" [ValueError]. *)
Definition broadcast {A B C} (f : A -> B -> C) (x : list A) (y : list B)
  : outcome (list C) :=
  if (length x =? length y)%nat then Ok (zip_with f x y)
  else match x, y with
       | [a], _ => Ok (map (f a) y)
       | _, [b] => Ok (map (fun a => f a b) x)
       | _, _ => Raise ValueError
       end.

Definition add := broadcast Qplus.
Definition sub := broadcast Qminus.
Definition mul := broadcast Qmult.
(** [x >= y] and [x <= y] *)
Definition ge := broadcast (fun a b => Qle_bool b a).
Definition le := broadcast Qle_bool.
(** array times a bool mask: [True] is 1.0 and [False] is 0.0 *)
Definition of_bool (b : bool) : Q := if b then 1%Q else 0%Q.
Definition mul_mask := broadcast (fun a (b : bool) => (a * of_bool b)%Q).
(** array times a Python scalar *)
Definition scale (x : list Q) (k : Q) : list Q := map (fun a => (a * k)%Q) x.

(** [ndarray.all()] *)
Definition all (x : list bool) : bool := forallb (fun b : bool => b) x.

(** [np.sum] *)
Definition sum (x : list Q) : Q := fold_right Qplus 0%Q x.
(** [np.abs] *)
Definition abs (x : list Q) : list Q := map Qabs x.
(** scalar minus array *)
Definition rsub (k : Q) (x : list Q) : list Q := map (fun a => (k - a)%Q) x.

(** [x / d] for an array [x] and a scalar [d]: true division; a zero
    divisor gives nan for a zero numerator and a signed infinity otherwise
    (numpy warns and does not raise). *)
Definition div1 (a d : Q) : np_float :=
  if Qeq_bool d 0 then
    (if Qeq_bool a 0 then NaN else if Qle_bool 0 a then PInf else NInf)
  else Fin (a / d).
Definition div (x : list Q) (d : Q) : list np_float :=
  map (fun a => div1 a d) x.

(** float addition with the IEEE rules for infinities and nan *)
Definition fadd (a b : np_float) : np_float :=
  match a, b with
  | Fin p, Fin q => Fin (p + q)
  | NaN, _ | _, NaN => NaN
  | PInf, NInf | NInf, PInf => NaN
  | PInf, _ | _, PInf => PInf
  | NInf, _ | _, NInf => NInf
  end.

(** [np.sum] of a float array that may hold non-numbers *)
Definition fsum (x : list np_float) : np_float := fold_left fadd x (Fin 0).

(** [np.cumsum]: running sums, from the left *)
Fixpoint cumsum_from (acc : np_float) (x : list np_float) : list np_float :=
  match x with
  | [] => []
  | a :: x' => let s := fadd acc a in s :: cumsum_from s x'
  end.
Definition cumsum (x : list np_float) : list np_float :=
  match x with
  | [] => []
  | a :: x' => a :: cumsum_from a x'
  end.

(** [u >= c] for a Python float [u] against an array entry [c]; every
    comparison with nan is false. *)
Definition scalar_ge (u : Q) (c : np_float) : bool :=
  match c with
  | Fin q => Qle_bool q u
  | PInf => false
  | NInf => true
  | NaN => false
  end.

(** [np.sum] of a bool array: the number of [True] entries *)
Definition count_true (x : list bool) : nat :=
  fold_right (fun (b : bool) n => if b then S n else n) O x.

(** Index normalisation of [a[pos]] on an array of length [n]: negative
    positions count from the end, everything else is an [IndexError]. *)
Definition index (n : nat) (pos : Z) : outcome nat :=
  if (0 <=? pos)%Z && (pos <? Z.of_nat n)%Z then Ok (Z.to_nat pos)
  else if (- Z.of_nat n <=? pos)%Z && (pos <? 0)%Z then Ok (Z.to_nat (Z.of_nat n + pos))
  else Raise IndexError.

Definition getitem (a : list Q) (pos : Z) : outcome Q :=
  obind (index (length a) pos) (fun i =>
    match a !! i with
    | Some x => Ok x
    | None => Raise IndexError
    end).

Definition setitem (a : list Q) (pos : Z) (v : Q) : outcome (list Q) :=
  obind (index (length a) pos) (fun i => Ok (<[i:=v]> a)).

(** [np.argmin]: first index of the minimum; [ValueError] on an empty
    array. *)
Fixpoint argmin_from (best : nat) (vbest : Q) (i : nat) (x : list Q) : nat :=
  match x with
  | [] => best
  | v :: x' =>
      if Qle_bool vbest v then argmin_from best vbest (S i) x'
      else argmin_from i v (S i) x'
  end.
Definition argmin (x : list Q) : outcome nat :=
  match x with
  | [] => Raise ValueError
  | v :: x' => Ok (argmin_from 0 v 1 x')
  end.

(** [np.max] and [np.min]; [ValueError] on an empty array. *)
Definition max (x : list Q) : outcome Q :=
  match x with
  | [] => Raise ValueError
  | v :: x' => Ok (fold_left (fun m a => if Qle_bool m a then a else m) x' v)
  end.
Definition min (x : list Q) : outcome Q :=
  match x with
  | [] => Raise ValueError
  | v :: x' => Ok (fold_left (fun m a => if Qle_bool a m then a else m) x' v)
  end.

(** A uniform float in [[0,1)] out of 53 raw bits, the way numpy's
    [random_sample] builds it. *)
Definition uniform (bits : N) : Q :=
  Qmake (Z.of_N (bits mod 9007199254740992)%N) 9007199254740992.

End np.

(** ** The interpreter state and its monad *)

Definition ref := nat.

(** [class Individual]: the four private attributes set by [__init__];
    the properties [dimension], [lbound], [ubound] and [chrom] read them. *)
Record Individual := mkIndividual {
  _dim : nat;
  _lbound : list Q;
  _ubound : list Q;
  _chrom : list Q
}.

(** [class Population]: [_individuals] and [_evaluation] start as [None]. *)
Record Population := mkPopulation {
  _fun_evaluation : list Q -> Q;
  _size : nat;
  _individuals : option (list ref);
  _evaluation : option (list Q)
}.

Record World := mkWorld {
  rng : nat -> N;           (* raw output of the global generator *)
  clock : nat;              (* how much of it has been consumed *)
  junk : nat -> Q;          (* what uninitialised memory happens to hold *)
  heap : ref -> Individual; (* the Individual objects *)
  next : ref;               (* first reference not yet allocated *)
  pop : Population          (* the Population object, [self] of its methods *)
}.

Definition M (A : Type) : Type := World -> outcome A * World.

Definition ret {A} (a : A) : M A := fun w => (Ok a, w).
Definition raise {A} (e : exn) : M A := fun w => (Raise e, w).
Definition bind {A B} (m : M A) (k : A -> M B) : M B :=
  fun w => match m w with
           | (Ok a, w') => k a w'
           | (Raise e, w') => (Raise e, w')
           end.
Definition lift {A} (o : outcome A) : M A := fun w => (o, w).

Declare Scope py_scope.
Delimit Scope py_scope with py.
Notation "x <- m ;; k" := (bind m (fun x => k))
  (at level 100, m at next level, right associativity) : py_scope.
Notation "m ;;; k" := (bind m (fun _ => k))
  (at level 100, right associativity) : py_scope.
Local Open Scope py_scope.

(** [assert c] *)
Definition assert_ (c : bool) : M unit :=
  if c then ret tt else raise AssertionError.

(** [for x in l: body(x)] *)
Fixpoint for_each {A} (l : list A) (body : A -> M unit) : M unit :=
  match l with
  | [] => ret tt
  | x :: l' => body x ;;; for_each l' body
  end.

(** [[f(x) for x in l]] *)
Fixpoint list_comp {A B} (l : list A) (f : A -> M B) : M (list B) :=
  match l with
  | [] => ret []
  | x :: l' => y <- f x ;; ys <- list_comp l' f ;; ret (y :: ys)
  end.

(** *** Store *)

Definition load (r : ref) : M Individual := fun w => (Ok (heap w r), w).

Definition set_heap (h : ref -> Individual) (w : World) : World :=
  mkWorld (rng w) (clock w) (junk w) h (next w) (pop w).
Definition set_pop (P : Population) (w : World) : World :=
  mkWorld (rng w) (clock w) (junk w) (heap w) (next w) P.
Definition tick (n : nat) (w : World) : World :=
  mkWorld (rng w) (clock w + n) (junk w) (heap w) (next w) (pop w).

Definition store (r : ref) (I : Individual) : M unit :=
  fun w => (Ok tt, set_heap (<[r := I]> (heap w)) w).

Definition alloc (I : Individual) : M ref :=
  fun w => (Ok (next w),
            mkWorld (rng w) (clock w) (junk w) (<[next w := I]> (heap w))
                    (S (next w)) (pop w)).

Definition get_self : M Population := fun w => (Ok (pop w), w).
Definition put_self (P : Population) : M unit := fun w => (Ok tt, set_pop P w).

(** *** numpy.random on the raw stream *)

(** [np.random.rand()] *)
Definition np_random_rand : M Q :=
  fun w => (Ok (np.uniform (rng w (clock w))), tick 1 w).

(** [np.random.rand(n)] and [np.random.random(n)]: [n] consecutive draws *)
Definition np_random_rand_n (n : nat) : M (list Q) :=
  fun w => (Ok (map (fun k => np.uniform (rng w (clock w + k))) (seq 0 n)),
            tick n w).

(** [np.random.randint(n)]: an integer in [[0, n)]; [ValueError] for
    [n <= 0]. *)
Definition np_random_randint (n : nat) : M nat :=
  match n with
  | O => raise ValueError
  | S _ => fun w => (Ok (N.to_nat (rng w (clock w) mod N.of_nat n)%N), tick 1 w)
  end.

(** [x[i], x[j] = x[j], x[i]] *)
Definition swap {A} (l : list A) (i j : nat) : list A :=
  match l !! i, l !! j with
  | Some x, Some y => <[i := y]> (<[j := x]> l)
  | _, _ => l
  end.

(** numpy's shuffle: for [i] from [n-1] down to 1, exchange position [i]
    with a position drawn from [[0, i]]. *)
Fixpoint shuffle {A} (i : nat) (l : list A) : M (list A) :=
  match i with
  | O => ret l
  | S i' => j <- np_random_randint (S i) ;; shuffle i' (swap l i j)
  end.

(** [np.random.permutation(l)]: a shuffled copy *)
Definition np_random_permutation {A} (l : list A) : M (list A) :=
  shuffle (length l - 1) l.

(** [np.random.choice(a, size, replace=False)]: the first [size] entries of
    a permutation; [ValueError] when [size] exceeds the population. *)
Definition np_random_choice {A} (a : list A) (size : nat) : M (list A) :=
  if (size <=? length a)%nat then
    p <- np_random_permutation a ;; ret (take size p)
  else raise ValueError.

(** [np.empty((dim,))]: an array of whatever the memory holds *)
Definition np_empty (dim : nat) : M (list Q) :=
  fun w => (Ok (map (junk w) (seq 0 dim)), w).

(** ** class Individual (src/GA.py) *)

Definition with_chrom (I : Individual) (c : list Q) : Individual :=
  mkIndividual (_dim I) (_lbound I) (_ubound I) c.

(** [Individual(dim, lbound, ubound)] *)
Definition Individual__init__ (dim : nat) (lbound ubound : list Q) : M ref :=
  c <- np_empty dim ;;
  alloc (mkIndividual dim lbound ubound c).

(** [Individual.initialize]:
    [self._chrom = self.lbound + (self.ubound-self.lbound)*seeds] *)
Definition Individual_initialize (self : ref) : M unit :=
  I <- load self ;;
  seeds <- np_random_rand_n (_dim I) ;;
  width <- lift (np.sub (_ubound I) (_lbound I)) ;;
  scaled <- lift (np.mul width seeds) ;;
  c <- lift (np.add (_lbound I) scaled) ;;
  store self (with_chrom I c).

(** The [chrom] setter: two assertions, then the assignment.  The second
    assertion is an [and]: its right operand is evaluated only when the
    left one holds. *)
Definition Individual_set_chrom (self : ref) (chrom : list Q) : M unit :=
  I <- load self ;;
  assert_ (_dim I =? length chrom)%nat ;;;
  above <- lift (np.ge chrom (_lbound I)) ;;
  (if np.all above then
     below <- lift (np.le chrom (_ubound I)) ;;
     assert_ (np.all below)
   else raise AssertionError) ;;;
  store self (with_chrom I chrom).

(** One turn of the loop of [Individual.mutate]. *)
Definition Individual_mutate_at (self : ref) (pos : Z) (alpha : Q) : M unit :=
  u <- np_random_rand ;;
  I <- load self ;;
  c <- lift (np.getitem (_chrom I) pos) ;;
  if negb (Qle_bool (1#2) u) then          (* np.random.rand() < 0.5 *)
    l <- lift (np.getitem (_lbound I) pos) ;;
    c' <- lift (np.setitem (_chrom I) pos (c - (c - l) * alpha)%Q) ;;
    store self (with_chrom I c')
  else
    h <- lift (np.getitem (_ubound I) pos) ;;
    c' <- lift (np.setitem (_chrom I) pos (c + (h - c) * alpha)%Q) ;;
    store self (with_chrom I c').

(** [Individual.mutate(positions, alpha)] *)
Definition Individual_mutate (self : ref) (positions : list Z) (alpha : Q) : M unit :=
  for_each positions (fun pos => Individual_mutate_at self pos alpha).

(** ** class Individual in binary64 (src/GA.py) *)

(** The attributes and the arithmetic of [Individual.initialize] and
    [Individual.mutate] once more, with every number a float64 and every
    operation the IEEE 754 one.  An individual is a value here and the draws
    are read from the stream [rng] at position [clock]. *)
Module Float64.

#[local] Set Warnings "-inexact-float".

Record Individual := mkIndividual {
  _dim : nat;
  _lbound : list float;
  _ubound : list float;
  _chrom : list float
}.

Definition with_chrom (I : Individual) (c : list float) : Individual :=
  mkIndividual (_dim I) (_lbound I) (_ubound I) c.

(** A uniform float in [[0,1)] out of 53 raw bits: [k / 2**53], which is a
    float64 for every [k] below [2**53]. *)
Definition uniform (bits : N) : float :=
  (of_uint63 (Uint63.of_Z (Z.of_N (bits mod 9007199254740992)%N))
   / 9007199254740992)%float.

(** [np.random.random(n)] *)
Definition seeds_of (rng : nat -> N) (clock n : nat) : list float :=
  map (fun k => uniform (rng (clock + k)%nat)) (seq 0 n).

(** [a[pos]] and [a[pos] = v] on a float array *)
Definition getitem (a : list float) (pos : Z) : outcome float :=
  obind (np.index (length a) pos) (fun i =>
    match a !! i with
    | Some x => Ok x
    | None => Raise IndexError
    end).

Definition setitem (a : list float) (pos : Z) (v : float) : outcome (list float) :=
  obind (np.index (length a) pos) (fun i => Ok (<[i:=v]> a)).

(** [(chrom >= lbound).all() and (chrom <= ubound).all()], the test of the
    [chrom] setter, on three vectors of one length. *)
Fixpoint withinb (lo x hi : list float) : bool :=
  match lo, x, hi with
  | l :: lo', c :: x', u :: hi' =>
      (l <=? c)%float && (c <=? u)%float && withinb lo' x' hi'
  | [], [], [] => true
  | _, _, _ => false
  end.

Definition in_bounds (I : Individual) : bool :=
  withinb (_lbound I) (_chrom I) (_ubound I).

(** [Individual.initialize]:
    [self._chrom = self.lbound + (self.ubound-self.lbound)*seeds] *)
Definition Individual_initialize (rng : nat -> N) (clock : nat) (self : Individual)
  : outcome Individual :=
  let seeds := seeds_of rng clock (_dim self) in
  obind (np.broadcast PrimFloat.sub (_ubound self) (_lbound self)) (fun width =>
  obind (np.broadcast PrimFloat.mul width seeds) (fun scaled =>
  obind (np.broadcast PrimFloat.add (_lbound self) scaled) (fun c =>
  Ok (with_chrom self c)))).

(** One turn of the loop of [Individual.mutate]. *)
Definition Individual_mutate_at (rng : nat -> N) (clock : nat) (self : Individual)
  (pos : Z) (alpha : float) : outcome Individual :=
  let u := uniform (rng clock) in
  obind (getitem (_chrom self) pos) (fun c =>
  if (u <? 0.5)%float then
    obind (getitem (_lbound self) pos) (fun l =>
    obind (setitem (_chrom self) pos (c - (c - l) * alpha)%float) (fun c' =>
    Ok (with_chrom self c')))
  else
    obind (getitem (_ubound self) pos) (fun h =>
    obind (setitem (_chrom self) pos (c + (h - c) * alpha)%float) (fun c' =>
    Ok (with_chrom self c')))).

(** [Individual.mutate(positions, alpha)]: one draw per position *)
Fixpoint Individual_mutate (rng : nat -> N) (clock : nat) (self : Individual)
  (positions : list Z) (alpha : float) : outcome Individual :=
  match positions with
  | [] => Ok self
  | pos :: positions' =>
      obind (Individual_mutate_at rng clock self pos alpha) (fun self' =>
      Individual_mutate rng (S clock) self' positions' alpha)
  end.

(** The individuals of the two runs below: a gene on its lower bound -10
    with the upper bound -3.6, and bounds of -1e308 and 1e308. *)
Definition on_lower_bound : Individual :=
  mkIndividual 1 [(-10)%float] [(-3.6)%float] [(-10)%float].

Definition wide_bounds : Individual :=
  mkIndividual 1 [(-1e308)%float] [1e308%float] [0%float].

End Float64.

(** ** class Population (src/GA.py) *)

(** [Population(fun_evaluation, size)]; [size] defaults to 50. *)
Definition Population__init__ (fun_evaluation : list Q -> Q) (size : nat) : M unit :=
  put_self (mkPopulation fun_evaluation size None None).

(** [self._individuals], used as a sequence: [None] is not one. *)
Definition self_individuals : M (list ref) :=
  P <- get_self ;;
  match _individuals P with
  | Some l => ret l
  | None => raise TypeError
  end.

Definition set_individuals (l : list ref) : M unit :=
  P <- get_self ;;
  put_self (mkPopulation (_fun_evaluation P) (_size P) (Some l) (_evaluation P)).

Definition set_evaluation (e : option (list Q)) : M unit :=
  P <- get_self ;;
  put_self (mkPopulation (_fun_evaluation P) (_size P) (_individuals P) e).

(** [l[k]] on a Python list *)
Definition list_getitem {A} (l : list A) (k : nat) : M A :=
  match l !! k with
  | Some x => ret x
  | None => raise IndexError
  end.

(** [Population.initialize(dim, lbound, ubound)] *)
Definition Population_initialize (dim : nat) (lbound ubound : list Q) : M unit :=
  P <- get_self ;;
  l <- list_comp (seq 0 (_size P)) (fun _ => Individual__init__ dim lbound ubound) ;;
  set_individuals l ;;;
  for_each l Individual_initialize.

(** The [evaluation] property: computed on demand, then kept. *)
Definition Population_evaluation : M (list Q) :=
  P <- get_self ;;
  match _evaluation P with
  | Some v => ret v
  | None =>
      l <- self_individuals ;;
      v <- list_comp l (fun r => I <- load r ;; ret (_fun_evaluation P (_chrom I))) ;;
      set_evaluation (Some v) ;;;
      ret v
  end.

(** The [fitness] property:
    [fitness = np.sum(np.abs(self.evaluation)) - self.evaluation;
     return fitness/np.sum(fitness)].
    The property [evaluation] is read twice. *)
Definition Population_fitness : M (list np.np_float) :=
  V <- Population_evaluation ;;
  V' <- Population_evaluation ;;
  let fitness := np.rsub (np.sum (np.abs V)) V' in
  ret (np.div fitness (np.sum fitness)).

(** The same two statements as a function of the evaluation vector. *)
Definition fitness_of (V : list Q) : list np.np_float :=
  let fitness := np.rsub (np.sum (np.abs V)) V in
  np.div fitness (np.sum fitness).

(** The [best] property *)
Definition Population_best : M (ref * Q) :=
  V <- Population_evaluation ;;
  pos <- lift (np.argmin V) ;;
  l <- self_individuals ;;
  r <- list_getitem l pos ;;
  V' <- Population_evaluation ;;
  v <- list_getitem V' pos ;;
  ret (r, v).

(** [Population.convergent(tol)] *)
Definition Population_convergent (tol : Q) : M bool :=
  V <- Population_evaluation ;;
  max_eval <- lift (np.max V) ;;
  V' <- Population_evaluation ;;
  min_eval <- lift (np.min V') ;;
  ret (Qle_bool (max_eval - min_eval) tol).

(** [Population.cross_individuals(individual_a, individual_b, alpha)] *)
Definition cross_individuals (individual_a individual_b : ref) (alpha : Q)
  : M (ref * ref) :=
  a <- load individual_a ;;
  b <- load individual_b ;;
  (* pos = np.random.rand(individual_a.dimension) <= 0.5 *)
  draws <- np_random_rand_n (_dim a) ;;
  let pos := map (fun u => Qle_bool u (1#2)) draws in
  (* new_value_a = a.chrom*pos*alpha + b.chrom*pos*(1-alpha) *)
  ap <- lift (np.mul_mask (_chrom a) pos) ;;
  bp <- lift (np.mul_mask (_chrom b) pos) ;;
  new_value_a <- lift (np.add (np.scale ap alpha) (np.scale bp (1 - alpha))) ;;
  (* new_value_b = a.chrom*pos*(1-alpha) + b.chrom*pos*alpha *)
  ap' <- lift (np.mul_mask (_chrom a) pos) ;;
  bp' <- lift (np.mul_mask (_chrom b) pos) ;;
  new_value_b <- lift (np.add (np.scale ap' (1 - alpha)) (np.scale bp' alpha)) ;;
  new_individual_a <- Individual__init__ (_dim a) (_lbound a) (_ubound a) ;;
  new_individual_b <- Individual__init__ (_dim b) (_lbound b) (_ubound b) ;;
  Individual_set_chrom new_individual_a new_value_a ;;;
  Individual_set_chrom new_individual_b new_value_b ;;;
  ret (new_individual_a, new_individual_b).

(** One entry of the list comprehension of [select]:
    [self._individuals[np.sum(np.random.rand()>=probabilities)]] *)
Definition select_one (probabilities : list np.np_float) : M ref :=
  u <- np_random_rand ;;
  let k := np.count_true (map (np.scalar_ge u) probabilities) in
  l <- self_individuals ;;
  list_getitem l k.

(** [Population.select()] *)
Definition Population_select : M unit :=
  f <- Population_fitness ;;
  let probabilities := np.cumsum f in
  P <- get_self ;;
  selected_individuals <-
    list_comp (seq 0 (_size P)) (fun _ => select_one probabilities) ;;
  set_individuals selected_individuals ;;;
  set_evaluation None.

(** The loop of [crossover], accumulating [new_individuals]. *)
Fixpoint crossover_loop (pairs : list (ref * ref)) (rate alpha : Q)
  (new_individuals : list ref) : M (list ref) :=
  match pairs with
  | [] => ret new_individuals
  | (individual_a, individual_b) :: pairs' =>
      u <- np_random_rand ;;
      if Qle_bool u rate then
        children <- cross_individuals individual_a individual_b alpha ;;
        crossover_loop pairs' rate alpha
          (new_individuals ++ [fst children; snd children])
      else
        crossover_loop pairs' rate alpha
          (new_individuals ++ [individual_a; individual_b])
  end.

(** [self._individuals] as the argument of [np.random.permutation]: numpy
    makes an array of it, and the array without dimension that [None]
    gives is rejected with an [IndexError]. *)
Definition individuals_as_array : M (list ref) :=
  P <- get_self ;;
  match _individuals P with
  | Some l => ret l
  | None => raise IndexError
  end.

(** [Population.crossover(rate, alpha)] *)
Definition Population_crossover (rate alpha : Q) : M unit :=
  l <- individuals_as_array ;;
  random_population <- np_random_permutation l ;;
  new_individuals <- crossover_loop (zip l random_population) rate alpha [] ;;
  P <- get_self ;;
  chosen <- np_random_choice new_individuals (_size P) ;;
  set_individuals chosen ;;;
  set_evaluation None.

(** The body of the loop of [Population.mutate]. *)
Definition mutate_one (num : nat) (rate alpha : Q) (individual : ref) : M unit :=
  u <- np_random_rand ;;
  if Qle_bool u rate then
    I <- load individual ;;
    pos <- np_random_choice (seq 0 (_dim I)) num ;;
    Individual_mutate individual (map Z.of_nat pos) alpha
  else ret tt.

(** [Population.mutate(num, rate, alpha)] *)
Definition Population_mutate (num : nat) (rate alpha : Q) : M unit :=
  set_evaluation None ;;;
  l <- self_individuals ;;
  for_each l (mutate_one num rate alpha).

(** ** The adaptive mutation magnitude of [GA.solve] (src/GA.py) *)

Module Schedule.
Local Open Scope R_scope.

(** Python's float [x ** y] for a base [x >= 0]: anything to the power 0 is
    1 (also [0.0 ** 0.0]), and 0 to a positive power is 0. *)
Definition float_pow (x y : R) : R :=
  if Req_dec_T y 0 then 1
  else if Req_dec_T x 0 then 0
  else Rpower x y.

(** [rate = 1.0 - np.random.rand()**(1.0-current_gen/self._param['max_generation'])]
    with [U] the value drawn by [np.random.rand()]; [/] is Python 3's true
    division, and [current_gen] runs over [range(1, max_generation+1)]. *)
Definition solve_rate (U : R) (current_gen max_generation : nat) : R :=
  1 - float_pow U (1 - INR current_gen / INR max_generation).

(** The magnitudes of a whole run of the loop
    [for current_gen in range(1, max_generation+1)] that is not cut short
    by [convergent()]; [Us g] is the draw of generation [g]. *)
Definition solve_rates (Us : nat -> R) (max_generation : nat) : list R :=
  map (fun current_gen => solve_rate (Us current_gen) current_gen max_generation)
      (seq 1 max_generation).

End Schedule.

(** ** The adaptive mutation magnitude of [GA.run] (src/GA/GAProcess.py) *)

Module RunSchedule.
Local Open Scope R_scope.

(** [rate = 1.0 - np.random.rand()**((1.0-n/gen)**3)] with [U] the value
    drawn by [np.random.rand()]; [n] runs over [range(1, gen+1)]. *)
Definition run_rate (U : R) (n gen : nat) : R :=
  1 - Schedule.float_pow U ((1 - INR n / INR gen) ^ 3).

End RunSchedule.

(** ** class GA (src/GA.py): the monolithic driver *)

Module Monolithic.

Section Driver.

(** Python's float [**] on the rationals of the model; [GA.solve] uses it
    in [rate]. *)
Variable float_pow : Q -> Q -> Q.

(** The dictionary [self._param]: its eight keys. *)
Record Param := mkParam {
  var_dim : nat;
  lbound : list Q;
  ubound : list Q;
  size : nat;
  max_generation : nat;
  crossover_rate : Q;
  mutation_rate : Q;
  crossover_alpha : Q
}.

(** The keyword arguments [**kw], as far as they name one of the eight
    keys; a key that is absent is [None]. *)
Record Kw := mkKw {
  kw_var_dim : option nat;
  kw_lbound : option (list Q);
  kw_ubound : option (list Q);
  kw_size : option nat;
  kw_max_generation : option nat;
  kw_crossover_rate : option Q;
  kw_mutation_rate : option Q;
  kw_crossover_alpha : option Q
}.

(** The default parameters of [__init__]. *)
Definition default_param (dimention : nat) : Param :=
  mkParam dimention
    (repeat (-(1000000000))%Q dimention)      (* [-1e9] * dimention *)
    (repeat 1000000000%Q dimention)           (* [1e9] * dimention *)
    200 10 (9 # 10)%Q (8 # 100)%Q (75 # 100)%Q.

(** [self._param.update(kw)] *)
Definition update (p : Param) (kw : Kw) : Param :=
  mkParam
    (default (var_dim p) (kw_var_dim kw))
    (default (lbound p) (kw_lbound kw))
    (default (ubound p) (kw_ubound kw))
    (default (size p) (kw_size kw))
    (default (max_generation p) (kw_max_generation kw))
    (default (crossover_rate p) (kw_crossover_rate kw))
    (default (mutation_rate p) (kw_mutation_rate kw))
    (default (crossover_alpha p) (kw_crossover_alpha kw)).

(** The driver object: [_param]; its [_population] is the population of
    the world. *)
Record GA := mkGA {
  _param : Param
}.

(** [GA.__init__(fun_evaluation, dimention, **kw)] *)
Definition GA__init__ (fun_evaluation : list Q -> Q) (dimention : nat) (kw : Kw)
  : M GA :=
  let param := update (default_param dimention) kw in
  Population__init__ fun_evaluation (size param) ;;;
  Population_initialize dimention (lbound param) (ubound param) ;;;
  ret (mkGA param).

(** The body of the loop of [solve]; its value is what [convergent()]
    answers, with the default tolerance [1e-6]. *)
Definition solve_generation (self : GA) (current_gen : nat) : M bool :=
  let p := _param self in
  (* rate = 1.0 - np.random.rand()**(1.0-current_gen/max_generation) *)
  u <- np_random_rand ;;
  let rate := (1 - float_pow u (1 - inject_Z (Z.of_nat current_gen)
                                     / inject_Z (Z.of_nat (max_generation p))))%Q in
  Population_select ;;;
  Population_crossover (crossover_rate p) (crossover_alpha p) ;;;
  k <- np_random_randint (var_dim p) ;;
  Population_mutate (k + 1) (mutation_rate p) rate ;;;
  Population_convergent (1 # 1000000)%Q.

(** [for current_gen in range(1, max_generation+1): ...; if convergent: break]
    over the generations still to run *)
Fixpoint solve_loop (self : GA) (gens : list nat) : M unit :=
  match gens with
  | [] => ret tt
  | current_gen :: gens' =>
      stop <- solve_generation self current_gen ;;
      if stop then ret tt else solve_loop self gens'
  end.

(** How [solve] can end.  Besides the exceptions of the operators there is
    the [UnboundLocalError] of [print(... .format(current_gen))] when the
    loop has not run at all. *)
Inductive solve_result :=
| Returned (individual : ref) (val : Q)
| Raised (e : exn)
| UnboundLocalError.

(** [GA.solve()]: the loop, then [individual, val = self._population.best],
    the three [print]s (which change nothing in the world) and the
    [return]. *)
Definition solve (self : GA) : World -> solve_result * World :=
  fun w =>
    match (solve_loop self (seq 1 (max_generation (_param self))) ;;;
           Population_best) w with
    | (Ok (individual, val), w') =>
        match max_generation (_param self) with
        | O => (UnboundLocalError, w')
        | S _ => (Returned individual val, w')
        end
    | (Raise e, w') => (Raised e, w')
    end.

End Driver.

End Monolithic.

(** ** class GA (src/GA/GAProcess.py): the modular driver *)

Module GAProcess.

Section Driver.

(** The classes an individual can be an instance of, and what an
    individual is as a value (what [copy.deepcopy] preserves). *)
Context {cls : Type} `{EqDecision cls}.
Context {Ind : Type}.
(** Python's float [**], used by the mutation schedule. *)
Variable float_pow : Q -> Q -> Q.

(** Modelled from the spec: the population class of the modular driver is
    not part of the sources; spec section 3 gives it an ordered sequence of
    individuals of fixed length N.  [individual__class__] stands for
    [population.individual.__class__]. *)
Record population := mkPop {
  individual__class__ : cls;
  size : nat;
  individuals : list Ind
}.

Record state := mkState {
  rng : nat -> N;
  clock : nat;
  pop : population
}.

Definition M (A : Type) : Type := state -> outcome A * state.
Definition ret {A} (a : A) : M A := fun s => (Ok a, s).
Definition raise {A} (e : exn) : M A := fun s => (Raise e, s).
Definition bind {A B} (m : M A) (k : A -> M B) : M B :=
  fun s => match m s with
           | (Ok a, s') => k a s'
           | (Raise e, s') => (Raise e, s')
           end.
Notation "x <- m ;; k" := (bind m (fun x => k))
  (at level 100, m at next level, right associativity).
Notation "m ;;; k" := (bind m (fun _ => k))
  (at level 100, right associativity).

(** The strategy objects handed to the driver. *)
Record Selection := mkSelection {
  select : M unit                      (* selection.select(population) *)
}.
Record Crossover := mkCrossover {
  crossover_individual_class : list cls;
  cross : M unit                       (* crossover.cross(population) *)
}.
Record Mutation := mkMutation {
  mutation_individual_class : list cls;
  mutate : Q -> M unit                 (* mutation.mutate(population, rate) *)
}.

Record GA := mkGA {
  selection : Selection;
  crossover : Crossover;
  mutation : Mutation;
  fun_fitness : Q -> Q
}.

(** [not c.individual_class or not population.individual.__class__ in c.individual_class] *)
Definition incompatible (individual_class : list cls) (c : cls) : bool :=
  match individual_class with
  | [] => true
  | _ => negb (bool_decide (c ∈ individual_class))
  end.

(** [GA.__init__] *)
Definition GA__init__ (p : population) (sel : Selection) (cr : Crossover)
  (mu : Mutation) (fit : Q -> Q) : outcome GA :=
  if incompatible (crossover_individual_class cr) (individual__class__ p)
  then Raise ValueError
  else if incompatible (mutation_individual_class mu) (individual__class__ p)
  then Raise ValueError
  else Ok (mkGA sel cr mu fit).

(** [population.initialize()] is not part of the sources; what it builds
    is left open. *)
Variable population_initialize : M unit.

(** Modelled from the spec: [population.best(fun_evaluation, fun_fitness)]
    is not part of the sources.  After spec sections 4.2 and 4.4 it is the
    individual at the first index of the minimum evaluation; on an empty
    population it fails as [argmin] does. *)
Definition population_best (fun_evaluation : Ind -> Q) (fit : Q -> Q) : M Ind :=
  fun s =>
    match np.argmin (map fun_evaluation (individuals (pop s))) with
    | Ok pos =>
        match individuals (pop s) !! pos with
        | Some x => (Ok x, s)
        | None => (Raise IndexError, s)
        end
    | Raise e => (Raise e, s)
    end.

(** Modelled from the spec: [population.evaluate(fun_evaluation, fun_fitness)]
    is not part of the sources.  After spec section 4.4 it only forces the
    evaluation pass that fills the cache, which changes no individual. *)
Definition population_evaluate (fun_evaluation : Ind -> Q) (fit : Q -> Q) : M unit :=
  ret tt.

Definition np_random_rand : M Q :=
  fun s => (Ok (np.uniform (rng s (clock s))), mkState (rng s) (S (clock s)) (pop s)).

Definition np_random_randint (n : nat) : M nat :=
  match n with
  | O => raise ValueError
  | S _ => fun s => (Ok (N.to_nat (rng s (clock s) mod N.of_nat n)%N),
                     mkState (rng s) (S (clock s)) (pop s))
  end.

(** [self.population.individuals[pos] = the_best] *)
Definition setitem_individuals (pos : nat) (x : Ind) : M unit :=
  fun s =>
    if (pos <? length (individuals (pop s)))%nat then
      (Ok tt, mkState (rng s) (clock s)
                (mkPop (individual__class__ (pop s)) (size (pop s))
                       (<[pos := x]> (individuals (pop s)))))
    else (Raise IndexError, s).

Definition get_size : M nat := fun s => (Ok (size (pop s)), s).

(** The body of the loop of [run], for generation [n] of [gen]. *)
Definition generation (self : GA) (fun_evaluation : Ind -> Q) (gen : nat)
  (elitism : bool) (n : nat) : M unit :=
  the_best <-
    (if elitism then
       (* the_best = copy.deepcopy(self.population.best(...)) *)
       b <- population_best fun_evaluation (fun_fitness self) ;; ret (Some b)
     else
       population_evaluate fun_evaluation (fun_fitness self) ;;; ret None) ;;
  select (selection self) ;;;
  cross (crossover self) ;;;
  (* rate = 1.0 - np.random.rand()**((1.0-n/gen)**3) *)
  u <- np_random_rand ;;
  let rate := (1 - float_pow u ((1 - inject_Z (Z.of_nat n) / inject_Z (Z.of_nat gen)) ^ 3))%Q in
  mutate (mutation self) rate ;;;
  match the_best with
  | Some b =>
      sz <- get_size ;;
      pos <- np_random_randint sz ;;
      setitem_individuals pos b
  | None => ret tt
  end.

(** [for n in range(1, gen+1)] over the generations [ns] still to run *)
Fixpoint generations (self : GA) (fun_evaluation : Ind -> Q) (gen : nat)
  (elitism : bool) (ns : list nat) : M unit :=
  match ns with
  | [] => ret tt
  | n :: ns' =>
      generation self fun_evaluation gen elitism n ;;;
      generations self fun_evaluation gen elitism ns'
  end.

(** [GA.run(fun_evaluation, gen, elitism)] *)
Definition run (self : GA) (fun_evaluation : Ind -> Q) (gen : nat)
  (elitism : bool) : M Ind :=
  population_initialize ;;;
  generations self fun_evaluation gen elitism (seq 1 gen) ;;;
  population_best fun_evaluation (fun_fitness self).

End Driver.

End GAProcess.

(** * Vocabulary of the properties *)

Section Vocabulary.
Local Open Scope Q_scope.

(** The three vectors have [_dim] entries. *)
Definition shaped (I : Individual) : Prop :=
  length (_lbound I) = _dim I /\ length (_ubound I) = _dim I.

(** [lowerBound[i] <= x[i] <= upperBound[i]] for every gene of a candidate
    chromosome [x]. *)
Definition within (I : Individual) (x : list Q) : Prop :=
  length x = _dim I /\
  forall (i : nat) (l c u : Q),
    _lbound I !! i = Some l -> x !! i = Some c -> _ubound I !! i = Some u ->
    l <= c <= u.

Definition in_bounds (I : Individual) : Prop := within I (_chrom I).

(** The same test as a program, gene by gene. *)
Fixpoint withinb (lo x hi : list Q) : bool :=
  match lo, x, hi with
  | l :: lo', c :: x', u :: hi' => Qle_bool l c && Qle_bool c u && withinb lo' x' hi'
  | [], [], [] => true
  | _, _, _ => false
  end.

(** The draws that [np.random.random(dim)] hands to [initialize]. *)
Definition seeds_of (w : World) (n : nat) : list Q :=
  map (fun k => np.uniform (rng w (clock w + k))) (seq 0 n).

(** The chromosome that [initialize] computes from the draws. *)
Definition initial_chrom (I : Individual) (seeds : list Q) : list Q :=
  zip_with Qplus (_lbound I)
    (zip_with Qmult (zip_with Qminus (_ubound I) (_lbound I)) seeds).

(** The value a gene takes in one turn of [Individual.mutate]: the draw [u]
    picks the direction, and the gene moves the fraction [alpha] of the way
    to that bound. *)
Definition creep (u c l h alpha : Q) : Q :=
  if negb (Qle_bool (1#2) u) then c - (c - l) * alpha else c + (h - c) * alpha.

(** An individual keeps its dimension and its bounds. *)
Definition same_frame (I I' : Individual) : Prop :=
  _dim I' = _dim I /\ _lbound I' = _lbound I /\ _ubound I' = _ubound I.

(** The mask [np.random.rand(D) <= 0.5] drawn in the world [w]. *)
Definition mask_of (w : World) (D : nat) : list bool :=
  map (fun u => Qle_bool u (1#2)) (seeds_of w D).

(** [x*pos*k1 + y*pos*k2], the shape of both [new_value_a] and
    [new_value_b]. *)
Definition cross_value (x y : list Q) (pos : list bool) (k1 k2 : Q) : list Q :=
  zip_with Qplus
    (np.scale (zip_with (fun a (m : bool) => a * np.of_bool m) x pos) k1)
    (np.scale (zip_with (fun a (m : bool) => a * np.of_bool m) y pos) k2).

(** Two parents of the same dimension [D] whose four bound vectors and two
    chromosomes have [D] entries. *)
Definition parents (a b : Individual) (D : nat) : Prop :=
  _dim a = D /\ _dim b = D /\ shaped a /\ shaped b
  /\ length (_chrom a) = D /\ length (_chrom b) = D.

(** Running sums of rationals, as [np.cumsum] computes them on finite
    floats. *)
Fixpoint qcumsum_from (acc : Q) (x : list Q) : list Q :=
  match x with
  | [] => []
  | a :: x' => (acc + a) :: qcumsum_from (acc + a) x'
  end.
Definition qcumsum (x : list Q) : list Q :=
  match x with
  | [] => []
  | a :: x' => a :: qcumsum_from a x'
  end.

(** The index computed by [np.sum(u >= probabilities)]. *)
Definition roulette_index (probabilities : list np.np_float) (u : Q) : nat :=
  np.count_true (map (np.scalar_ge u) probabilities).

(** The number of entries that are at most [u]. *)
Definition count_le (u : Q) (cs : list Q) : nat :=
  np.count_true (map (fun c => Qle_bool c u) cs).

(** The fitness vector as rationals, when the normalising sum [T] is not
    zero. *)
Definition fitness_values (V : list Q) : list Q :=
  let S := np.sum (np.abs V) in
  let T := np.sum (np.rsub S V) in
  map (fun v => (S - v) / T) V.

End Vocabulary.

Section WorldVocabulary.

(** [frame n w w']: going from [w] to [w'] kept the population object, the
    generator and the objects with a reference below [n]; references are
    only ever added. *)
Definition frame (n : nat) (w w' : World) : Prop :=
  pop w' = pop w /\ next w <= next w' /\ rng w' = rng w
  /\ forall r, r < n -> heap w' r = heap w r.

(** [local n m R]: started with every reference below [n] allocated, the
    command [m] respects [frame n], and a value it returns satisfies [R]. *)
Definition local {A} (n : nat) (m : M A) (R : A -> Prop) : Prop :=
  forall w o w', n <= next w -> m w = (o, w') ->
                 frame n w w' /\ forall a, o = Ok a -> R a.

Definition any {A} : A -> Prop := fun _ => True.

(** The cache is absent, or it is the evaluation of the chromosomes the
    individuals have now. *)
Definition cache_consistent (w : World) : Prop :=
  match _evaluation (pop w) with
  | None => True
  | Some v =>
      exists l, _individuals (pop w) = Some l
                /\ v = map (fun r => _fun_evaluation (pop w) (_chrom (heap w r))) l
  end.

(** Every member of the population is an allocated object. *)
Definition allocated (w : World) : Prop :=
  forall l, _individuals (pop w) = Some l -> Forall (fun r => r < next w) l.

(** The population holds exactly [N] individuals. *)
Definition holds (N : nat) (w : World) : Prop :=
  exists l, _individuals (pop w) = Some l /\ length l = N.

(** An allocated object whose bound vectors have the right shape and whose
    chromosome lies within them. *)
Definition good (w : World) (r : ref) : Prop :=
  r < next w /\ shaped (heap w r) /\ in_bounds (heap w r).

(** An allocated object with the dimension and the bounds it was
    constructed with. *)
Definition framed (d : nat) (lo hi : list Q) (w : World) (r : ref) : Prop :=
  r < next w /\ _dim (heap w r) = d /\ _lbound (heap w r) = lo /\ _ubound (heap w r) = hi.

(** Every member of the population is such an object. *)
Definition sound (w : World) : Prop :=
  forall l, _individuals (pop w) = Some l -> Forall (good w) l.

(** A command after which every object that was good is good. *)
Definition preserves_good {A} (m : M A) : Prop :=
  forall w o w', m w = (o, w') -> forall r, good w r -> good w' r.

End WorldVocabulary.

Section DriverVocabulary.
Local Open Scope Q_scope.

(** The evaluations of the individuals [l], in order, as the world [w] has
    their chromosomes. *)
Definition evaluations (w : World) (l : list ref) : list Q :=
  map (fun r => _fun_evaluation (pop w) (_chrom (heap w r))) l.

(** An object of dimension [d] whose chromosome and bound vectors have
    [d] entries. *)
Definition formed (d : nat) (w : World) (r : ref) : Prop :=
  _dim (heap w r) = d /\ length (_chrom (heap w r)) = d
  /\ length (_lbound (heap w r)) = d /\ length (_ubound (heap w r)) = d.

(** A population of [N] members, as many as [_size] says. *)
Definition sized (N : nat) (w : World) : Prop :=
  holds N w /\ _size (pop w) = N.

End DriverVocabulary.

(** ** Sample inputs, used to run the model on concrete data *)

Definition sample_individual (lo hi c : list Q) : Individual :=
  mkIndividual (length c) lo hi c.

Definition world_of (bits : nat -> N) (inds : list Individual)
  (f : list Q -> Q) (size : nat) (cache : option (list Q)) : World :=
  mkWorld bits 0 (fun _ => 0%Q)
    (fun r => nth r inds (mkIndividual 0 [] [] []))
    (length inds)
    (mkPopulation f size (Some (seq 0 (length inds))) cache).

(** A stand-in for Python's [**] in the sample runs: 1 for the exponent 0,
    the base itself for every other exponent. *)
Definition sample_pow (u e : Q) : Q := if Qeq_bool e 0 then 1%Q else u.

Section ModularDriverSamples.
Local Open Scope Q_scope.

(** A population of rationals that evaluate to themselves, with operators
    that destroy what they find: selection reverses the sequence, crossover
    adds 1 to every individual, mutation adds 2. *)
Definition sample_state : @GAProcess.state nat Q :=
  GAProcess.mkState (fun t => N.of_nat t) 0 (GAProcess.mkPop 7%nat 3 []).

Definition sample_update (f : list Q -> list Q) : @GAProcess.M nat Q unit :=
  fun s => (Ok tt,
            GAProcess.mkState (GAProcess.rng s) (GAProcess.clock s)
              (GAProcess.mkPop (GAProcess.individual__class__ (GAProcess.pop s))
                 (GAProcess.size (GAProcess.pop s))
                 (f (GAProcess.individuals (GAProcess.pop s))))).

Definition sample_selection : @GAProcess.Selection nat Q :=
  GAProcess.mkSelection (sample_update (@rev Q)).
Definition sample_crossover (classes : list nat) : @GAProcess.Crossover nat Q :=
  GAProcess.mkCrossover classes (sample_update (map (fun x => x + 1))).
Definition sample_mutation (classes : list nat) : @GAProcess.Mutation nat Q :=
  GAProcess.mkMutation classes (fun _ => sample_update (map (fun x => x + 2))).
Definition sample_initialize : @GAProcess.M nat Q unit :=
  sample_update (fun _ => [5; 3; 8]).
Definition sample_GA : @GAProcess.GA nat Q :=
  GAProcess.mkGA sample_selection (sample_crossover [7%nat]) (sample_mutation [7%nat])
    (fun x => - x).

End ModularDriverSamples.

(** * Properties *)

(** ** Arithmetic of the fitness vector *)

Section FitnessArith.
Local Open Scope Q_scope.

Lemma Qabs_ge (v : Q) : v <= Qabs v.
Proof. apply Qle_Qabs. Qed.

Lemma sum_abs_nonneg (V : list Q) : 0 <= np.sum (np.abs V).
Proof.
  induction V as [|v V IH]; simpl; [lra|].
  pose proof (Qabs_nonneg v). lra.
Qed.

Lemma sum_abs_bound (V : list Q) (v : Q) : In v V -> Qabs v <= np.sum (np.abs V).
Proof.
  induction V as [|a V IH]; simpl; [tauto|].
  intros [->|Hin].
  - pose proof (sum_abs_nonneg V). unfold np.sum, np.abs in *. lra.
  - specialize (IH Hin). pose proof (Qabs_nonneg a). lra.
Qed.

(** Every numerator [k - v] is non-negative when [k] bounds the entries. *)
Lemma sum_rsub_nonneg (k : Q) (V : list Q) :
  (forall v, In v V -> v <= k) -> 0 <= np.sum (np.rsub k V).
Proof.
  induction V as [|a V IH]; simpl; intros H; [lra|].
  assert (a <= k) by (apply H; auto).
  assert (0 <= np.sum (np.rsub k V)) by (apply IH; intros; apply H; auto).
  unfold np.sum, np.rsub in *. lra.
Qed.

Lemma sum_rsub_pos (k : Q) (V : list Q) :
  (forall v, In v V -> v <= k) -> (exists v, In v V /\ v < k) ->
  0 < np.sum (np.rsub k V).
Proof.
  induction V as [|a V IH]; simpl; intros H [v [Hin Hlt]]; [tauto|].
  assert (a <= k) by (apply H; auto).
  assert (0 <= np.sum (np.rsub k V))
    by (apply sum_rsub_nonneg; intros; apply H; auto).
  destruct Hin as [->|Hin].
  - unfold np.sum, np.rsub in *. lra.
  - assert (0 < np.sum (np.rsub k V)).
    { apply IH; [intros; apply H; auto | exists v; auto]. }
    unfold np.sum, np.rsub in *. lra.
Qed.

(** A zero sum of numerators means every numerator is zero: the division
    by zero in [fitness] is always 0/0. *)
Lemma sum_rsub_zero (k : Q) (V : list Q) :
  (forall v, In v V -> v <= k) -> np.sum (np.rsub k V) == 0 ->
  forall v, In v V -> k - v == 0.
Proof.
  intros H H0 v Hin.
  destruct (Qlt_le_dec v k) as [Hlt|Hge].
  - assert (0 < np.sum (np.rsub k V)) by (apply sum_rsub_pos; eauto).
    lra.
  - specialize (H v Hin). lra.
Qed.

Lemma entries_le_sum_abs (V : list Q) : forall v, In v V -> v <= np.sum (np.abs V).
Proof.
  intros v Hin. pose proof (sum_abs_bound V v Hin). pose proof (Qabs_ge v). lra.
Qed.

Lemma Qabs_pos_of_nonzero (x : Q) : ~ x == 0 -> 0 < Qabs x.
Proof.
  intros Hx. destruct (Qlt_le_dec x 0) as [Hneg|Hpos].
  - rewrite Qabs_neg by lra. lra.
  - rewrite Qabs_pos by lra.
    destruct (Qle_lt_or_eq _ _ Hpos) as [|E]; [assumption|].
    exfalso. apply Hx. symmetry. exact E.
Qed.

(** The normalising sum of [fitness] is positive as soon as the population
    has two individuals and some evaluation is not zero, or some evaluation
    is negative. *)
Lemma fitness_total_pos (V : list Q) :
  (exists v, In v V /\ ~ v == 0) ->
  (2 <= length V)%nat \/ (exists v, In v V /\ v < 0) ->
  0 < np.sum (np.rsub (np.sum (np.abs V)) V).
Proof.
  intros [x [Hx Hx0]] Hcase.
  apply sum_rsub_pos; [apply entries_le_sum_abs|].
  destruct Hcase as [Hlen|[v [Hin Hneg]]].
  - destruct V as [|a [|b V]]; simpl in Hlen; try lia.
    pose proof (sum_abs_nonneg V) as HR.
    pose proof (Qabs_nonneg a) as Ha. pose proof (Qabs_nonneg b) as Hb.
    pose proof (Qabs_ge a) as Ha'. pose proof (Qabs_ge b) as Hb'.
    pose proof (sum_abs_bound (a :: b :: V) x Hx) as Hb0.
    pose proof (Qabs_pos_of_nonzero x Hx0) as Hxp.
    simpl in Hb0. unfold np.sum, np.abs in *.
    destruct (Qlt_le_dec a (np.sum (np.abs (a :: b :: V)))) as [Hlt|Hge].
    + exists a. split; [left; reflexivity|]. exact Hlt.
    + exists b. split; [right; left; reflexivity|].
      simpl in Hge |- *. unfold np.sum, np.abs in *. lra.
  - exists v. split; auto. pose proof (sum_abs_nonneg V). lra.
Qed.

End FitnessArith.

(** ** Running monadic code *)

Lemma bind_ok {A B} (m : M A) (k : A -> M B) (w w' : World) (a : A) :
  m w = (Ok a, w') -> bind m k w = k a w'.
Proof. intros H. unfold bind. rewrite H. reflexivity. Qed.

Lemma bind_raise {A B} (m : M A) (k : A -> M B) (w w' : World) (e : exn) :
  m w = (Raise e, w') -> bind m k w = (Raise e, w').
Proof. intros H. unfold bind. rewrite H. reflexivity. Qed.

(** Case analysis on the first command of a sequence. *)
Lemma bind_inv {A B} (m : M A) (k : A -> M B) (w w2 : World) (o : outcome B) :
  bind m k w = (o, w2) ->
  (exists a w1, m w = (Ok a, w1) /\ k a w1 = (o, w2))
  \/ (exists e, m w = (Raise e, w2) /\ o = Raise e).
Proof.
  unfold bind. destruct (m w) as [[a|e] w1]; intros H.
  - left. eauto.
  - right. inversion H; subst. eauto.
Qed.

Lemma self_individuals_run (w : World) :
  self_individuals w =
  match _individuals (pop w) with
  | Some l => (Ok l, w)
  | None => (Raise TypeError, w)
  end.
Proof.
  unfold self_individuals, bind, get_self.
  destruct (_individuals (pop w)); reflexivity.
Qed.

Lemma individuals_as_array_run (w : World) :
  individuals_as_array w =
  match _individuals (pop w) with
  | Some l => (Ok l, w)
  | None => (Raise IndexError, w)
  end.
Proof.
  unfold individuals_as_array, bind, get_self.
  destruct (_individuals (pop w)); reflexivity.
Qed.

(** ** The evaluation cache and [fitness] *)

Lemma list_comp_eval (f : list Q -> Q) (l : list ref) (w : World) :
  list_comp l (fun r => I <- load r ;; ret (f (_chrom I))) w
  = (Ok (map (fun r => f (_chrom (heap w r))) l), w).
Proof.
  induction l as [|r l IH]; [reflexivity|].
  cbn [list_comp].
  erewrite bind_ok by reflexivity.
  erewrite bind_ok by exact IH.
  reflexivity.
Qed.

(** What the [evaluation] property returns and leaves behind. *)
Lemma Population_evaluation_run (w : World) :
  Population_evaluation w =
  match _evaluation (pop w) with
  | Some v => (Ok v, w)
  | None =>
      match _individuals (pop w) with
      | Some l =>
          let v := map (fun r => _fun_evaluation (pop w) (_chrom (heap w r))) l in
          (Ok v, set_pop (mkPopulation (_fun_evaluation (pop w)) (_size (pop w))
                            (Some l) (Some v)) w)
      | None => (Raise TypeError, w)
      end
  end.
Proof.
  unfold Population_evaluation.
  erewrite bind_ok by reflexivity.
  destruct (_evaluation (pop w)) as [v|] eqn:Ev; [reflexivity|].
  destruct (_individuals (pop w)) as [l|] eqn:El.
  - erewrite bind_ok by (rewrite self_individuals_run, El; reflexivity).
    erewrite bind_ok by apply list_comp_eval.
    unfold set_evaluation.
    erewrite bind_ok by (erewrite bind_ok by reflexivity; reflexivity).
    unfold ret. rewrite El. reflexivity.
  - erewrite bind_raise by (rewrite self_individuals_run, El; reflexivity).
    reflexivity.
Qed.

(** After a successful read the cache is filled, so a second read returns
    the same vector and changes nothing. *)
Lemma Population_evaluation_again (w w' : World) (V : list Q) :
  Population_evaluation w = (Ok V, w') ->
  Population_evaluation w' = (Ok V, w').
Proof.
  rewrite (Population_evaluation_run w). intros H.
  rewrite (Population_evaluation_run w').
  destruct (_evaluation (pop w)) as [v|] eqn:Ev.
  - inversion H; subst. rewrite Ev. reflexivity.
  - destruct (_individuals (pop w)); inversion H; subst. reflexivity.
Qed.

Lemma Population_fitness_run (w w' : World) (V : list Q) :
  Population_evaluation w = (Ok V, w') ->
  Population_fitness w = (Ok (fitness_of V), w').
Proof.
  intros H. unfold Population_fitness, bind.
  rewrite H, (Population_evaluation_again _ _ _ H). reflexivity.
Qed.

Section FitnessSum.
Local Open Scope Q_scope.

Lemma div1_fin (a d : Q) : ~ d == 0 -> np.div1 a d = np.Fin (a / d).
Proof.
  intros Hd. unfold np.div1.
  destruct (Qeq_bool d 0) eqn:E; [|reflexivity].
  apply Qeq_bool_iff in E. contradiction.
Qed.

Lemma fitness_of_fin (V : list Q) :
  let S := np.sum (np.abs V) in
  let T := np.sum (np.rsub S V) in
  ~ T == 0 ->
  fitness_of V = map (fun v => np.Fin ((S - v) / T)) V.
Proof.
  intros S T HT. unfold fitness_of, np.div, np.rsub. fold S.
  rewrite map_map. apply map_ext. intros v. apply div1_fin. exact HT.
Qed.

Lemma fsum_fin_from (g : Q -> Q) (V : list Q) (acc : Q) :
  exists s, fold_left np.fadd (map (fun v => np.Fin (g v)) V) (np.Fin acc) = np.Fin s
            /\ s == acc + np.sum (map g V).
Proof.
  revert acc. induction V as [|v V IH]; intros acc; simpl.
  - exists acc. split; [reflexivity|lra].
  - destruct (IH (acc + g v)) as [s [Hs Es]]. exists s. split; [exact Hs|].
    rewrite Es. unfold np.sum. lra.
Qed.

Lemma sum_div (V : list Q) (k d : Q) :
  ~ d == 0 ->
  np.sum (map (fun v => (k - v) / d) V) == np.sum (np.rsub k V) / d.
Proof.
  intros Hd. induction V as [|v V IH]; simpl.
  - field. exact Hd.
  - unfold np.sum, np.rsub in *. rewrite IH. field. exact Hd.
Qed.

End FitnessSum.

(** ** C3: [Population.fitness] *)

Section C3.
Local Open Scope Q_scope.

(** C3, as stated, fails on a population of one individual whose evaluation
    is positive: the evaluation vector [1] is not uniformly zero, yet the
    only numerator [sum(|V|) - V_0] is 0, the normalising sum is 0, and
    numpy's 0/0 makes the fitness vector [nan], whose sum is nan and not
    1. *)
Lemma C3_single_positive_counterexample :
  let w := world_of (fun _ => 0%N) [sample_individual [0] [2] [1]] np.sum 1 None in
  exists w',
    Population_evaluation w = (Ok [1], w')
    /\ ~ 1 == 0
    /\ Population_fitness w = (Ok [np.NaN], w')
    /\ np.fsum [np.NaN] = np.NaN.
Proof.
  eexists. split; [reflexivity|]. split; [lra|]. split; reflexivity.
Qed.

(** C3 (amended): for every population whose evaluation vector [V] is not
    uniformly zero and that has at least two individuals or some negative
    evaluation, [Population.fitness] is the vector of the
    [(sum(|V|) - V_i) / T], where [T] is the sum of the numerators
    [sum(|V|) - V_j], and its entries sum to 1. *)
Theorem C3_fitness_normalised (w w' : World) (V : list Q) :
  Population_evaluation w = (Ok V, w') ->
  (exists v, In v V /\ ~ v == 0) ->
  ((2 <= length V)%nat \/ (exists v, In v V /\ v < 0)) ->
  let S := np.sum (np.abs V) in
  let T := np.sum (np.rsub S V) in
  Population_fitness w = (Ok (map (fun v => np.Fin ((S - v) / T)) V), w')
  /\ exists s, np.fsum (map (fun v => np.Fin ((S - v) / T)) V) = np.Fin s /\ s == 1.
Proof.
  intros Hev Hnz Hcase S T.
  assert (HT : 0 < T) by (apply fitness_total_pos; assumption).
  assert (HT0 : ~ T == 0) by lra.
  split.
  - rewrite (Population_fitness_run _ _ _ Hev).
    rewrite fitness_of_fin by exact HT0. reflexivity.
  - destruct (fsum_fin_from (fun v => (S - v) / T) V 0) as [s [Hs Es]].
    exists s. split; [exact Hs|].
    rewrite Es, sum_div by exact HT0. fold T. field. exact HT0.
Qed.

Lemma C3_fitness_normalised_witness :
  let w := world_of (fun _ => 0%N)
             [sample_individual [0] [4] [1]; sample_individual [0] [4] [3]]
             np.sum 2 None in
  exists w',
    Population_evaluation w = (Ok [1; 3], w')
    /\ Population_fitness w
       = (Ok (map (fun v => np.Fin ((np.sum (np.abs [1; 3]) - v)
                                    / np.sum (np.rsub (np.sum (np.abs [1; 3])) [1; 3])))
                  [1; 3]), w')
    /\ exists s, np.fsum (map (fun v => np.Fin ((np.sum (np.abs [1; 3]) - v)
                                    / np.sum (np.rsub (np.sum (np.abs [1; 3])) [1; 3])))
                  [1; 3]) = np.Fin s /\ s == 1.
Proof.
  intros w. eexists. split; [reflexivity|].
  apply (C3_fitness_normalised w _ [1; 3]).
  - reflexivity.
  - exists 1. split; [left; reflexivity|]. intros H; discriminate H.
  - left. simpl. lia.
Defined.

(** When the normalising sum is zero, every numerator is zero as well, so
    the fitness vector is nan throughout. *)
Lemma fitness_of_degenerate (V : list Q) :
  np.sum (np.rsub (np.sum (np.abs V)) V) == 0 ->
  fitness_of V = map (fun _ => np.NaN) V.
Proof.
  intros HT. unfold fitness_of, np.div.
  pose proof (sum_rsub_zero _ V (entries_le_sum_abs V) HT) as Hz.
  unfold np.rsub. rewrite map_map.
  apply map_ext_in. intros v Hin. unfold np.div1.
  destruct (Qeq_bool _ 0) eqn:E.
  - assert (E2 : Qeq_bool (np.sum (np.abs V) - v) 0 = true)
      by (apply Qeq_bool_iff, Hz, Hin).
    rewrite E2. reflexivity.
  - apply Qeq_bool_neq in E. contradiction.
Qed.

End C3.

(** ** The methods of [Individual] and the bounds *)

Section IndividualBounds.
Local Open Scope Q_scope.

Lemma withinb_spec (I : Individual) (x : list Q) :
  shaped I -> (withinb (_lbound I) x (_ubound I) = true <-> within I x).
Proof.
  destruct I as [dim lo hi ch]. unfold shaped, within. simpl.
  intros [Hlo Hhi]. subst dim. revert x hi Hhi.
  induction lo as [|l lo IH]; intros x hi Hhi.
  - destruct hi; [|discriminate]. destruct x; simpl.
    + split; [|reflexivity]. intros _. split; [reflexivity|].
      intros i l c u H. rewrite lookup_nil in H. discriminate.
    + split; [discriminate|]. intros [H _]. discriminate.
  - destruct hi as [|u hi]; [discriminate|]. injection Hhi as Hhi.
    destruct x as [|c x]; simpl.
    + split; [discriminate|]. intros [H _]. discriminate.
    + rewrite !andb_true_iff, !Qle_bool_iff, (IH x hi Hhi). split.
      * intros [[H1 H2] [Hlen Hall]]. split; [simpl; congruence|].
        intros [|i] l' c' u' Hl Hc Hu; simpl in *.
        -- inversion Hl; inversion Hc; inversion Hu; subst. split; assumption.
        -- eapply Hall; eassumption.
      * intros [Hlen Hall]. split; [|split].
        -- exact (Hall O l c u eq_refl eq_refl eq_refl).
        -- simpl in Hlen. congruence.
        -- intros i l' c' u' Hl Hc Hu. eapply (Hall (S i)); eassumption.
Qed.

Lemma uniform_range (bits : N) : 0 <= np.uniform bits < 1.
Proof.
  unfold np.uniform, Qle, Qlt. cbn [Qnum Qden].
  pose proof (N.mod_upper_bound bits 9007199254740992 ltac:(discriminate)) as H.
  set (m := (bits mod 9007199254740992)%N) in *.
  split; lia.
Qed.

Lemma broadcast_same {A B C} (f : A -> B -> C) (x : list A) (y : list B) :
  length x = length y -> np.broadcast f x y = Ok (zip_with f x y).
Proof.
  intros H. unfold np.broadcast. rewrite H, Nat.eqb_refl. reflexivity.
Qed.

Lemma all_zip_withinb (lo x hi : list Q) :
  length x = length lo -> length x = length hi ->
  np.all (zip_with (fun a b => Qle_bool b a) x lo)
  && np.all (zip_with Qle_bool x hi) = withinb lo x hi.
Proof.
  revert lo hi. induction x as [|c x IH]; intros [|l lo] [|u hi] H1 H2;
    try discriminate; [reflexivity|].
  injection H1 as H1. injection H2 as H2.
  specialize (IH lo hi H1 H2). unfold np.all in *. simpl.
  rewrite <- IH.
  destruct (Qle_bool l c), (Qle_bool c u),
    (forallb _ (zip_with (fun a b => Qle_bool b a) x lo)); reflexivity.
Qed.

(** What the [chrom] setter does on an individual whose bounds have the
    right shape: it stores the vector as it is when the shape and every
    gene are right, and otherwise fails an assertion and changes nothing. *)
Lemma Individual_set_chrom_run (w : World) (self : ref) (x : list Q) :
  shaped (heap w self) ->
  Individual_set_chrom self x w =
  if ((_dim (heap w self) =? length x)%nat
      && withinb (_lbound (heap w self)) x (_ubound (heap w self)))%bool
  then (Ok tt, set_heap (<[self := with_chrom (heap w self) x]> (heap w)) w)
  else (Raise AssertionError, w).
Proof.
  intros [Hlo Hhi]. unfold Individual_set_chrom.
  erewrite bind_ok by reflexivity.
  destruct (_dim (heap w self) =? length x)%nat eqn:Hd.
  - apply Nat.eqb_eq in Hd.
    erewrite bind_ok by reflexivity.
    unfold np.ge, np.le.
    rewrite broadcast_same by congruence.
    erewrite bind_ok by reflexivity.
    rewrite andb_true_l, <- all_zip_withinb by congruence.
    destruct (np.all (zip_with _ x (_lbound (heap w self)))) eqn:Ha.
    + rewrite broadcast_same by congruence. rewrite andb_true_l.
      destruct (np.all (zip_with Qle_bool x (_ubound (heap w self)))) eqn:Hb.
      * erewrite bind_ok; [reflexivity|].
        erewrite bind_ok by reflexivity. unfold assert_. rewrite Hb. reflexivity.
      * erewrite bind_raise; [reflexivity|].
        erewrite bind_ok by reflexivity. unfold assert_. rewrite Hb. reflexivity.
    + rewrite andb_false_l. erewrite bind_raise; reflexivity.
  - rewrite andb_false_l. erewrite bind_raise; reflexivity.
Qed.

Lemma map_lookup {A B} (f : A -> B) (l : list A) (i : nat) :
  map f l !! i = f <$> (l !! i).
Proof.
  revert i. induction l as [|a l IH]; intros [|i]; simpl; auto.
Qed.

Lemma Individual_initialize_run (w : World) (self : ref) :
  shaped (heap w self) ->
  Individual_initialize self w =
  (Ok tt,
   set_heap (<[self := with_chrom (heap w self)
                         (initial_chrom (heap w self) (seeds_of w (_dim (heap w self))))]>
               (heap w))
            (tick (_dim (heap w self)) w)).
Proof.
  intros [Hlo Hhi]. unfold Individual_initialize.
  erewrite bind_ok by reflexivity.
  erewrite bind_ok by reflexivity.
  fold (seeds_of w (_dim (heap w self))).
  assert (Hs : length (seeds_of w (_dim (heap w self))) = _dim (heap w self)).
  { unfold seeds_of. rewrite length_map, length_seq. reflexivity. }
  unfold np.sub, np.mul, np.add.
  rewrite broadcast_same by congruence.
  erewrite bind_ok by reflexivity.
  rewrite broadcast_same by (rewrite length_zip_with; lia).
  erewrite bind_ok by reflexivity.
  rewrite broadcast_same by (rewrite !length_zip_with; lia).
  erewrite bind_ok by reflexivity.
  reflexivity.
Qed.

Lemma initial_chrom_lookup (I : Individual) (seeds : list Q) (i : nat) (l u s : Q) :
  _lbound I !! i = Some l -> _ubound I !! i = Some u -> seeds !! i = Some s ->
  initial_chrom I seeds !! i = Some (l + (u - l) * s).
Proof.
  intros Hl Hu Hs. unfold initial_chrom.
  rewrite !lookup_zip_with, Hl, Hu, Hs. reflexivity.
Qed.

Lemma seeds_of_lookup (w : World) (n i : nat) :
  (i < n)%nat -> seeds_of w n !! i = Some (np.uniform (rng w (clock w + i))).
Proof.
  intros Hi. unfold seeds_of. rewrite map_lookup, lookup_seq_lt by exact Hi.
  reflexivity.
Qed.

Lemma initial_chrom_within (w : World) (I : Individual) :
  shaped I -> Forall2 Qle (_lbound I) (_ubound I) ->
  within I (initial_chrom I (seeds_of w (_dim I))).
Proof.
  intros [Hlo Hhi] Hbox. split.
  - unfold initial_chrom, seeds_of.
    rewrite !length_zip_with, length_map, length_seq. lia.
  - intros i l c u Hl Hc Hu.
    assert (Hi : (i < _dim I)%nat) by (rewrite <- Hlo; eapply lookup_lt_Some; eauto).
    rewrite (initial_chrom_lookup I _ i l u _ Hl Hu (seeds_of_lookup w _ i Hi)) in Hc.
    inversion Hc; subst c; clear Hc.
    pose proof (uniform_range (rng w (clock w + i))) as [Hs0 Hs1].
    assert (Hlu : l <= u) by (eapply Forall2_lookup_lr; eauto).
    set (s := np.uniform _) in *. nra.
Qed.

Lemma index_ok (n : nat) (pos : Z) (i : nat) : np.index n pos = Ok i -> (i < n)%nat.
Proof.
  unfold np.index.
  destruct ((0 <=? pos)%Z && (pos <? Z.of_nat n)%Z) eqn:E1.
  - intros H; inversion H; subst. apply andb_true_iff in E1 as [H1 H2]. lia.
  - destruct ((- Z.of_nat n <=? pos)%Z && (pos <? 0)%Z) eqn:E2; [|discriminate].
    intros H; inversion H; subst. apply andb_true_iff in E2 as [H1 H2]. lia.
Qed.

Lemma index_raise (n : nat) (pos : Z) (e : exn) : np.index n pos = Raise e -> e = IndexError.
Proof.
  unfold np.index.
  destruct ((0 <=? pos)%Z && (pos <? Z.of_nat n)%Z); [discriminate|].
  destruct ((- Z.of_nat n <=? pos)%Z && (pos <? 0)%Z); [discriminate|].
  intros H; inversion H; reflexivity.
Qed.

Lemma creep_within (u c l h alpha : Q) :
  0 <= alpha <= 1 -> l <= c <= h -> l <= creep u c l h alpha <= h.
Proof.
  intros Ha Hc. unfold creep. destruct (negb _); nra.
Qed.

Lemma Individual_mutate_at_ok (w : World) (self : ref) (pos : Z) (alpha : Q) (i : nat) :
  shaped (heap w self) -> length (_chrom (heap w self)) = _dim (heap w self) ->
  np.index (_dim (heap w self)) pos = Ok i ->
  exists c l h,
    _chrom (heap w self) !! i = Some c
    /\ _lbound (heap w self) !! i = Some l
    /\ _ubound (heap w self) !! i = Some h
    /\ Individual_mutate_at self pos alpha w =
       (Ok tt,
        set_heap (<[self := with_chrom (heap w self)
                     (<[i := creep (np.uniform (rng w (clock w))) c l h alpha]>
                        (_chrom (heap w self)))]> (heap w))
                 (tick 1 w)).
Proof.
  intros [Hlo Hhi] Hch Hidx.
  pose proof (index_ok _ _ _ Hidx) as Hi.
  destruct (lookup_lt_is_Some_2 (_chrom (heap w self)) i ltac:(lia)) as [c Hc].
  destruct (lookup_lt_is_Some_2 (_lbound (heap w self)) i ltac:(lia)) as [l Hl].
  destruct (lookup_lt_is_Some_2 (_ubound (heap w self)) i ltac:(lia)) as [h Hh].
  exists c, l, h. repeat split; try assumption.
  unfold Individual_mutate_at.
  erewrite bind_ok by reflexivity.
  erewrite bind_ok by reflexivity.
  cbn [heap tick].
  assert (Hgc : np.getitem (_chrom (heap w self)) pos = Ok c).
  { unfold np.getitem. rewrite Hch, Hidx. simpl. rewrite Hc. reflexivity. }
  assert (Hgl : np.getitem (_lbound (heap w self)) pos = Ok l).
  { unfold np.getitem. rewrite Hlo, Hidx. simpl. rewrite Hl. reflexivity. }
  assert (Hgh : np.getitem (_ubound (heap w self)) pos = Ok h).
  { unfold np.getitem. rewrite Hhi, Hidx. simpl. rewrite Hh. reflexivity. }
  assert (Hset : forall v, np.setitem (_chrom (heap w self)) pos v
                           = Ok (<[i := v]> (_chrom (heap w self)))).
  { intros v. unfold np.setitem. rewrite Hch, Hidx. reflexivity. }
  rewrite Hgc. erewrite bind_ok by reflexivity.
  unfold creep. cbn [clock rng tick].
  destruct (negb (Qle_bool (1 # 2) (np.uniform (rng w (clock w))))).
  - rewrite Hgl. erewrite bind_ok by reflexivity.
    rewrite Hset. erewrite bind_ok by reflexivity. reflexivity.
  - rewrite Hgh. erewrite bind_ok by reflexivity.
    rewrite Hset. erewrite bind_ok by reflexivity. reflexivity.
Qed.

Lemma Individual_mutate_at_err (w : World) (self : ref) (pos : Z) (alpha : Q) (e : exn) :
  length (_chrom (heap w self)) = _dim (heap w self) ->
  np.index (_dim (heap w self)) pos = Raise e ->
  Individual_mutate_at self pos alpha w = (Raise IndexError, tick 1 w).
Proof.
  intros Hch Hidx. rewrite (index_raise _ _ _ Hidx) in Hidx.
  unfold Individual_mutate_at.
  erewrite bind_ok by reflexivity.
  erewrite bind_ok by reflexivity.
  cbn [heap tick].
  erewrite bind_raise; [reflexivity|].
  unfold np.getitem. rewrite Hch, Hidx. reflexivity.
Qed.

Lemma within_insert (I : Individual) (x : list Q) (i : nat) (v l h : Q) :
  within I x -> _lbound I !! i = Some l -> _ubound I !! i = Some h ->
  l <= v <= h -> within I (<[i := v]> x).
Proof.
  intros [Hlen Hall] Hl Hh Hv. split; [rewrite length_insert; exact Hlen|].
  intros j l' c' u' Hl' Hc' Hu'.
  destruct (Nat.eq_dec i j) as [->|Hne].
  - destruct (lt_dec j (length x)) as [Hj|Hj].
    + rewrite list_lookup_insert_eq in Hc' by exact Hj.
      inversion Hc'; subst. rewrite Hl in Hl'. rewrite Hh in Hu'.
      inversion Hl'; inversion Hu'; subst. exact Hv.
    + rewrite list_insert_ge in Hc' by lia.
      apply lookup_lt_Some in Hc'. contradiction.
  - rewrite list_lookup_insert_ne in Hc' by exact Hne. eapply Hall; eauto.
Qed.

Lemma Individual_mutate_at_preserves (w w' : World) (self : ref) (pos : Z)
  (alpha : Q) (o : outcome unit) :
  0 <= alpha <= 1 ->
  shaped (heap w self) -> in_bounds (heap w self) ->
  Individual_mutate_at self pos alpha w = (o, w') ->
  same_frame (heap w self) (heap w' self) /\ in_bounds (heap w' self).
Proof.
  intros Ha Hsh Hin Hrun.
  destruct (np.index (_dim (heap w self)) pos) as [i|e] eqn:Hidx.
  - destruct (Individual_mutate_at_ok w self pos alpha i Hsh (proj1 Hin) Hidx)
      as (c & l & h & Hc & Hl & Hh & Hrun').
    rewrite Hrun' in Hrun. inversion Hrun; subst; clear Hrun.
    cbn [heap set_heap]. rewrite fn_lookup_insert.
    split; [repeat split|].
    unfold in_bounds. cbn [_chrom with_chrom].
    apply (within_insert (heap w self) _ i _ l h Hin Hl Hh).
    apply creep_within; [exact Ha|]. destruct Hin as [_ Hall]. eapply Hall; eauto.
  - rewrite (Individual_mutate_at_err w self pos alpha e (proj1 Hin) Hidx) in Hrun.
    inversion Hrun; subst. cbn [heap tick]. split; [repeat split|exact Hin].
Qed.

Lemma same_frame_shaped (I I' : Individual) : same_frame I I' -> shaped I -> shaped I'.
Proof. intros (Hd & Hl & Hu) [H1 H2]. unfold shaped. rewrite Hd, Hl, Hu. auto. Qed.

Lemma same_frame_trans (I1 I2 I3 : Individual) :
  same_frame I1 I2 -> same_frame I2 I3 -> same_frame I1 I3.
Proof. unfold same_frame. intros (?&?&?) (?&?&?). repeat split; congruence. Qed.

Lemma Individual_mutate_preserves (self : ref) (positions : list Z) (alpha : Q) :
  0 <= alpha <= 1 ->
  forall (w w' : World) (o : outcome unit),
    shaped (heap w self) -> in_bounds (heap w self) ->
    Individual_mutate self positions alpha w = (o, w') ->
    same_frame (heap w self) (heap w' self) /\ in_bounds (heap w' self).
Proof.
  intros Ha. unfold Individual_mutate.
  induction positions as [|pos positions IH]; intros w w' o Hsh Hin Hrun.
  - inversion Hrun; subst. split; [repeat split|exact Hin].
  - cbn [for_each] in Hrun. apply bind_inv in Hrun as [(u & w1 & H1 & H2)|(e & H1 & _)].
    + destruct (Individual_mutate_at_preserves _ _ _ _ _ _ Ha Hsh Hin H1) as [Hf1 Hin1].
      destruct (IH w1 w' o (same_frame_shaped _ _ Hf1 Hsh) Hin1 H2) as [Hf2 Hin2].
      split; [eapply same_frame_trans; eauto|exact Hin2].
    + eapply Individual_mutate_at_preserves; eauto.
Qed.

End IndividualBounds.

(** ** C2 and C10: [cross_individuals] *)

Section Cross.
Local Open Scope Q_scope.

Lemma cross_value_length (x y : list Q) (pos : list bool) (k1 k2 : Q) (D : nat) :
  length x = D -> length y = D -> length pos = D ->
  length (cross_value x y pos k1 k2) = D.
Proof.
  intros Hx Hy Hp. unfold cross_value, np.scale.
  rewrite length_zip_with, !length_map, !length_zip_with. lia.
Qed.

Lemma cross_value_lookup (x y : list Q) (pos : list bool) (k1 k2 : Q)
  (i : nat) (a b : Q) (m : bool) :
  x !! i = Some a -> y !! i = Some b -> pos !! i = Some m ->
  cross_value x y pos k1 k2 !! i
  = Some (a * np.of_bool m * k1 + b * np.of_bool m * k2).
Proof.
  intros Hx Hy Hp. unfold cross_value, np.scale.
  rewrite lookup_zip_with, !map_lookup, !lookup_zip_with, Hx, Hy, Hp.
  reflexivity.
Qed.

Lemma mask_of_length (w : World) (D : nat) : length (mask_of w D) = D.
Proof. unfold mask_of, seeds_of. rewrite !length_map, length_seq. reflexivity. Qed.


Lemma cross_individuals_run (w : World) (ra rb : ref) (alpha : Q) (D : nat) :
  let a := heap w ra in
  let b := heap w rb in
  let pos := mask_of w D in
  let va := cross_value (_chrom a) (_chrom b) pos alpha (1 - alpha) in
  let vb := cross_value (_chrom a) (_chrom b) pos (1 - alpha) alpha in
  parents a b D ->
  exists w',
    cross_individuals ra rb alpha w
    = (if withinb (_lbound a) va (_ubound a) && withinb (_lbound b) vb (_ubound b)
       then Ok (next w, S (next w)) else Raise AssertionError, w')
    /\ pop w' = pop w /\ rng w' = rng w /\ clock w' = (clock w + D)%nat
    /\ next w' = S (S (next w))
    /\ (forall r, (r < next w)%nat -> heap w' r = heap w r)
    /\ (withinb (_lbound a) va (_ubound a) && withinb (_lbound b) vb (_ubound b) = true ->
        heap w' (next w) = with_chrom a va /\ heap w' (S (next w)) = with_chrom b vb).
Proof.
  intros a b pos va vb (Hda & Hdb & Hsa & Hsb & Hca & Hcb).
  unfold cross_individuals.
  erewrite bind_ok by reflexivity. fold a.
  erewrite bind_ok by reflexivity. fold b.
  erewrite bind_ok by reflexivity.
  rewrite Hda. fold (seeds_of w D). fold (mask_of w D). fold pos.
  pose proof (mask_of_length w D) as Hp. fold pos in Hp.
  unfold np.mul_mask, np.add.
  rewrite !broadcast_same by congruence.
  erewrite bind_ok by reflexivity.
  erewrite bind_ok by reflexivity.
  rewrite broadcast_same by (unfold np.scale; rewrite !length_map, !length_zip_with; lia).
  erewrite bind_ok by reflexivity.
  erewrite bind_ok by reflexivity.
  erewrite bind_ok by reflexivity.
  rewrite broadcast_same by (unfold np.scale; rewrite !length_map, !length_zip_with; lia).
  erewrite bind_ok by reflexivity.
  fold (cross_value (_chrom a) (_chrom b) pos alpha (1 - alpha)). fold va.
  fold (cross_value (_chrom a) (_chrom b) pos (1 - alpha) alpha). fold vb.
  erewrite bind_ok by reflexivity.
  erewrite bind_ok by reflexivity.
  cbn [rng clock junk heap next pop tick].
  set (Ia := mkIndividual D (_lbound a) (_ubound a) (map (junk w) (seq 0 D))).
  set (Ib := mkIndividual (_dim b) (_lbound b) (_ubound b) _).
  set (w2 := mkWorld _ _ _ _ _ _).
  assert (Hne : next w <> S (next w)) by lia.
  assert (H2a : heap w2 (next w) = Ia).
  { unfold w2. cbn [heap]. rewrite fn_lookup_insert_ne by lia. apply fn_lookup_insert. }
  assert (Hlen_a : length va = D) by (apply cross_value_length; assumption).
  assert (Hlen_b : length vb = D) by (apply cross_value_length; assumption).
  assert (Hsh2a : shaped (heap w2 (next w))) by (rewrite H2a; destruct Hsa; split; cbn; congruence).
  pose proof (Individual_set_chrom_run w2 (next w) va Hsh2a) as Hset_a.
  rewrite H2a in Hset_a. cbn [_dim _lbound _ubound Ia] in Hset_a.
  rewrite Hlen_a, Nat.eqb_refl, andb_true_l in Hset_a.
  destruct (withinb (_lbound a) va (_ubound a)) eqn:Ea.
  - erewrite bind_ok by exact Hset_a.
    set (w3 := set_heap _ w2) in *.
    assert (H3b : heap w3 (S (next w)) = Ib).
    { unfold w3, w2. cbn [heap set_heap]. rewrite fn_lookup_insert_ne by lia.
      apply fn_lookup_insert. }
    assert (Hsh3b : shaped (heap w3 (S (next w)))) by (rewrite H3b; exact Hsb).
    pose proof (Individual_set_chrom_run w3 (S (next w)) vb Hsh3b) as Hset_b.
    rewrite H3b in Hset_b. cbn [_dim _lbound _ubound Ib] in Hset_b.
    rewrite Hdb, Hlen_b, Nat.eqb_refl, !andb_true_l in Hset_b.
    rewrite !andb_true_l.
    destruct (withinb (_lbound b) vb (_ubound b)) eqn:Eb.
    + erewrite bind_ok by exact Hset_b.
      eexists. split; [reflexivity|].
      unfold w3, w2. cbn [rng clock junk heap next pop set_heap].
      repeat split.
      * intros r Hr. rewrite !fn_lookup_insert_ne by lia. reflexivity.
      * rewrite fn_lookup_insert_ne by lia. rewrite fn_lookup_insert.
        unfold Ia, with_chrom. cbn. rewrite Hda. destruct a; reflexivity.
      * rewrite fn_lookup_insert. unfold Ib, with_chrom. cbn. destruct b; reflexivity.
    + erewrite bind_raise by exact Hset_b.
      eexists. split; [reflexivity|].
      unfold w3, w2. cbn [rng clock junk heap next pop set_heap].
      repeat split; try discriminate.
      intros r Hr. rewrite !fn_lookup_insert_ne by lia. reflexivity.
  - erewrite bind_raise by exact Hset_a.
    eexists. split; [reflexivity|].
    unfold w2. cbn [rng clock junk heap next pop set_heap].
    repeat split; try discriminate.
    intros r Hr. rewrite !fn_lookup_insert_ne by lia. reflexivity.
Qed.

Lemma cross_gene (a b k1 k2 : Q) (m : bool) :
  a * np.of_bool m * k1 + b * np.of_bool m * k2
  == if m then k1 * a + k2 * b else 0.
Proof. destruct m; unfold np.of_bool; ring. Qed.

(** The genes of the two blended vectors: the blend where the mask is
    true, exactly 0 where it is false. *)
Lemma cross_value_genes (x y : list Q) (pos : list bool) (alpha : Q)
  (i : nat) (a b : Q) (m : bool) :
  x !! i = Some a -> y !! i = Some b -> pos !! i = Some m ->
  exists ga gb,
    cross_value x y pos alpha (1 - alpha) !! i = Some ga
    /\ cross_value x y pos (1 - alpha) alpha !! i = Some gb
    /\ (m = true -> ga == alpha * a + (1 - alpha) * b
                    /\ gb == (1 - alpha) * a + alpha * b)
    /\ (m = false -> ga == 0 /\ gb == 0).
Proof.
  intros Hx Hy Hp. eexists. eexists.
  split; [apply cross_value_lookup; eassumption|].
  split; [apply cross_value_lookup; eassumption|].
  split; intros ->; split; rewrite cross_gene; reflexivity.
Qed.

(** A blended vector that passes the setter's test has bounds around 0 at
    every gene where the mask is false. *)
Lemma masked_gene_needs_zero (I : Individual) (x y : list Q) (pos : list bool)
  (k1 k2 : Q) (i : nat) (l u : Q) :
  length x = _dim I -> length y = _dim I -> length pos = _dim I ->
  within I (cross_value x y pos k1 k2) ->
  pos !! i = Some false ->
  _lbound I !! i = Some l -> _ubound I !! i = Some u ->
  l <= 0 <= u.
Proof.
  intros Hx Hy Hpos [Hlen Hall] Hp Hl Hu.
  assert (Hi : (i < _dim I)%nat).
  { rewrite <- Hpos. eapply lookup_lt_Some. exact Hp. }
  destruct (lookup_lt_is_Some_2 x i ltac:(lia)) as [a Ha].
  destruct (lookup_lt_is_Some_2 y i ltac:(lia)) as [b Hb].
  pose proof (cross_value_lookup x y pos k1 k2 i a b false Ha Hb Hp) as Hv.
  specialize (Hall i l _ u Hl Hv Hu).
  rewrite cross_gene in Hall. exact Hall.
Qed.





(** C10: for every pair of parents of dimension [D], a mask that is false
    at a gene where the bounds of either parent keep 0 out makes
    [cross_individuals] raise [AssertionError]; and whenever
    [cross_individuals] returns children, the bounds of both parents contain
    0 at every mask-false gene. *)
Theorem C10_cross_needs_zero (w : World) (ra rb : ref) (alpha : Q) (D : nat) :
  let a := heap w ra in
  let b := heap w rb in
  let pos := mask_of w D in
  parents a b D ->
  (forall i la ua lb ub,
     pos !! i = Some false ->
     _lbound a !! i = Some la -> _ubound a !! i = Some ua ->
     _lbound b !! i = Some lb -> _ubound b !! i = Some ub ->
     (0 < la \/ ua < 0 \/ 0 < lb \/ ub < 0) ->
     exists w', cross_individuals ra rb alpha w = (Raise AssertionError, w'))
  /\ (forall r1 r2 w',
        cross_individuals ra rb alpha w = (Ok (r1, r2), w') ->
        forall i la ua lb ub,
          pos !! i = Some false ->
          _lbound a !! i = Some la -> _ubound a !! i = Some ua ->
          _lbound b !! i = Some lb -> _ubound b !! i = Some ub ->
          (la <= 0 <= ua) /\ (lb <= 0 <= ub)).
Proof.
  intros a b pos Hp.
  destruct (cross_individuals_run w ra rb alpha D Hp) as (w' & Hrun & _).
  fold a b pos in Hrun.
  pose proof Hp as (Hda & Hdb & Hsa & Hsb & Hca & Hcb).
  pose proof (mask_of_length w D) as Hlen. fold pos in Hlen.
  assert (Hzero : withinb (_lbound a)
                    (cross_value (_chrom a) (_chrom b) pos alpha (1 - alpha)) (_ubound a)
                  && withinb (_lbound b)
                    (cross_value (_chrom a) (_chrom b) pos (1 - alpha) alpha) (_ubound b)
                  = true ->
                  forall i la ua lb ub,
                    pos !! i = Some false ->
                    _lbound a !! i = Some la -> _ubound a !! i = Some ua ->
                    _lbound b !! i = Some lb -> _ubound b !! i = Some ub ->
                    (la <= 0 <= ua) /\ (lb <= 0 <= ub)).
  { intros E i la ua lb ub Hm Hla Hua Hlb Hub.
    apply andb_true_iff in E as [Ea Eb].
    apply (withinb_spec a _ Hsa) in Ea. apply (withinb_spec b _ Hsb) in Eb.
    split.
    - eapply (masked_gene_needs_zero a); try eassumption; congruence.
    - eapply (masked_gene_needs_zero b); try eassumption; congruence. }
  split.
  - intros i la ua lb ub Hm Hla Hua Hlb Hub Hout.
    exists w'. rewrite Hrun.
    destruct (withinb _ _ _ && withinb _ _ _) eqn:E; [|reflexivity].
    exfalso. destruct (Hzero eq_refl i la ua lb ub Hm Hla Hua Hlb Hub) as [H1 H2].
    lra.
  - intros r1 r2 w'' Hrun'. rewrite Hrun in Hrun'.
    destruct (withinb _ _ _ && withinb _ _ _) eqn:E; [|discriminate].
    apply Hzero. reflexivity.
Qed.

Lemma C10_cross_needs_zero_witness :
  let w := world_of (fun _ => 9007199254740991%N)
             [sample_individual [1; -1] [2; 1] [1; 0];
              sample_individual [1; -1] [2; 1] [2; 1]]
             np.sum 2 None in
  parents (heap w O) (heap w 1%nat) 2
  /\ mask_of w 2 !! O = Some false
  /\ exists w', cross_individuals O 1%nat (1#2) w = (Raise AssertionError, w').
Proof.
  intros w.
  assert (Hp : parents (heap w O) (heap w 1%nat) 2) by (repeat split).
  split; [exact Hp|]. split; [reflexivity|].
  destruct (C10_cross_needs_zero w O 1%nat (1#2) 2 Hp) as [Hfail _].
  apply (Hfail O 1 2 1 2); try reflexivity.
  left. reflexivity.
Defined.

End Cross.

(** ** What a command leaves alone *)

Section Frames.

Lemma frame_refl (n : nat) (w : World) : frame n w w.
Proof. repeat split; auto. Qed.

Lemma frame_trans (n : nat) (w1 w2 w3 : World) :
  frame n w1 w2 -> frame n w2 w3 -> frame n w1 w3.
Proof.
  intros (P1 & N1 & G1 & H1) (P2 & N2 & G2 & H2).
  repeat split; try congruence; try lia.
  intros r Hr. rewrite H2, H1; auto.
Qed.

Lemma local_bind {A B} (n : nat) (m : M A) (k : A -> M B)
  (R : A -> Prop) (R' : B -> Prop) :
  local n m R -> (forall a, R a -> local n (k a) R') -> local n (bind m k) R'.
Proof.
  intros Hm Hk w o w' Hn Hrun.
  apply bind_inv in Hrun as [(a & w1 & H1 & H2)|(e & H1 & ->)].
  - destruct (Hm _ _ _ Hn H1) as [F1 Ra].
    assert (Hn1 : n <= next w1) by (destruct F1 as (_ & ? & _); lia).
    destruct (Hk a (Ra a eq_refl) _ _ _ Hn1 H2) as [F2 Rb].
    split; [eapply frame_trans; eauto|exact Rb].
  - destruct (Hm _ _ _ Hn H1) as [F1 _]. split; [exact F1|discriminate].
Qed.

Lemma local_weaken {A} (n : nat) (m : M A) (R R' : A -> Prop) :
  local n m R -> (forall a, R a -> R' a) -> local n m R'.
Proof.
  intros Hm HR w o w' Hn Hrun. destruct (Hm _ _ _ Hn Hrun) as [F Ra].
  split; [exact F|]. intros a Ho. apply HR, Ra, Ho.
Qed.

Lemma local_ret {A} (n : nat) (a : A) (R : A -> Prop) : R a -> local n (ret a) R.
Proof.
  intros Ra w o w' _ H. inversion H; subst.
  split; [apply frame_refl|]. intros a' E. inversion E; subst. exact Ra.
Qed.

Lemma local_raise {A} (n : nat) (e : exn) (R : A -> Prop) : local n (raise e) R.
Proof.
  intros w o w' _ H. inversion H; subst. split; [apply frame_refl|discriminate].
Qed.

Lemma local_lift {A} (n : nat) (o : outcome A) : local n (lift o) any.
Proof.
  intros w o' w' _ H. inversion H; subst. split; [apply frame_refl|]. intros; exact I.
Qed.

Lemma local_load (n : nat) (r : ref) : local n (load r) any.
Proof.
  intros w o w' _ H. inversion H; subst. split; [apply frame_refl|]. intros; exact I.
Qed.

Lemma local_store (n : nat) (r : ref) (I : Individual) :
  n <= r -> local n (store r I) any.
Proof.
  intros Hr w o w' _ H. inversion H; subst. split; [|intros; exact Logic.I].
  repeat split; auto. intros r' Hr'. cbn [heap set_heap].
  apply fn_lookup_insert_ne. lia.
Qed.

Lemma local_alloc (n : nat) (I : Individual) : local n (alloc I) (fun r => n <= r).
Proof.
  intros w o w' Hn H. inversion H; subst. split.
  - repeat split; cbn; auto. intros r' Hr'. apply fn_lookup_insert_ne. lia.
  - intros a E. inversion E; subst. exact Hn.
Qed.

Lemma local_tick {A} (n : nat) (f : World -> A) (k : nat) :
  local n (fun w => (Ok (f w), tick k w)) any.
Proof.
  intros w o w' _ H. inversion H; subst. split; [|intros; exact I].
  repeat split; cbn; auto.
Qed.

Lemma local_rand (n : nat) : local n np_random_rand any.
Proof. apply (local_tick n (fun w => np.uniform (rng w (clock w))) 1). Qed.

Lemma local_rand_n (n k : nat) : local n (np_random_rand_n k) any.
Proof.
  apply (local_tick n (fun w => map (fun j => np.uniform (rng w (clock w + j))) (seq 0 k)) k).
Qed.

Lemma local_randint (n k : nat) : local n (np_random_randint k) any.
Proof.
  destruct k; [apply local_raise|].
  apply (local_tick n (fun w => N.to_nat (rng w (clock w) mod N.of_nat (S k))%N) 1).
Qed.

Lemma local_for_each {A} (n : nat) (l : list A) (body : A -> M unit) :
  (forall x, In x l -> local n (body x) any) -> local n (for_each l body) any.
Proof.
  induction l as [|x l IH]; intros H; cbn [for_each].
  - apply local_ret. exact I.
  - eapply local_bind; [apply H; left; reflexivity|].
    intros _ _. apply IH. intros y Hy. apply H. right. exact Hy.
Qed.

Lemma local_list_comp {A B} (n : nat) (l : list A) (f : A -> M B) (R : B -> Prop) :
  (forall x, local n (f x) R) -> local n (list_comp l f) (Forall R).
Proof.
  intros H. induction l as [|x l IH]; cbn [list_comp].
  - apply local_ret. constructor.
  - eapply local_bind; [apply H|]. intros y Ry.
    eapply local_bind; [apply IH|]. intros ys Rys.
    apply local_ret. constructor; assumption.
Qed.

Lemma local_assert (n : nat) (c : bool) : local n (assert_ c) any.
Proof. destruct c; [apply local_ret; exact I|apply local_raise]. Qed.

Lemma local_np_empty (n d : nat) : local n (np_empty d) any.
Proof.
  intros w o w' _ H. inversion H; subst. split; [apply frame_refl|]. intros; exact I.
Qed.

Lemma local_self_individuals (n : nat) : local n self_individuals any.
Proof.
  intros w o w' _ H. rewrite self_individuals_run in H.
  destruct (_individuals (pop w)); inversion H; subst;
    (split; [apply frame_refl|intros; exact I]).
Qed.

Lemma local_individuals_as_array (n : nat) : local n individuals_as_array any.
Proof.
  intros w o w' _ H. rewrite individuals_as_array_run in H.
  destruct (_individuals (pop w)); inversion H; subst;
    (split; [apply frame_refl|intros; exact I]).
Qed.

Lemma local_get_self (n : nat) : local n get_self any.
Proof.
  intros w o w' _ H. inversion H; subst. split; [apply frame_refl|]. intros; exact I.
Qed.

Lemma local_list_getitem {A} (n : nat) (l : list A) (k : nat) :
  local n (list_getitem l k) any.
Proof.
  unfold list_getitem. destruct (l !! k); [apply local_ret; exact I|apply local_raise].
Qed.

End Frames.

Create HintDb local discriminated.
#[export] Hint Resolve local_lift local_load local_alloc local_rand local_rand_n
  local_randint local_assert local_np_empty local_self_individuals
  local_get_self local_list_getitem local_raise : local.
#[export] Hint Resolve local_store : local.
#[export] Hint Unfold any : local.

(** Walks through a command, one [bind] at a time. *)
Ltac local_tac :=
  cbv beta zeta;
  lazymatch goal with
  | |- local _ (bind _ _) _ =>
      first [ eapply local_bind; [solve [eauto with local]|intros ? ?; local_tac]
            | eapply (local_bind _ _ _ any); [solve [local_tac]|intros ? ?; local_tac] ]
  | |- local _ (ret _) _ => apply local_ret; cbn; auto with local
  | |- local _ (if ?c then _ else _) _ => destruct c; local_tac
  | |- local _ (match ?x with _ => _ end) _ => destruct x; local_tac
  | |- local _ _ _ => solve [eauto with local]
  end.

Section Frames2.

Lemma local_Individual__init__ (n d : nat) (lo hi : list Q) :
  local n (Individual__init__ d lo hi) (fun r => n <= r).
Proof. unfold Individual__init__. local_tac. Qed.

Lemma local_Individual_set_chrom (n : nat) (self : ref) (x : list Q) :
  n <= self -> local n (Individual_set_chrom self x) any.
Proof. intros H. unfold Individual_set_chrom. local_tac. Qed.

Lemma local_cross_individuals (n : nat) (ra rb : ref) (alpha : Q) :
  local n (cross_individuals ra rb alpha) (fun p => n <= fst p /\ n <= snd p).
Proof.
  pose proof local_Individual__init__. pose proof local_Individual_set_chrom.
  unfold cross_individuals. local_tac.
Qed.

Lemma local_crossover_loop (n : nat) (pairs : list (ref * ref)) (rate alpha : Q)
  (acc : list ref) : local n (crossover_loop pairs rate alpha acc) any.
Proof.
  pose proof local_cross_individuals.
  revert acc. induction pairs as [|[ra rb] pairs IH]; intros acc; cbn [crossover_loop].
  - local_tac.
  - local_tac.
Qed.

Lemma local_shuffle {A} (n i : nat) (l : list A) : local n (shuffle i l) any.
Proof.
  revert l. induction i as [|i IH]; intros l; cbn [shuffle]; local_tac.
Qed.

Lemma local_permutation {A} (n : nat) (l : list A) : local n (np_random_permutation l) any.
Proof. apply local_shuffle. Qed.

Lemma local_choice {A} (n : nat) (a : list A) (size : nat) :
  local n (np_random_choice a size) any.
Proof.
  pose proof (@local_permutation A). unfold np_random_choice. local_tac.
Qed.

Lemma local_Individual_mutate_at (self : ref) (pos : Z) (alpha : Q) :
  local 0 (Individual_mutate_at self pos alpha) any.
Proof.
  assert (forall r I, local 0 (store r I) any) by (intros; apply local_store; lia).
  unfold Individual_mutate_at. local_tac.
Qed.

Lemma local_Individual_mutate (self : ref) (positions : list Z) (alpha : Q) :
  local 0 (Individual_mutate self positions alpha) any.
Proof.
  unfold Individual_mutate. apply local_for_each.
  intros pos _. apply local_Individual_mutate_at.
Qed.

Lemma local_mutate_one (num : nat) (rate alpha : Q) (individual : ref) :
  local 0 (mutate_one num rate alpha individual) any.
Proof.
  pose proof (@local_choice nat). pose proof local_Individual_mutate.
  unfold mutate_one. local_tac.
Qed.

Lemma local_select_one (n : nat) (probabilities : list np.np_float) :
  local n (select_one probabilities) any.
Proof. unfold select_one. local_tac. Qed.

Lemma bind_local_inv {A B} (n : nat) (m : M A) (k : A -> M B) (R : A -> Prop)
  (w w' : World) (o : outcome B) :
  local n m R -> n <= next w -> bind m k w = (o, w') ->
  (exists a w1, m w = (Ok a, w1) /\ frame n w w1 /\ R a /\ k a w1 = (o, w'))
  \/ (exists e, o = Raise e /\ frame n w w').
Proof.
  intros Hm Hn Hrun.
  apply bind_inv in Hrun as [(a & w1 & H1 & H2)|(e & H1 & ->)].
  - destruct (Hm _ _ _ Hn H1) as [F Ra]. left. exists a, w1. auto.
  - destruct (Hm _ _ _ Hn H1) as [F _]. right. eauto.
Qed.

(** *** Lengths *)

Lemma swap_length {A} (l : list A) (i j : nat) : length (swap l i j) = length l.
Proof.
  unfold swap. destruct (l !! i), (l !! j); try reflexivity.
  rewrite !length_insert. reflexivity.
Qed.

Lemma shuffle_length {A} (i : nat) :
  forall (l p : list A) (w w' : World),
    shuffle i l w = (Ok p, w') -> length p = length l.
Proof.
  induction i as [|i IH]; intros l p w w' H; cbn [shuffle] in H.
  - inversion H; subst. reflexivity.
  - apply bind_inv in H as [(j & w1 & _ & H2)|(e & _ & He)]; [|discriminate].
    apply IH in H2. rewrite H2. apply swap_length.
Qed.

Lemma choice_length {A} (a c : list A) (size : nat) (w w' : World) :
  np_random_choice a size w = (Ok c, w') -> length c = size.
Proof.
  unfold np_random_choice. destruct (size <=? length a) eqn:E; [|discriminate].
  apply Nat.leb_le in E. intros H.
  apply bind_inv in H as [(p & w1 & H1 & H2)|(e & _ & He)]; [|discriminate].
  inversion H2; subst. apply shuffle_length in H1.
  rewrite length_take. lia.
Qed.

Lemma list_comp_length {A B} (l : list A) (f : A -> M B) :
  forall (ys : list B) (w w' : World),
    list_comp l f w = (Ok ys, w') -> length ys = length l.
Proof.
  induction l as [|x l IH]; intros ys w w' H; cbn [list_comp] in H.
  - inversion H; subst. reflexivity.
  - apply bind_inv in H as [(y & w1 & _ & H2)|(e & _ & He)]; [|discriminate].
    apply bind_inv in H2 as [(ys' & w2 & H3 & H4)|(e & _ & He)]; [|discriminate].
    inversion H4; subst. simpl. f_equal. eapply IH; eauto.
Qed.

End Frames2.

(** ** C4 and C7: population size and the evaluation cache *)

Section Operators.

Lemma frame_cache_consistent (w w' : World) :
  allocated w -> frame (next w) w w' -> cache_consistent w -> cache_consistent w'.
Proof.
  intros Hal (Hpop & _ & _ & Hheap). unfold cache_consistent. rewrite Hpop.
  destruct (_evaluation (pop w)) as [v|]; [|auto].
  intros (l & Hl & Hv). exists l. split; [exact Hl|]. rewrite Hv.
  apply map_ext_in. intros r Hr. rewrite Hheap; [reflexivity|].
  specialize (Hal l Hl). rewrite Forall_forall in Hal. apply Hal. exact Hr.
Qed.

Lemma frame_holds (n N : nat) (w w' : World) : frame n w w' -> holds N w -> holds N w'.
Proof. intros (Hpop & _) H. unfold holds. rewrite Hpop. exact H. Qed.

(** What reading [evaluation] changes: nothing but the cache, which it
    leaves consistent. *)
Lemma Population_evaluation_effect (w w1 : World) (o : outcome (list Q)) :
  Population_evaluation w = (o, w1) ->
  rng w1 = rng w /\ clock w1 = clock w /\ heap w1 = heap w /\ next w1 = next w
  /\ _individuals (pop w1) = _individuals (pop w)
  /\ _size (pop w1) = _size (pop w)
  /\ _fun_evaluation (pop w1) = _fun_evaluation (pop w)
  /\ (cache_consistent w -> cache_consistent w1)
  /\ (forall e, o = Raise e -> w1 = w).
Proof.
  rewrite Population_evaluation_run. unfold cache_consistent.
  destruct (_evaluation (pop w)) as [v|] eqn:Ev.
  - intros H; inversion H; subst. rewrite Ev. repeat split; auto; discriminate.
  - destruct (_individuals (pop w)) as [l|] eqn:El; intros H; inversion H; subst.
    + cbn. repeat split; auto; try discriminate. intros _. exists l. auto.
    + rewrite Ev. repeat split; auto.
Qed.

Lemma assign_run (l : list ref) (e : option (list Q)) (w : World) :
  (set_individuals l ;;; set_evaluation e) w
  = (Ok tt, set_pop (mkPopulation (_fun_evaluation (pop w)) (_size (pop w)) (Some l) e) w).
Proof. reflexivity. Qed.

Lemma Population_fitness_raise (w w1 : World) (e : exn) :
  Population_evaluation w = (Raise e, w1) -> Population_fitness w = (Raise e, w1).
Proof. intros H. unfold Population_fitness. erewrite bind_raise by exact H. reflexivity. Qed.

(** How [select] can end: normally, with [_size] selected members and no
    cache; or with an exception, the members untouched and the cache still
    consistent. *)
Lemma Population_select_inv (w w' : World) (o : outcome unit) :
  Population_select w = (o, w') ->
  (o = Ok tt
   /\ exists l, length l = _size (pop w)
               /\ pop w' = mkPopulation (_fun_evaluation (pop w)) (_size (pop w)) (Some l) None)
  \/ (exists e, o = Raise e
                /\ _individuals (pop w') = _individuals (pop w)
                /\ _size (pop w') = _size (pop w)
                /\ (forall r, r < next w -> heap w' r = heap w r)
                /\ (allocated w -> cache_consistent w -> cache_consistent w')).
Proof.
  unfold Population_select. intros Hrun.
  destruct (Population_evaluation w) as [[V|e] w1] eqn:Hev.
  - pose proof (Population_evaluation_effect _ _ _ Hev)
      as (_ & _ & Hheap & Hnext & Hind & Hsize & Hfun & Hcons & _).
    rewrite (bind_ok _ _ _ _ _ (Population_fitness_run _ _ _ Hev)) in Hrun.
    rewrite (bind_ok get_self _ w1 w1 (pop w1) eq_refl) in Hrun.
    eapply (bind_local_inv (next w1)) in Hrun;
      [|apply local_list_comp; intros; apply local_select_one|lia].
    destruct Hrun as [(l & w2 & Hl & (Hpop & _) & _ & Hfin)|(e & -> & Hfr)].
    + left. rewrite assign_run in Hfin. inversion Hfin; subst.
      split; [reflexivity|]. exists l. split.
      * apply list_comp_length in Hl. rewrite length_seq in Hl. congruence.
      * cbn. rewrite Hpop. congruence.
    + right. exists e. pose proof Hfr as (Hpop & _ & _ & Hkeep).
      rewrite Hpop. repeat split; try assumption.
      * intros r Hr. rewrite Hkeep by lia. rewrite Hheap. reflexivity.
      * intros Hal Hc. apply (frame_cache_consistent w1 w'); auto.
        intros l Hl. rewrite Hnext. apply Hal. congruence.
  - pose proof (Population_evaluation_effect _ _ _ Hev) as Heff.
    destruct Heff as (_ & _ & _ & _ & _ & _ & _ & _ & Hsame).
    specialize (Hsame e eq_refl). subst w1.
    rewrite (bind_raise _ _ _ _ _ (Population_fitness_raise _ _ _ Hev)) in Hrun.
    inversion Hrun; subst. right. exists e. repeat split; auto.
Qed.

(** How [crossover] can end: normally, with [_size] members and no cache;
    or with an exception, nothing that existed before being touched. *)
Lemma Population_crossover_inv (rate alpha : Q) (w w' : World) (o : outcome unit) :
  Population_crossover rate alpha w = (o, w') ->
  (o = Ok tt
   /\ exists l, length l = _size (pop w)
               /\ pop w' = mkPopulation (_fun_evaluation (pop w)) (_size (pop w)) (Some l) None)
  \/ (exists e, o = Raise e /\ frame (next w) w w').
Proof.
  unfold Population_crossover. intros Hrun.
  eapply (bind_local_inv (next w)) in Hrun; [|apply local_individuals_as_array|lia].
  destruct Hrun as [(l & w1 & _ & F1 & _ & Hrun)|(e & -> & Hfr)]; [|right; eauto].
  assert (N1 : next w <= next w1) by (destruct F1 as (_ & ? & _); lia).
  eapply (bind_local_inv (next w)) in Hrun; [|apply local_permutation|lia].
  destruct Hrun as [(rp & w2 & _ & F2 & _ & Hrun)|(e & -> & Hfr)];
    [|right; exists e; split; [reflexivity|eapply frame_trans; eauto]].
  pose proof (frame_trans _ _ _ _ F1 F2) as F12.
  assert (N2 : next w <= next w2) by (destruct F12 as (_ & ? & _); lia).
  eapply (bind_local_inv (next w)) in Hrun; [|apply local_crossover_loop|lia].
  destruct Hrun as [(new & w3 & _ & F3 & _ & Hrun)|(e & -> & Hfr)];
    [|right; exists e; split; [reflexivity|eapply frame_trans; eauto]].
  pose proof (frame_trans _ _ _ _ F12 F3) as F13.
  assert (N3 : next w <= next w3) by (destruct F13 as (_ & ? & _); lia).
  rewrite (bind_ok get_self _ w3 w3 (pop w3) eq_refl) in Hrun.
  eapply (bind_local_inv (next w)) in Hrun; [|apply local_choice|lia].
  destruct Hrun as [(chosen & w4 & Hch & F4 & _ & Hrun)|(e & -> & Hfr)];
    [|right; exists e; split; [reflexivity|eapply frame_trans; eauto]].
  pose proof (frame_trans _ _ _ _ F13 F4) as (P14 & _).
  destruct F13 as (P13 & _).
  rewrite assign_run in Hrun. inversion Hrun; subst.
  left. split; [reflexivity|]. exists chosen. split.
  - apply choice_length in Hch. congruence.
  - cbn. rewrite P14. reflexivity.
Qed.

(** However [mutate] ends, the cache is gone and the members are the same
    objects. *)
Lemma Population_mutate_inv (num : nat) (rate alpha : Q) (w w' : World)
  (o : outcome unit) :
  Population_mutate num rate alpha w = (o, w') ->
  pop w' = mkPopulation (_fun_evaluation (pop w)) (_size (pop w))
             (_individuals (pop w)) None.
Proof.
  unfold Population_mutate. intros Hrun.
  assert (Hset : set_evaluation None w
                 = (Ok tt, set_pop (mkPopulation (_fun_evaluation (pop w)) (_size (pop w))
                                      (_individuals (pop w)) None) w)) by reflexivity.
  rewrite (bind_ok _ _ _ _ _ Hset) in Hrun.
  set (w0 := set_pop _ w) in *.
  assert (Hloc : local 0 (l <- self_individuals ;; for_each l (mutate_one num rate alpha)) any).
  { eapply local_bind; [apply local_self_individuals|].
    intros l _. apply local_for_each. intros r _. apply local_mutate_one. }
  destruct (Hloc w0 o w' ltac:(lia) Hrun) as [(Hpop & _) _].
  rewrite Hpop. reflexivity.
Qed.

End Operators.

(** ** C8: roulette selection *)

Section Roulette.
Local Open Scope Q_scope.

Lemma cumsum_from_fin (acc : Q) (x : list Q) :
  np.cumsum_from (np.Fin acc) (map np.Fin x) = map np.Fin (qcumsum_from acc x).
Proof.
  revert acc. induction x as [|a x IH]; intros acc; simpl; [reflexivity|].
  rewrite IH. reflexivity.
Qed.

Lemma cumsum_fin (x : list Q) : np.cumsum (map np.Fin x) = map np.Fin (qcumsum x).
Proof. destruct x as [|a x]; simpl; [reflexivity|]. rewrite cumsum_from_fin. reflexivity. Qed.

Lemma roulette_index_fin (cs : list Q) (u : Q) :
  roulette_index (map np.Fin cs) u = count_le u cs.
Proof. unfold roulette_index, count_le. rewrite map_map. reflexivity. Qed.

Lemma qcumsum_from_length (acc : Q) (x : list Q) : length (qcumsum_from acc x) = length x.
Proof. revert acc. induction x; intros; simpl; auto. Qed.

Lemma qcumsum_length (x : list Q) : length (qcumsum x) = length x.
Proof. destruct x; simpl; [reflexivity|]. rewrite qcumsum_from_length. reflexivity. Qed.

(** Entry [j] of the running sums is the sum of the first [j+1] terms. *)
Lemma qcumsum_from_lookup (x : list Q) :
  forall (acc : Q) (j : nat), (j < length x)%nat ->
    exists c, qcumsum_from acc x !! j = Some c /\ c == acc + np.sum (take (S j) x).
Proof.
  induction x as [|a x IH]; intros acc j Hj; simpl in Hj; [lia|].
  destruct j as [|j]; simpl.
  - exists (acc + a). split; [reflexivity|]. try rewrite take_0. unfold np.sum. simpl. lra.
  - destruct (IH (acc + a) j ltac:(lia)) as (c & Hc & Ec).
    exists c. split; [exact Hc|]. rewrite Ec. simpl. unfold np.sum. lra.
Qed.

Lemma qcumsum_lookup (x : list Q) (j : nat) :
  (j < length x)%nat ->
  exists c, qcumsum x !! j = Some c /\ c == np.sum (take (S j) x).
Proof.
  destruct x as [|a x]; simpl; intros Hj; [lia|].
  destruct j as [|j]; simpl.
  - exists a. split; [reflexivity|]. try rewrite take_0. unfold np.sum. simpl. lra.
  - destruct (qcumsum_from_lookup x a j ltac:(lia)) as (c & Hc & Ec).
    exists c. split; [exact Hc|]. rewrite Ec. unfold np.sum. simpl. lra.
Qed.

(** With non-negative terms the running sums never decrease. *)
Lemma qcumsum_from_lower (x : list Q) :
  forall acc, Forall (fun q => 0 <= q) x ->
    forall c, In c (qcumsum_from acc x) -> acc <= c.
Proof.
  induction x as [|a x IH]; intros acc Hx c Hc; simpl in Hc; [tauto|].
  inversion Hx as [|? ? Ha Hx']; subst.
  destruct Hc as [<-|Hc]; [lra|].
  specialize (IH (acc + a) Hx' c Hc). lra.
Qed.

Lemma count_le_cons (u c : Q) (cs : list Q) :
  count_le u (c :: cs) = if Qle_bool c u then S (count_le u cs) else count_le u cs.
Proof. reflexivity. Qed.

(** Once an entry exceeds [u], none after it counts. *)
Lemma count_le_all_above (u : Q) (cs : list Q) :
  (forall c, In c cs -> u < c) -> count_le u cs = O.
Proof.
  induction cs as [|c cs IH]; intros H; [reflexivity|].
  rewrite count_le_cons.
  destruct (Qle_bool c u) eqn:E.
  - apply Qle_bool_iff in E. specialize (H c (or_introl eq_refl)). lra.
  - apply IH. intros c' Hc'. apply H. right. exact Hc'.
Qed.

(** On running sums of non-negative terms, the count of entries that are
    at most [u] is the first index whose entry exceeds [u]. *)
Lemma count_le_first_above (x : list Q) :
  forall acc u, Forall (fun q => 0 <= q) x ->
    let cs := qcumsum_from acc x in
    (forall j c, (j < count_le u cs)%nat -> cs !! j = Some c -> c <= u)
    /\ (forall c, cs !! (count_le u cs) = Some c -> u < c).
Proof.
  induction x as [|a x IH]; intros acc u Hx cs.
  - subst cs. split; intros; unfold count_le in *; simpl in *; [lia|discriminate].
  - inversion Hx as [|? ? Ha Hx']; subst.
    subst cs. cbn [qcumsum_from]. rewrite count_le_cons.
    destruct (Qle_bool (acc + a) u) eqn:E.
    + apply Qle_bool_iff in E. destruct (IH (acc + a) u Hx') as [H1 H2].
      split.
      * intros [|j] c Hj Hc; simpl in Hc.
        -- inversion Hc; subst. exact E.
        -- apply (H1 j c); [lia|exact Hc].
      * intros c Hc. simpl in Hc. apply H2. exact Hc.
    + assert (Hlt : u < acc + a).
      { destruct (Qlt_le_dec u (acc + a)) as [|Hle]; [assumption|].
        apply Qle_bool_iff in Hle. congruence. }
      rewrite count_le_all_above.
      * split; [intros; lia|]. intros c Hc. simpl in Hc. inversion Hc; subst. exact Hlt.
      * intros c Hc. pose proof (qcumsum_from_lower x (acc + a) Hx' c Hc). lra.
Qed.

Lemma roulette_first_above (x : list Q) (u : Q) :
  Forall (fun q => 0 <= q) x ->
  let cs := qcumsum x in
  (forall j c, (j < count_le u cs)%nat -> cs !! j = Some c -> c <= u)
  /\ (forall c, cs !! (count_le u cs) = Some c -> u < c).
Proof.
  intros Hx cs. subst cs. destruct x as [|a x].
  - split; intros; unfold count_le in *; simpl in *; [lia|discriminate].
  - inversion Hx as [|? ? Ha Hx']; subst.
    cbn [qcumsum]. rewrite count_le_cons.
    destruct (Qle_bool a u) eqn:E.
    + apply Qle_bool_iff in E. destruct (count_le_first_above x a u Hx') as [H1 H2].
      split.
      * intros [|j] c Hj Hc; simpl in Hc.
        -- inversion Hc; subst. exact E.
        -- apply (H1 j c); [lia|exact Hc].
      * intros c Hc. simpl in Hc. apply H2. exact Hc.
    + assert (Hlt : u < a).
      { destruct (Qlt_le_dec u a) as [|Hle]; [assumption|].
        apply Qle_bool_iff in Hle. congruence. }
      rewrite count_le_all_above.
      * split; [intros; lia|]. intros c Hc. simpl in Hc. inversion Hc; subst. exact Hlt.
      * intros c Hc. pose proof (qcumsum_from_lower x a Hx' c Hc). lra.
Qed.

Lemma count_le_bound (u : Q) (cs : list Q) : (count_le u cs <= length cs)%nat.
Proof.
  induction cs as [|c cs IH]; [reflexivity|].
  rewrite count_le_cons. simpl. destruct (Qle_bool c u); lia.
Qed.

Lemma count_le_below_length (u : Q) (cs : list Q) (c : Q) :
  In c cs -> u < c -> (count_le u cs < length cs)%nat.
Proof.
  induction cs as [|c' cs IH]; intros Hin Hc; [destruct Hin|].
  rewrite count_le_cons. simpl. destruct Hin as [->|Hin].
  - destruct (Qle_bool c u) eqn:E.
    + apply Qle_bool_iff in E. lra.
    + pose proof (count_le_bound u cs). lia.
  - specialize (IH Hin Hc). destruct (Qle_bool c' u); lia.
Qed.

Lemma fitness_values_nonneg (V : list Q) :
  0 < np.sum (np.rsub (np.sum (np.abs V)) V) ->
  Forall (fun q => 0 <= q) (fitness_values V).
Proof.
  intros HT. unfold fitness_values. apply Forall_forall. intros q Hq.
  apply in_map_iff in Hq as (v & <- & Hv).
  pose proof (entries_le_sum_abs V v Hv).
  apply Qle_shift_div_l; [exact HT|]. lra.
Qed.

Lemma fitness_values_sum (V : list Q) :
  0 < np.sum (np.rsub (np.sum (np.abs V)) V) ->
  np.sum (fitness_values V) == 1.
Proof.
  intros HT. unfold fitness_values. rewrite sum_div by lra. field. lra.
Qed.

(** Every draw falls short of the last running sum, so the index stays
    inside the population. *)
Lemma roulette_index_in_range (V : list Q) (bits : N) :
  0 < np.sum (np.rsub (np.sum (np.abs V)) V) ->
  (count_le (np.uniform bits) (qcumsum (fitness_values V)) < length V)%nat.
Proof.
  intros HT.
  assert (Hlen : length (fitness_values V) = length V)
    by (unfold fitness_values; apply length_map).
  assert (Hne : (0 < length V)%nat).
  { destruct V; [|simpl; lia]. simpl in HT. lra. }
  destruct (qcumsum_lookup (fitness_values V) (length V - 1) ltac:(lia)) as (c & Hc & Ec).
  replace (S (length V - 1)) with (length (fitness_values V)) in Ec by lia.
  rewrite firstn_all, (fitness_values_sum V HT) in Ec.
  rewrite <- (qcumsum_length (fitness_values V)) in Hlen. rewrite <- Hlen.
  apply (count_le_below_length _ _ c).
  - apply list_elem_of_In. eapply list_elem_of_lookup_2. exact Hc.
  - pose proof (uniform_range bits). lra.
Qed.

Lemma tick_tick (a b : nat) (w : World) : tick a (tick b w) = tick (b + a) w.
Proof. unfold tick. cbn. f_equal. lia. Qed.

Lemma select_one_run (C : list np.np_float) (l : list ref) (w : World) (r : ref) :
  _individuals (pop w) = Some l ->
  l !! roulette_index C (np.uniform (rng w (clock w))) = Some r ->
  select_one C w = (Ok r, tick 1 w).
Proof.
  intros Hl Hr. unfold select_one.
  erewrite bind_ok by reflexivity.
  erewrite bind_ok by (rewrite self_individuals_run; cbn [pop tick]; rewrite Hl; reflexivity).
  fold (roulette_index C (np.uniform (rng w (clock w)))).
  unfold list_getitem. rewrite Hr. reflexivity.
Qed.

(** The list comprehension of [select]: one draw per slot, each slot
    filled with the member at the index the draw gives. *)
Lemma select_loop_run (C : list np.np_float) (l : list ref) (n : nat) :
  (forall bits, (roulette_index C (np.uniform bits) < length l)%nat) ->
  forall (a : nat) (w : World),
    _individuals (pop w) = Some l ->
    exists sel,
      list_comp (seq a n) (fun _ => select_one C) w = (Ok sel, tick n w)
      /\ length sel = n
      /\ forall i, (i < n)%nat ->
           sel !! i = l !! roulette_index C (np.uniform (rng w (clock w + i))).
Proof.
  intros Hrange. induction n as [|n IH]; intros a w Hl.
  - exists []. cbn. split; [|split; [reflexivity|intros; lia]].
    unfold ret, tick. destruct w; cbn. rewrite Nat.add_0_r. reflexivity.
  - destruct (lookup_lt_is_Some_2 l _ (Hrange (rng w (clock w)))) as [r Hr].
    destruct (IH (S a) (tick 1 w) Hl) as (sel & Hrun & Hlen & Hsel).
    exists (r :: sel). cbn [seq list_comp].
    erewrite bind_ok by (eapply select_one_run; eauto).
    erewrite bind_ok by exact Hrun.
    split; [|split].
    + unfold ret. rewrite tick_tick. reflexivity.
    + simpl. congruence.
    + intros [|i] Hi.
      * simpl. rewrite Nat.add_0_r. symmetry. exact Hr.
      * simpl. rewrite Hsel by lia. cbn [rng clock tick].
        replace (clock w + 1 + i)%nat with (clock w + S i)%nat by lia. reflexivity.
Qed.

Lemma fitness_of_values (V : list Q) :
  0 < np.sum (np.rsub (np.sum (np.abs V)) V) ->
  fitness_of V = map np.Fin (fitness_values V).
Proof.
  intros HT. rewrite fitness_of_fin by lra.
  unfold fitness_values. rewrite map_map. reflexivity.
Qed.


(** What [select] does on a population whose fitness vector is well
    defined: slot [i] receives the member whose index is the number of
    cumulative sums that are at most draw [i]. *)
Lemma Population_select_run (w w1 : World) (V : list Q) (l : list ref) :
  Population_evaluation w = (Ok V, w1) ->
  _individuals (pop w) = Some l ->
  length l = _size (pop w) ->
  length V = length l ->
  0 < np.sum (np.rsub (np.sum (np.abs V)) V) ->
  let C := qcumsum (fitness_values V) in
  np.cumsum (fitness_of V) = map np.Fin C
  /\ exists sel w',
      Population_select w = (Ok tt, w')
      /\ pop w' = mkPopulation (_fun_evaluation (pop w)) (_size (pop w)) (Some sel) None
      /\ length sel = length l
      /\ clock w' = (clock w + length l)%nat
      /\ forall i, (i < length l)%nat ->
           sel !! i = l !! count_le (np.uniform (rng w (clock w + i))) C.
Proof.
  intros Hev Hl Hsize HV HT C.
  assert (HC : np.cumsum (fitness_of V) = map np.Fin C).
  { rewrite (fitness_of_values V HT). apply cumsum_fin. }
  split; [exact HC|].
  pose proof (Population_evaluation_effect _ _ _ Hev)
    as (Hrng & Hclock & _ & _ & Hind & Hsz & Hfun & _).
  assert (Hrange : forall bits,
             (roulette_index (map np.Fin C) (np.uniform bits) < length l)%nat).
  { intros bits. rewrite roulette_index_fin, <- HV.
    apply roulette_index_in_range. exact HT. }
  destruct (select_loop_run (map np.Fin C) l (_size (pop w1)) Hrange O w1
              ltac:(congruence)) as (sel & Hrun & Hlen & Hsel).
  exists sel. eexists. split; [|split; [|split; [|split]]].
  - unfold Population_select.
    erewrite bind_ok by (apply Population_fitness_run; exact Hev).
    erewrite bind_ok by reflexivity.
    rewrite HC. erewrite bind_ok by exact Hrun.
    rewrite assign_run. reflexivity.
  - cbn. rewrite Hfun, Hsz. reflexivity.
  - congruence.
  - cbn. rewrite Hclock, Hsz. congruence.
  - intros i Hi. rewrite Hsel by lia. rewrite roulette_index_fin, Hrng, Hclock.
    reflexivity.
Qed.



End Roulette.

Section SizeAndCache.
Local Open Scope Q_scope.

(** C4: on a population that holds [N] individuals and whose [_size] is
    [N], [select] and [crossover] leave it holding exactly [N] individuals,
    for every rate and alpha and however the call ends: when the call
    returns, the new sequence has [_size] entries, and when it raises, the
    sequence is the one it was. *)
Theorem C4_size_preserved (N : nat) (w w' : World) :
  holds N w -> _size (pop w) = N ->
  (forall o, Population_select w = (o, w') -> holds N w' /\ _size (pop w') = N)
  /\ (forall rate alpha o,
        Population_crossover rate alpha w = (o, w') ->
        holds N w' /\ _size (pop w') = N).
Proof.
  intros (l & Hl & Hlen) Hsize. split.
  - intros o Hrun.
    destruct (Population_select_inv _ _ _ Hrun)
      as [(_ & sel & Hsel & Hpop)|(e & _ & Hind & Hsz & _ & _)].
    + unfold holds. rewrite Hpop. cbn. split; [|exact Hsize].
      exists sel. split; [reflexivity|lia].
    + split; [|lia]. exists l. split; congruence.
  - intros rate alpha o Hrun.
    destruct (Population_crossover_inv _ _ _ _ _ Hrun)
      as [(_ & sel & Hsel & Hpop)|(e & _ & Hpop & _)].
    + unfold holds. rewrite Hpop. cbn. split; [|exact Hsize].
      exists sel. split; [reflexivity|lia].
    + unfold holds. rewrite Hpop. split; [|exact Hsize]. exists l. split; assumption.
Qed.

Lemma C4_size_preserved_witness :
  let w := world_of (fun t => if Nat.even t then 0%N else 9007199254740991%N)
             [sample_individual [-1; -1] [3; 3] [1; 2];
              sample_individual [-1; -1] [3; 3] [3; 0]]
             np.sum 2 None in
  let w2 := world_of (fun _ => 9007199254740991%N)
              [sample_individual [1] [2] [1]; sample_individual [1] [2] [2]]
              np.sum 2 None in
  holds 2 w /\ _size (pop w) = 2%nat
  /\ fst (Population_select w) = Ok tt
  /\ holds 2 (snd (Population_select w))
  /\ fst (Population_crossover 1 (1#4) w) = Ok tt
  /\ holds 2 (snd (Population_crossover 1 (1#4) w))
  /\ fst (Population_crossover 1 (1#4) w2) = Raise AssertionError
  /\ holds 2 (snd (Population_crossover 1 (1#4) w2)).
Proof.
  intros w w2.
  assert (H : holds 2 w) by (exists [0%nat; 1%nat]; split; reflexivity).
  assert (H2 : holds 2 w2) by (exists [0%nat; 1%nat]; split; reflexivity).
  split; [exact H|]. split; [reflexivity|].
  split; [vm_compute; reflexivity|].
  split; [|split; [vm_compute; reflexivity|split; [|split; [vm_compute; reflexivity|]]]].
  - destruct (C4_size_preserved 2 w (snd (Population_select w)) H eq_refl) as (Hs & _).
    apply (Hs (fst (Population_select w))). apply surjective_pairing.
  - destruct (C4_size_preserved 2 w (snd (Population_crossover 1 (1#4) w)) H eq_refl)
      as (_ & Hc).
    apply (Hc 1 (1#4) (fst (Population_crossover 1 (1#4) w))). apply surjective_pairing.
  - destruct (C4_size_preserved 2 w2 (snd (Population_crossover 1 (1#4) w2)) H2 eq_refl)
      as (_ & Hc).
    apply (Hc 1 (1#4) (fst (Population_crossover 1 (1#4) w2))). apply surjective_pairing.
Defined.

(** C7, as stated, fails for a call that ends in an exception: with bounds
    [[1,2]] that exclude 0 and a mask that is false, [crossover] raises the
    [AssertionError] of the [chrom] setter before it reaches its last two
    assignments, and the evaluation cache that was there before the call is
    still there after it. *)
Lemma C7_raising_crossover_counterexample :
  let w := world_of (fun _ => 9007199254740991%N)
             [sample_individual [1] [2] [1]; sample_individual [1] [2] [2]]
             np.sum 2 (Some [1; 2]) in
  _evaluation (pop w) = Some [1; 2]
  /\ fst (Population_crossover 1 (1#4) w) = Raise AssertionError
  /\ _evaluation (pop (snd (Population_crossover 1 (1#4) w))) = Some [1; 2]
  /\ _evaluation (pop (snd (Population_crossover 1 (1#4) w))) <> None.
Proof.
  intros w. split; [reflexivity|]. split; [vm_compute; reflexivity|].
  split; [vm_compute; reflexivity|]. vm_compute. discriminate.
Qed.

(** C7 (amended): [select] and [crossover], when they return, and [mutate],
    however it ends and whether or not any individual is mutated, leave the
    evaluation cache absent; a call of [select] or [crossover] that ends in
    an exception has changed neither the members nor any object that
    existed before; so in every case a cache that was absent or consistent
    with the individuals' chromosomes is absent or consistent afterwards: it
    is never stale. *)
Theorem C7_cache_invalidated (w w' : World) :
  (Population_select w = (Ok tt, w') -> _evaluation (pop w') = None)
  /\ (forall rate alpha,
        Population_crossover rate alpha w = (Ok tt, w') -> _evaluation (pop w') = None)
  /\ (forall num rate alpha o,
        Population_mutate num rate alpha w = (o, w') -> _evaluation (pop w') = None)
  /\ (forall o,
        Population_select w = (o, w')
        \/ (exists rate alpha, Population_crossover rate alpha w = (o, w')) ->
        _evaluation (pop w') = None
        \/ (_individuals (pop w') = _individuals (pop w)
            /\ forall r, (r < next w)%nat -> heap w' r = heap w r))
  /\ (allocated w -> cache_consistent w ->
      forall o,
        Population_select w = (o, w')
        \/ (exists rate alpha, Population_crossover rate alpha w = (o, w'))
        \/ (exists num rate alpha, Population_mutate num rate alpha w = (o, w')) ->
        cache_consistent w').
Proof.
  split; [|split; [|split; [|split]]].
  - intros Hrun.
    destruct (Population_select_inv _ _ _ Hrun) as [(_ & sel & _ & Hpop)|(e & He & _)];
      [|discriminate].
    rewrite Hpop. reflexivity.
  - intros rate alpha Hrun.
    destruct (Population_crossover_inv _ _ _ _ _ Hrun)
      as [(_ & sel & _ & Hpop)|(e & He & _)]; [|discriminate].
    rewrite Hpop. reflexivity.
  - intros num rate alpha o Hrun.
    rewrite (Population_mutate_inv _ _ _ _ _ _ Hrun). reflexivity.
  - intros o [Hrun|(rate & alpha & Hrun)].
    + destruct (Population_select_inv _ _ _ Hrun)
        as [(_ & sel & _ & Hpop)|(e & _ & Hind & _ & Hheap & _)].
      * left. rewrite Hpop. reflexivity.
      * right. split; assumption.
    + destruct (Population_crossover_inv _ _ _ _ _ Hrun)
        as [(_ & sel & _ & Hpop)|(e & _ & Hpop & _ & _ & Hheap)].
      * left. rewrite Hpop. reflexivity.
      * right. rewrite Hpop. split; [reflexivity|exact Hheap].
  - intros Hal Hc o [Hrun|[(rate & alpha & Hrun)|(num & rate & alpha & Hrun)]].
    + destruct (Population_select_inv _ _ _ Hrun)
        as [(_ & sel & _ & Hpop)|(e & _ & _ & _ & _ & Hkeep)].
      * unfold cache_consistent. rewrite Hpop. exact I.
      * apply Hkeep; assumption.
    + destruct (Population_crossover_inv _ _ _ _ _ Hrun)
        as [(_ & sel & _ & Hpop)|(e & _ & Hfr)].
      * unfold cache_consistent. rewrite Hpop. exact I.
      * eapply frame_cache_consistent; eauto.
    + unfold cache_consistent.
      rewrite (Population_mutate_inv _ _ _ _ _ _ Hrun). exact I.
Qed.

Lemma C7_cache_invalidated_witness :
  let w := world_of (fun t => if Nat.even t then 0%N else 9007199254740991%N)
             [sample_individual [-1; -1] [3; 3] [1; 2];
              sample_individual [-1; -1] [3; 3] [3; 0]]
             np.sum 2 (Some [3; 3]) in
  allocated w /\ cache_consistent w
  /\ _evaluation (pop w) = Some [3; 3]
  /\ fst (Population_select w) = Ok tt
  /\ _evaluation (pop (snd (Population_select w))) = None
  /\ fst (Population_crossover 1 (1#4) w) = Ok tt
  /\ _evaluation (pop (snd (Population_crossover 1 (1#4) w))) = None
  /\ fst (Population_mutate 1 (-1) (1#2) w) = Ok tt
  /\ _chrom (heap (snd (Population_mutate 1 (-1) (1#2) w)) O) = [1; 2]
  /\ _evaluation (pop (snd (Population_mutate 1 (-1) (1#2) w))) = None
  /\ cache_consistent (snd (Population_select w)).
Proof.
  intros w.
  assert (Hal : allocated w).
  { intros l Hl. inversion Hl; subst. repeat constructor. }
  assert (Hc : cache_consistent w).
  { exists [0%nat; 1%nat]. split; reflexivity. }
  assert (Hsel : Population_select w = (Ok tt, snd (Population_select w))).
  { transitivity (fst (Population_select w), snd (Population_select w));
      [apply surjective_pairing|]. f_equal; vm_compute; reflexivity. }
  assert (Hcr : Population_crossover 1 (1#4) w
                = (Ok tt, snd (Population_crossover 1 (1#4) w))).
  { transitivity (fst (Population_crossover 1 (1#4) w),
                  snd (Population_crossover 1 (1#4) w));
      [apply surjective_pairing|]. f_equal; vm_compute; reflexivity. }
  split; [exact Hal|]. split; [exact Hc|]. split; [reflexivity|].
  split; [rewrite Hsel; reflexivity|]. split.
  { destruct (C7_cache_invalidated w (snd (Population_select w))) as (Hs & _).
    exact (Hs Hsel). }
  split; [rewrite Hcr; reflexivity|]. split.
  { destruct (C7_cache_invalidated w (snd (Population_crossover 1 (1#4) w)))
      as (_ & Hx & _).
    exact (Hx 1 (1#4) Hcr). }
  split; [vm_compute; reflexivity|]. split; [vm_compute; reflexivity|]. split.
  - destruct (C7_cache_invalidated w (snd (Population_mutate 1 (-1) (1#2) w)))
      as (_ & _ & Hm & _).
    apply (Hm 1%nat (-1) (1#2) (fst (Population_mutate 1 (-1) (1#2) w))).
    apply surjective_pairing.
  - destruct (C7_cache_invalidated w (snd (Population_select w))) as (_ & _ & _ & _ & Hk).
    apply (Hk Hal Hc (fst (Population_select w))). left. apply surjective_pairing.
Defined.

End SizeAndCache.

(** ** C9 and C6: the modular driver *)

Section ModularDriver.
Local Open Scope Q_scope.

Context {cls : Type} `{EqDecision cls} {Ind : Type}.
Variable float_pow : Q -> Q -> Q.
Variable population_initialize : @GAProcess.M cls Ind unit.

Abbreviation population := (@GAProcess.population cls Ind).
Abbreviation state := (@GAProcess.state cls Ind).
Abbreviation Selection := (@GAProcess.Selection cls Ind).
Abbreviation Crossover := (@GAProcess.Crossover cls Ind).
Abbreviation Mutation := (@GAProcess.Mutation cls Ind).
Abbreviation GA := (@GAProcess.GA cls Ind).

Lemma incompatible_spec (individual_class : list cls) (c : cls) :
  GAProcess.incompatible individual_class c = false <-> c ∈ individual_class.
Proof.
  unfold GAProcess.incompatible. destruct individual_class as [|x l].
  - split; [discriminate|]. intros H. inversion H.
  - rewrite negb_false_iff, bool_decide_eq_true. reflexivity.
Qed.

(** C9: the constructor raises (a [ValueError]) as soon as the declared
    class list of the crossover or of the mutation strategy is empty or does
    not contain the class of the population's individual, so that no driver
    object exists on which [run] could be called; with both lists containing
    the class, it returns the driver holding the four arguments. *)
Theorem C9_incompatible_strategy_rejected (p : population) (sel : Selection)
  (cr : Crossover) (mu : Mutation) (fit : Q -> Q) :
  let c := GAProcess.individual__class__ p in
  (GAProcess.crossover_individual_class cr = []
   \/ c ∉ GAProcess.crossover_individual_class cr
   \/ GAProcess.mutation_individual_class mu = []
   \/ c ∉ GAProcess.mutation_individual_class mu ->
   GAProcess.GA__init__ p sel cr mu fit = Raise ValueError)
  /\ (c ∈ GAProcess.crossover_individual_class cr ->
      c ∈ GAProcess.mutation_individual_class mu ->
      GAProcess.GA__init__ p sel cr mu fit = Ok (GAProcess.mkGA sel cr mu fit)).
Proof.
  intros c. unfold GAProcess.GA__init__. fold c.
  pose proof (incompatible_spec (GAProcess.crossover_individual_class cr) c) as Hc.
  pose proof (incompatible_spec (GAProcess.mutation_individual_class mu) c) as Hm.
  destruct (GAProcess.incompatible (GAProcess.crossover_individual_class cr) c);
    destruct (GAProcess.incompatible (GAProcess.mutation_individual_class mu) c).
  - split; [reflexivity|]. intros H1 _. apply Hc in H1. discriminate.
  - split; [reflexivity|]. intros H1 _. apply Hc in H1. discriminate.
  - split; [reflexivity|]. intros _ H2. apply Hm in H2. discriminate.
  - split; [|reflexivity].
    assert (H1 : c ∈ GAProcess.crossover_individual_class cr) by (apply Hc; reflexivity).
    assert (H2 : c ∈ GAProcess.mutation_individual_class mu) by (apply Hm; reflexivity).
    intros [E|[E|[E|E]]].
    + rewrite E in H1. inversion H1.
    + contradiction.
    + rewrite E in H2. inversion H2.
    + contradiction.
Qed.

(** [np.argmin] returns the index of an entry that no entry is below. *)
Lemma argmin_from_spec (x : list Q) :
  forall (best : nat) (vbest : Q) (i : nat),
    exists m,
      ((np.argmin_from best vbest i x = best /\ m = vbest)
       \/ ((i <= np.argmin_from best vbest i x)%nat
           /\ x !! (np.argmin_from best vbest i x - i)%nat = Some m))
      /\ m <= vbest
      /\ forall v, In v x -> m <= v.
Proof.
  induction x as [|v x IH]; intros best vbest i; cbn [np.argmin_from].
  - exists vbest. split; [left; auto|]. split; [lra|]. intros v [].
  - destruct (Qle_bool vbest v) eqn:E.
    + apply Qle_bool_iff in E.
      destruct (IH best vbest (S i)) as (m & Hm & Hle & Hall).
      exists m. split; [|split; [exact Hle|]].
      * destruct Hm as [Hm|[Hi Hm]]; [left; exact Hm|right].
        split; [lia|].
        replace (np.argmin_from best vbest (S i) x - i)%nat
          with (S (np.argmin_from best vbest (S i) x - S i)) by lia.
        exact Hm.
      * intros v' [<-|Hin]; [lra|apply Hall, Hin].
    + assert (Hlt : v < vbest).
      { destruct (Qlt_le_dec v vbest) as [|Hle]; [assumption|].
        apply Qle_bool_iff in Hle. congruence. }
      destruct (IH i v (S i)) as (m & Hm & Hle & Hall).
      exists m. split; [|split; [lra|]].
      * right. destruct Hm as [[Hk ->]|[Hi Hm]].
        -- rewrite Hk. split; [lia|]. rewrite Nat.sub_diag. reflexivity.
        -- split; [lia|].
           replace (np.argmin_from i v (S i) x - i)%nat
             with (S (np.argmin_from i v (S i) x - S i)) by lia.
           exact Hm.
      * intros v' [<-|Hin]; [exact Hle|apply Hall, Hin].
Qed.

Lemma argmin_spec (x : list Q) :
  x <> [] ->
  exists k m, np.argmin x = Ok k /\ x !! k = Some m /\ forall v, In v x -> m <= v.
Proof.
  destruct x as [|v x]; [congruence|]. intros _. cbn [np.argmin].
  destruct (argmin_from_spec x O v 1%nat) as (m & Hm & Hle & Hall).
  exists (np.argmin_from 0 v 1 x), m. split; [reflexivity|]. split.
  - destruct Hm as [[-> ->]|[Hi Hm]]; [reflexivity|].
    destruct (np.argmin_from 0 v 1 x) as [|k]; [lia|].
    simpl in Hm |- *. rewrite Nat.sub_0_r in Hm. exact Hm.
  - intros v' [<-|Hin]; [exact Hle|apply Hall, Hin].
Qed.

(** [population.best] on a population that is not empty: a member that no
    member evaluates below; the state is left as it is. *)
Lemma population_best_spec (fe : Ind -> Q) (fit : Q -> Q) (s : state) :
  GAProcess.individuals (GAProcess.pop s) <> [] ->
  exists b,
    GAProcess.population_best fe fit s = (Ok b, s)
    /\ In b (GAProcess.individuals (GAProcess.pop s))
    /\ forall x, In x (GAProcess.individuals (GAProcess.pop s)) -> fe b <= fe x.
Proof.
  intros Hne. unfold GAProcess.population_best.
  set (l := GAProcess.individuals (GAProcess.pop s)) in *.
  destruct (argmin_spec (map fe l)) as (k & m & Hk & Hm & Hall).
  { destruct l; [congruence|discriminate]. }
  rewrite Hk. rewrite map_lookup in Hm.
  destruct (l !! k) as [b|] eqn:Hb; [|discriminate].
  inversion Hm; subst m. exists b. split; [reflexivity|]. split.
  - apply list_elem_of_In. eapply list_elem_of_lookup_2. exact Hb.
  - intros x Hx. apply Hall. apply in_map. exact Hx.
Qed.

Lemma population_best_inv (fe : Ind -> Q) (fit : Q -> Q) (s s' : state) (b : Ind) :
  GAProcess.population_best fe fit s = (Ok b, s') ->
  s' = s
  /\ In b (GAProcess.individuals (GAProcess.pop s))
  /\ forall x, In x (GAProcess.individuals (GAProcess.pop s)) -> fe b <= fe x.
Proof.
  intros H.
  destruct (GAProcess.individuals (GAProcess.pop s)) as [|x0 l0] eqn:El.
  - unfold GAProcess.population_best in H. rewrite El in H. discriminate.
  - destruct (population_best_spec fe fit s) as (b' & Hb' & Hin & Hall);
      [rewrite El; discriminate|].
    rewrite Hb' in H. inversion H; subst. rewrite <- El. auto.
Qed.

Lemma gbind_inv {A B} (m : @GAProcess.M cls Ind A) (k : A -> @GAProcess.M cls Ind B)
  (s s2 : state) (b : B) :
  GAProcess.bind m k s = (Ok b, s2) ->
  exists a s1, m s = (Ok a, s1) /\ k a s1 = (Ok b, s2).
Proof.
  unfold GAProcess.bind. destruct (m s) as [[a|e] s1]; intros H; [eauto|discriminate].
Qed.

Lemma gbind_ok {A B} (m : @GAProcess.M cls Ind A) (k : A -> @GAProcess.M cls Ind B)
  (s s1 : state) (a : A) :
  m s = (Ok a, s1) -> GAProcess.bind m k s = k a s1.
Proof. intros H. unfold GAProcess.bind. rewrite H. reflexivity. Qed.

(** One generation with elitism: the best individual is snapshotted first,
    the three operators run, and a slot drawn by [randint(size)] receives
    the snapshot. *)
Lemma generation_elitism_inv (self : GA) (fe : Ind -> Q) (gen n : nat) (s s' : state) :
  GAProcess.generation float_pow self fe gen true n s = (Ok tt, s') ->
  exists b s1 s2 u s2' rate s3 pos s4,
    GAProcess.population_best fe (GAProcess.fun_fitness self) s = (Ok b, s)
    /\ (forall x, In x (GAProcess.individuals (GAProcess.pop s)) -> fe b <= fe x)
    /\ GAProcess.select (GAProcess.selection self) s = (Ok tt, s1)
    /\ GAProcess.cross (GAProcess.crossover self) s1 = (Ok tt, s2)
    /\ GAProcess.np_random_rand s2 = (Ok u, s2')
    /\ GAProcess.mutate (GAProcess.mutation self) rate s2' = (Ok tt, s3)
    /\ GAProcess.np_random_randint (GAProcess.size (GAProcess.pop s3)) s3 = (Ok pos, s4)
    /\ (pos < GAProcess.size (GAProcess.pop s3))%nat
    /\ (pos < length (GAProcess.individuals (GAProcess.pop s3)))%nat
    /\ GAProcess.individuals (GAProcess.pop s')
       = <[pos := b]> (GAProcess.individuals (GAProcess.pop s3)).
Proof.
  unfold GAProcess.generation. intros H.
  apply gbind_inv in H as (ob & s0 & Hb & H).
  apply gbind_inv in Hb as (b & s0' & Hbest & Hret).
  inversion Hret; subst; clear Hret.
  destruct (population_best_inv _ _ _ _ _ Hbest) as (-> & _ & Hmin).
  apply gbind_inv in H as ([] & s1 & Hsel & H).
  apply gbind_inv in H as ([] & s2 & Hcr & H).
  apply gbind_inv in H as (u & s2' & Hu & H).
  apply gbind_inv in H as ([] & s3 & Hmu & H).
  apply gbind_inv in H as (sz & s3' & Hsz & H).
  inversion Hsz; subst; clear Hsz.
  apply gbind_inv in H as (pos & s4 & Hpos & Hset).
  exists b, s1, s2, u, s2'. eexists. exists s3', pos, s4.
  repeat (split; [eassumption|]).
  assert (Hs4 : GAProcess.pop s4 = GAProcess.pop s3'
                /\ (pos < GAProcess.size (GAProcess.pop s3'))%nat).
  { unfold GAProcess.np_random_randint in Hpos.
    destruct (GAProcess.size (GAProcess.pop s3')) as [|k] eqn:Ek; [discriminate|].
    inversion Hpos; subst. split; [reflexivity|].
    pose proof (N.mod_upper_bound (GAProcess.rng s3' (GAProcess.clock s3'))
                  (N.of_nat (S k)) ltac:(lia)). lia. }
  destruct Hs4 as [Hpop Hlt]. split; [exact Hlt|].
  unfold GAProcess.setitem_individuals in Hset. rewrite Hpop in Hset.
  destruct (pos <? length (GAProcess.individuals (GAProcess.pop s3')))%nat eqn:E;
    [|discriminate].
  apply Nat.ltb_lt in E. split; [exact E|].
  inversion Hset; subst. reflexivity.
Qed.

(** After a generation with elitism the best evaluation is not above what
    it was at the snapshot. *)
Lemma generation_elitism_best (self : GA) (fe : Ind -> Q) (gen n : nat)
  (s s' : state) :
  GAProcess.generation float_pow self fe gen true n s = (Ok tt, s') ->
  exists b b',
    GAProcess.population_best fe (GAProcess.fun_fitness self) s = (Ok b, s)
    /\ GAProcess.population_best fe (GAProcess.fun_fitness self) s' = (Ok b', s')
    /\ fe b' <= fe b.
Proof.
  intros H.
  destruct (generation_elitism_inv _ _ _ _ _ _ H)
    as (b & s1 & s2 & u & s2' & rate & s3 & pos & s4 & Hb & _ & _ & _ & _ & _ & _ & _ & Hlen & Hind).
  assert (Hin : In b (GAProcess.individuals (GAProcess.pop s'))).
  { rewrite Hind. apply list_elem_of_In. eapply list_elem_of_lookup_2.
    apply list_lookup_insert_eq. exact Hlen. }
  destruct (population_best_spec fe (GAProcess.fun_fitness self) s') as (b' & Hb' & _ & Hall).
  { intros E. rewrite E in Hin. destruct Hin. }
  exists b, b'. split; [exact Hb|]. split; [exact Hb'|]. apply Hall, Hin.
Qed.

(** The states between the generations of a loop that completes: the
    first is the state the loop starts in, each later one is what the body
    of the loop makes of the one before it, and the last is the state the
    loop ends in. *)
Lemma generations_snapshots (self : GA) (fe : Ind -> Q) (gen : nat) (e : bool)
  (ns : list nat) :
  forall s s' : state,
    GAProcess.generations float_pow self fe gen e ns s = (Ok tt, s') ->
    exists snap : list state,
      length snap = S (length ns)
      /\ snap !! O = Some s
      /\ snap !! length ns = Some s'
      /\ forall k n sk sk',
           ns !! k = Some n -> snap !! k = Some sk -> snap !! S k = Some sk' ->
           GAProcess.generation float_pow self fe gen e n sk = (Ok tt, sk').
Proof.
  induction ns as [|n ns IH]; intros s s' Hrun; cbn [GAProcess.generations] in Hrun.
  - injection Hrun as <-. exists [s]. split; [reflexivity|]. split; [reflexivity|].
    split; [reflexivity|]. intros k n sk sk' Hn. discriminate Hn.
  - apply gbind_inv in Hrun as ([] & s1 & Hgen & Hrest).
    destruct (IH s1 s' Hrest) as (snap & Hlen & H0 & Hend & Hstep).
    exists (s :: snap). split; [simpl; congruence|]. split; [reflexivity|].
    split; [exact Hend|].
    intros [|k] m sk sk' Hm Hk Hk'; simpl in Hm, Hk, Hk'.
    + injection Hm as <-. injection Hk as <-. rewrite H0 in Hk'. injection Hk' as <-.
      exact Hgen.
    + exact (Hstep k m sk sk' Hm Hk Hk').
Qed.

(** Along such a sequence of states, with elitism, the best evaluation
    never goes up. *)
Lemma snapshots_best_monotone (self : GA) (fe : Ind -> Q) (gen m : nat)
  (snap : list state) (b_end : Ind) (s_end : state) :
  length snap = S m ->
  (forall n s s',
     snap !! n = Some s -> snap !! S n = Some s' ->
     GAProcess.generation float_pow self fe gen true (S n) s = (Ok tt, s')) ->
  snap !! m = Some s_end ->
  GAProcess.population_best fe (GAProcess.fun_fitness self) s_end = (Ok b_end, s_end) ->
  forall d i si sj,
    (i + d <= m)%nat -> snap !! i = Some si -> snap !! (i + d)%nat = Some sj ->
    exists bi bj,
      GAProcess.population_best fe (GAProcess.fun_fitness self) si = (Ok bi, si)
      /\ GAProcess.population_best fe (GAProcess.fun_fitness self) sj = (Ok bj, sj)
      /\ fe bj <= fe bi.
Proof.
  intros Hlen Hstep Hend Hbest.
  induction d as [|d IH]; intros i si sj Him Hi Hj.
  - rewrite Nat.add_0_r in Hj. rewrite Hi in Hj. injection Hj as <-.
    destruct (Nat.eq_dec i m) as [->|Hne].
    + rewrite Hend in Hi. injection Hi as <-.
      exists b_end, b_end. split; [exact Hbest|]. split; [exact Hbest|lra].
    + destruct (lookup_lt_is_Some_2 snap (S i) ltac:(lia)) as [s1 Hs1].
      destruct (generation_elitism_best _ _ _ _ _ _ (Hstep i si s1 Hi Hs1))
        as (b & _ & Hb & _).
      exists b, b. split; [exact Hb|]. split; [exact Hb|lra].
  - destruct (lookup_lt_is_Some_2 snap (S i) ltac:(lia)) as [s1 Hs1].
    destruct (generation_elitism_best _ _ _ _ _ _ (Hstep i si s1 Hi Hs1))
      as (b & b1 & Hb & Hb1 & Hle).
    replace (i + S d)%nat with (S i + d)%nat in Hj by lia.
    destruct (IH (S i) s1 sj ltac:(lia) Hs1 Hj) as (b1' & bj & Hb1' & Hbj & Hle').
    rewrite Hb1 in Hb1'. injection Hb1' as <-.
    exists b, bj. split; [exact Hb|]. split; [exact Hbj|lra].
Qed.


End ModularDriver.

Section ModularDriverWitnesses.
Local Open Scope Q_scope.

Lemma C9_incompatible_strategy_rejected_witness :
  GAProcess.GA__init__ (GAProcess.pop sample_state) sample_selection
    (sample_crossover [1%nat; 2%nat]) (sample_mutation [7%nat]) (fun x => - x)
  = Raise ValueError
  /\ GAProcess.GA__init__ (GAProcess.pop sample_state) sample_selection
       (sample_crossover [7%nat]) (sample_mutation []) (fun x => - x)
     = Raise ValueError
  /\ GAProcess.GA__init__ (GAProcess.pop sample_state) sample_selection
       (sample_crossover [7%nat]) (sample_mutation [7%nat]) (fun x => - x)
     = Ok sample_GA.
Proof.
  split; [|split].
  - apply (C9_incompatible_strategy_rejected (GAProcess.pop sample_state)).
    right. left. cbn. intros H. apply list_elem_of_In in H. cbn in H.
    destruct H as [H|[H|[]]]; discriminate H.
  - apply (C9_incompatible_strategy_rejected (GAProcess.pop sample_state)).
    right. right. left. reflexivity.
  - apply (C9_incompatible_strategy_rejected (GAProcess.pop sample_state));
      cbn; apply list_elem_of_In; left; reflexivity.
Defined.


End ModularDriverWitnesses.

(** ** C5: the mutation magnitude of [GA.solve] *)

Section MutationSchedule.
Local Open Scope R_scope.

Lemma float_pow_Rpower (x y : R) : 0 < x -> Schedule.float_pow x y = Rpower x y.
Proof.
  intros Hx. unfold Schedule.float_pow.
  destruct (Req_dec_T y 0) as [->|Hy]; [symmetry; apply Rpower_O, Hx|].
  destruct (Req_dec_T x 0) as [->|_]; [lra|reflexivity].
Qed.

Lemma ln_neg (x : R) : 0 < x < 1 -> ln x < 0.
Proof. intros [H0 H1]. rewrite <- ln_1. apply ln_increasing; assumption. Qed.

(** For a base in (0,1) the power decreases as the exponent grows. *)
Lemma Rpower_antitone (x y z : R) : 0 < x < 1 -> y < z -> Rpower x z < Rpower x y.
Proof.
  intros Hx Hyz. unfold Rpower. apply exp_increasing.
  pose proof (ln_neg x Hx). nra.
Qed.

Lemma Rpower_le_1 (x y : R) : 0 < x < 1 -> 0 <= y -> 0 < Rpower x y <= 1.
Proof.
  intros Hx Hy. split; [apply exp_pos|].
  destruct (Req_dec_T y 0) as [->|Hne].
  - rewrite Rpower_O by lra. lra.
  - rewrite <- (Rpower_O x) by lra. left. apply Rpower_antitone; lra.
Qed.

(** The exponent [1 - g/G] of generation [g]. *)
Lemma exponent_range (g G : nat) :
  (g <= G)%nat -> (1 <= G)%nat -> 0 <= 1 - INR g / INR G <= 1.
Proof.
  intros HgG HG.
  assert (Hb : 0 < INR G) by (apply lt_0_INR; lia).
  assert (Ha : 0 <= INR g) by apply pos_INR.
  assert (Hab : INR g <= INR G) by (apply le_INR; exact HgG).
  assert (Hq : INR g / INR G * INR G = INR g) by (field; lra).
  set (q := INR g / INR G) in *. nra.
Qed.

Lemma exponent_antitone (g1 g2 G : nat) :
  (g1 < g2)%nat -> (1 <= G)%nat -> 1 - INR g2 / INR G < 1 - INR g1 / INR G.
Proof.
  intros H12 HG.
  assert (Hb : 0 < INR G) by (apply lt_0_INR; lia).
  assert (Hab : INR g1 < INR g2) by (apply lt_INR; exact H12).
  assert (H1 : INR g1 / INR G * INR G = INR g1) by (field; lra).
  assert (H2 : INR g2 / INR G * INR G = INR g2) by (field; lra).
  set (q1 := INR g1 / INR G) in *. set (q2 := INR g2 / INR G) in *. nra.
Qed.

Lemma exponent_last (G : nat) : (1 <= G)%nat -> 1 - INR G / INR G = 0.
Proof.
  intros HG. assert (Hb : 0 < INR G) by (apply lt_0_INR; lia). field. lra.
Qed.

Lemma solve_rate_last (U : R) (G : nat) : (1 <= G)%nat -> Schedule.solve_rate U G G = 0.
Proof.
  intros HG. unfold Schedule.solve_rate, Schedule.float_pow.
  rewrite (exponent_last G HG).
  destruct (Req_dec_T 0 0) as [_|H]; [lra|contradiction].
Qed.

Lemma float_pow_zero_base (y : R) :
  Schedule.float_pow 0 y = 1 \/ Schedule.float_pow 0 y = 0.
Proof.
  unfold Schedule.float_pow. destruct (Req_dec_T y 0); [left; reflexivity|].
  destruct (Req_dec_T 0 0) as [_|H]; [right; reflexivity|contradiction].
Qed.

(** C5, as stated, fails: for the draw [U = 1/2] and [G = 2] generations
    the magnitude is positive in generation 1 and exactly 0 in generation 2,
    so towards the last generation it goes down to 0 and not up to 1. *)
Lemma C5_trend_counterexample :
  Schedule.solve_rate (1/2) 2 2 = 0
  /\ 0 < Schedule.solve_rate (1/2) 1 2
  /\ Schedule.solve_rate (1/2) 2 2 < Schedule.solve_rate (1/2) 1 2
  /\ Schedule.solve_rate (1/2) 2 2 <> 1.
Proof.
  assert (H2 : Schedule.solve_rate (1/2) 2 2 = 0) by (apply solve_rate_last; lia).
  assert (H1 : 0 < Schedule.solve_rate (1/2) 1 2).
  { unfold Schedule.solve_rate. rewrite float_pow_Rpower by lra.
    pose proof (exponent_antitone 1 2 2 ltac:(lia) ltac:(lia)) as He.
    rewrite (exponent_last 2 ltac:(lia)) in He.
    pose proof (Rpower_antitone (1/2) 0 _ ltac:(lra) He) as Hp.
    rewrite Rpower_O in Hp by lra. lra. }
  repeat split; lra.
Qed.

(** C5 (amended): in the loop of [solve], with [U] the draw from [[0,1)] of
    generation [g] of [G], the mutation magnitude is [1 - U^(1 - g/G)]; it
    lies in [[0,1]]; for a fixed draw it never goes up from a generation to a
    later one (and goes strictly down when [0 < U]); and it is exactly 0 in
    the last generation: it trends toward 0 as [g] approaches [G]. *)
Theorem C5_mutation_magnitude (U : R) (G : nat) :
  0 <= U < 1 -> (1 <= G)%nat ->
  (forall g, Schedule.solve_rate U g G
             = 1 - Schedule.float_pow U (1 - INR g / INR G))
  /\ (forall g, 0 < U -> Schedule.solve_rate U g G = 1 - Rpower U (1 - INR g / INR G))
  /\ (forall g, (g <= G)%nat -> 0 <= Schedule.solve_rate U g G <= 1)
  /\ (forall g1 g2, (g1 <= g2 <= G)%nat ->
        Schedule.solve_rate U g2 G <= Schedule.solve_rate U g1 G)
  /\ (forall g1 g2, 0 < U -> (g1 < g2 <= G)%nat ->
        Schedule.solve_rate U g2 G < Schedule.solve_rate U g1 G)
  /\ Schedule.solve_rate U G G = 0
  /\ last (Schedule.solve_rates (fun _ => U) G) 1 = 0.
Proof.
  intros HU HG.
  assert (Hstrict : forall g1 g2, 0 < U -> (g1 < g2 <= G)%nat ->
             Schedule.solve_rate U g2 G < Schedule.solve_rate U g1 G).
  { intros g1 g2 HU0 [H12 H2G]. unfold Schedule.solve_rate.
    rewrite !float_pow_Rpower by exact HU0.
    pose proof (exponent_antitone g1 g2 G H12 HG) as He.
    pose proof (Rpower_antitone U _ _ ltac:(lra) He). lra. }
  assert (Hrange : forall g, (g <= G)%nat -> 0 <= Schedule.solve_rate U g G <= 1).
  { intros g HgG. unfold Schedule.solve_rate.
    destruct (Req_dec_T U 0) as [->|HU0].
    - destruct (float_pow_zero_base (1 - INR g / INR G)) as [E|E]; rewrite E; lra.
    - rewrite float_pow_Rpower by lra.
      pose proof (exponent_range g G HgG HG) as [He _].
      pose proof (Rpower_le_1 U _ ltac:(lra) He). lra. }
  split; [reflexivity|]. split; [|split; [exact Hrange|split; [|split; [exact Hstrict|split]]]].
  - intros g HU0. unfold Schedule.solve_rate. rewrite float_pow_Rpower by exact HU0.
    reflexivity.
  - intros g1 g2 [H12 H2G].
    destruct (Nat.eq_dec g1 g2) as [->|Hne]; [lra|].
    destruct (Req_dec_T U 0) as [->|HU0].
    + unfold Schedule.solve_rate, Schedule.float_pow.
      pose proof (exponent_antitone g1 g2 G ltac:(lia) HG) as He.
      pose proof (exponent_range g2 G H2G HG) as [He2 _].
      destruct (Req_dec_T (1 - INR g1 / INR G) 0) as [E1|E1]; [lra|].
      destruct (Req_dec_T 0 0) as [_|H]; [|contradiction].
      destruct (Req_dec_T (1 - INR g2 / INR G) 0); lra.
    + left. apply Hstrict; [lra|lia].
  - apply solve_rate_last. exact HG.
  - unfold Schedule.solve_rates.
    destruct G as [|G']; [lia|].
    rewrite seq_S, map_app. cbn [map]. rewrite last_last. cbn [Nat.add].
    apply solve_rate_last. lia.
Qed.

Lemma C5_mutation_magnitude_witness :
  Schedule.solve_rate (1/4) 10 10 = 0
  /\ Schedule.solve_rate (1/4) 7 10 < Schedule.solve_rate (1/4) 3 10
  /\ 0 <= Schedule.solve_rate (1/4) 3 10 <= 1.
Proof.
  destruct (C5_mutation_magnitude (1/4) 10 ltac:(lra) ltac:(lia))
    as (_ & _ & Hrange & _ & Hstrict & Hlast & _).
  split; [exact Hlast|]. split.
  - apply Hstrict; [lra|lia].
  - apply Hrange. lia.
Defined.

End MutationSchedule.

(** ** C1: the bounds invariant, on an [Individual] and across the
    operators of [Population] *)

Section PopulationBounds.
Local Open Scope Q_scope.
#[local] Set Warnings "-inexact-float".

Lemma good_frame (w w' : World) (r : ref) :
  frame (next w) w w' -> good w r -> good w' r.
Proof.
  intros (_ & Hn & _ & Hheap) (Hr & Hsh & Hin).
  unfold good. rewrite (Hheap r Hr). split; [lia|split; assumption].
Qed.

Lemma local_preserves_good {A} (m : M A) (R : nat -> A -> Prop) :
  (forall n, local n m (R n)) -> preserves_good m.
Proof.
  intros Hloc w o w' Hrun r Hr.
  destruct (Hloc (next w) w o w' ltac:(lia) Hrun) as [F _].
  eapply good_frame; eauto.
Qed.

Lemma preserves_good_bind {A B} (m : M A) (k : A -> M B) :
  preserves_good m -> (forall a, preserves_good (k a)) -> preserves_good (bind m k).
Proof.
  intros Hm Hk w o w' Hrun r Hr.
  apply bind_inv in Hrun as [(a & w1 & H1 & H2)|(e & H1 & _)].
  - eapply Hk; [exact H2|]. eapply Hm; eauto.
  - eapply Hm; eauto.
Qed.

Lemma preserves_good_for_each {A} (l : list A) (body : A -> M unit) :
  (forall x, preserves_good (body x)) -> preserves_good (for_each l body).
Proof.
  intros H. induction l as [|x l IH]; cbn [for_each].
  - intros w o w' Hrun r Hr. inversion Hrun; subst. exact Hr.
  - apply preserves_good_bind; [apply H|intros _; exact IH].
Qed.

(** [Individual.mutate] writes to its own object only. *)
Lemma Individual_mutate_at_others (self : ref) (pos : Z) (alpha : Q)
  (w w' : World) (o : outcome unit) :
  Individual_mutate_at self pos alpha w = (o, w') ->
  next w' = next w /\ forall r, r <> self -> heap w' r = heap w r.
Proof.
  unfold Individual_mutate_at. intros H.
  apply bind_inv in H as [(u & w1 & H1 & H)|(e & H1 & _)]; [|discriminate].
  inversion H1; subst; clear H1.
  apply bind_inv in H as [(I & w1 & H1 & H)|(e & H1 & _)]; [|discriminate].
  inversion H1; subst; clear H1.
  apply bind_inv in H as [(c & w1 & H1 & H)|(e & H1 & _)];
    [|inversion H1; subst; split; [reflexivity|intros; reflexivity]].
  inversion H1; subst; clear H1.
  destruct (negb _).
  - apply bind_inv in H as [(l & w1 & H1 & H)|(e & H1 & _)];
      [|inversion H1; subst; split; [reflexivity|intros; reflexivity]].
    inversion H1; subst; clear H1.
    apply bind_inv in H as [(c' & w1 & H1 & H)|(e & H1 & _)];
      [|inversion H1; subst; split; [reflexivity|intros; reflexivity]].
    inversion H1; subst; clear H1. inversion H; subst.
    split; [reflexivity|]. intros r Hr. cbn. apply fn_lookup_insert_ne. congruence.
  - apply bind_inv in H as [(l & w1 & H1 & H)|(e & H1 & _)];
      [|inversion H1; subst; split; [reflexivity|intros; reflexivity]].
    inversion H1; subst; clear H1.
    apply bind_inv in H as [(c' & w1 & H1 & H)|(e & H1 & _)];
      [|inversion H1; subst; split; [reflexivity|intros; reflexivity]].
    inversion H1; subst; clear H1. inversion H; subst.
    split; [reflexivity|]. intros r Hr. cbn. apply fn_lookup_insert_ne. congruence.
Qed.

Lemma Individual_mutate_at_good (self : ref) (pos : Z) (alpha : Q) :
  0 <= alpha <= 1 -> preserves_good (Individual_mutate_at self pos alpha).
Proof.
  intros Ha w o w' Hrun r (Hr & Hsh & Hin).
  destruct (Individual_mutate_at_others _ _ _ _ _ _ Hrun) as [Hn Hothers].
  unfold good. rewrite Hn. split; [exact Hr|].
  destruct (Nat.eq_dec r self) as [->|Hne].
  - destruct (Individual_mutate_at_preserves _ _ _ _ _ _ Ha Hsh Hin Hrun) as [Hf Hin'].
    split; [eapply same_frame_shaped; eauto|exact Hin'].
  - rewrite (Hothers r Hne). split; assumption.
Qed.

Lemma Individual_mutate_good (self : ref) (positions : list Z) (alpha : Q) :
  0 <= alpha <= 1 -> preserves_good (Individual_mutate self positions alpha).
Proof.
  intros Ha. unfold Individual_mutate. apply preserves_good_for_each.
  intros pos. apply Individual_mutate_at_good. exact Ha.
Qed.

Lemma mutate_one_good (num : nat) (rate alpha : Q) (individual : ref) :
  0 <= alpha <= 1 -> preserves_good (mutate_one num rate alpha individual).
Proof.
  intros Ha. unfold mutate_one.
  apply preserves_good_bind; [apply (local_preserves_good _ (fun _ => any)); intros; apply local_rand|].
  intros u. destruct (Qle_bool u rate).
  - apply preserves_good_bind; [apply (local_preserves_good _ (fun _ => any)); intros; apply local_load|].
    intros I.
    apply preserves_good_bind; [apply (local_preserves_good _ (fun _ => any)); intros; apply local_choice|].
    intros pos. apply Individual_mutate_good. exact Ha.
  - apply (local_preserves_good _ (fun _ => any)). intros n. apply local_ret. exact Logic.I.
Qed.

Lemma bind_inv_ok {A B} (m : M A) (k : A -> M B) (w w2 : World) (b : B) :
  bind m k w = (Ok b, w2) -> exists a w1, m w = (Ok a, w1) /\ k a w1 = (Ok b, w2).
Proof.
  intros H. apply bind_inv in H as [(a & w1 & H1 & H2)|(e & _ & H2)];
    [eauto|discriminate].
Qed.

(** A successful assignment through the setter leaves a good object. *)
Lemma Individual_set_chrom_good (w w' : World) (self : ref) (x : list Q) :
  (self < next w)%nat -> shaped (heap w self) ->
  Individual_set_chrom self x w = (Ok tt, w') ->
  good w' self /\ next w' = next w /\ forall r, r <> self -> heap w' r = heap w r.
Proof.
  intros Hself Hsh Hrun. rewrite (Individual_set_chrom_run w self x Hsh) in Hrun.
  destruct ((_dim (heap w self) =? length x)%nat) eqn:Ed; [|discriminate].
  destruct (withinb _ x _) eqn:Ew; [|discriminate].
  inversion Hrun; subst; clear Hrun. cbn [next heap set_heap].
  split; [|split; [reflexivity|]].
  - unfold good. cbn [next heap set_heap]. rewrite fn_lookup_insert.
    split; [exact Hself|]. split; [exact Hsh|].
    apply (withinb_spec (heap w self) x Hsh). exact Ew.
  - intros r Hr. apply fn_lookup_insert_ne. congruence.
Qed.

(** The children that [cross_individuals] returns are good objects. *)
Lemma cross_individuals_good (w w' : World) (ra rb r1 r2 : ref) (alpha : Q) :
  shaped (heap w ra) -> shaped (heap w rb) ->
  cross_individuals ra rb alpha w = (Ok (r1, r2), w') ->
  good w' r1 /\ good w' r2.
Proof.
  intros Hsa Hsb H. unfold cross_individuals in H.
  apply bind_inv_ok in H as (a & u0 & H1 & H); inversion H1; clear H1; try subst a; subst u0.
  apply bind_inv_ok in H as (b & u1 & H1 & H); inversion H1; clear H1; try subst b; subst u1.
  apply bind_inv_ok in H as (draws & u2 & H1 & H); inversion H1; clear H1; try subst draws; subst u2.
  apply bind_inv_ok in H as (ap & u3 & H1 & H); inversion H1; clear H1; try subst ap; subst u3.
  apply bind_inv_ok in H as (bp & u4 & H1 & H); inversion H1; clear H1; try subst bp; subst u4.
  apply bind_inv_ok in H as (va & u5 & H1 & H); inversion H1; clear H1; try subst va; subst u5.
  apply bind_inv_ok in H as (ap' & u6 & H1 & H); inversion H1; clear H1; try subst ap'; subst u6.
  apply bind_inv_ok in H as (bp' & u7 & H1 & H); inversion H1; clear H1; try subst bp'; subst u7.
  apply bind_inv_ok in H as (vb & u8 & H1 & H); inversion H1; clear H1; try subst vb; subst u8.
  apply bind_inv_ok in H as (na & u9 & H1 & H); inversion H1; clear H1; try subst na; subst u9.
  apply bind_inv_ok in H as (nb & u10 & H1 & H); inversion H1; clear H1; try subst nb; subst u10.
  cbn [rng clock junk heap next pop tick] in H.
  set (Ia := mkIndividual _ (_lbound (heap w ra)) _ _) in H.
  set (Ib := mkIndividual _ (_lbound (heap w rb)) _ _) in H.
  set (w2 := mkWorld _ _ _ _ _ _) in H.
  apply bind_inv_ok in H as ([] & w3 & Hseta & H).
  apply bind_inv_ok in H as ([] & w4 & Hsetb & H).
  inversion H; subst; clear H.
  assert (H2a : heap w2 (next w) = Ia).
  { unfold w2. cbn [heap]. rewrite fn_lookup_insert_ne by lia. apply fn_lookup_insert. }
  assert (H2b : heap w2 (S (next w)) = Ib).
  { unfold w2. cbn [heap]. apply fn_lookup_insert. }
  destruct (Individual_set_chrom_good w2 w3 (next w) va) as (Ga & Hn3 & Ho3); try assumption.
  { unfold w2. cbn. lia. }
  { rewrite H2a. exact Hsa. }
  destruct (Individual_set_chrom_good w3 w' (S (next w)) vb) as (Gb & Hn4 & Ho4); try assumption.
  { rewrite Hn3. unfold w2. cbn. lia. }
  { rewrite Ho3 by lia. rewrite H2b. exact Hsb. }
  split; [|exact Gb].
  destruct Ga as (Ha1 & Ha2 & Ha3). unfold good.
  rewrite Hn4, Ho4 by lia. split; [exact Ha1|split; assumption].
Qed.

(** *** What the sampling routines hand back comes from what they are given *)

Lemma swap_Forall {A} (P : A -> Prop) (l : list A) (i j : nat) :
  Forall P l -> Forall P (swap l i j).
Proof.
  intros H. unfold swap.
  destruct (l !! i) as [x|] eqn:Ei; [|exact H].
  destruct (l !! j) as [y|] eqn:Ej; [|exact H].
  apply Forall_insert; [apply Forall_insert; [exact H|]|].
  - eapply Forall_lookup_1; eauto.
  - eapply Forall_lookup_1; eauto.
Qed.

Lemma shuffle_Forall {A} (P : A -> Prop) (i : nat) :
  forall (l p : list A) (w w' : World),
    Forall P l -> shuffle i l w = (Ok p, w') -> Forall P p.
Proof.
  induction i as [|i IH]; intros l p w w' Hl H; cbn [shuffle] in H.
  - inversion H; subst. exact Hl.
  - apply bind_inv_ok in H as (j & w1 & _ & H).
    eapply IH; [|exact H]. apply swap_Forall. exact Hl.
Qed.

Lemma choice_Forall {A} (P : A -> Prop) (a c : list A) (size : nat) (w w' : World) :
  Forall P a -> np_random_choice a size w = (Ok c, w') -> Forall P c.
Proof.
  intros Ha H. unfold np_random_choice in H.
  destruct (size <=? length a)%nat; [|discriminate].
  apply bind_inv_ok in H as (p & w1 & H1 & H). inversion H; subst.
  apply Forall_take. eapply shuffle_Forall; eauto.
Qed.

Lemma zip_Forall {A B} (P : A -> Prop) (R : B -> Prop) (l : list A) (k : list B) :
  Forall P l -> Forall R k -> Forall (fun ab => P (fst ab) /\ R (snd ab)) (zip l k).
Proof.
  intros Hl. revert k. induction Hl as [|x l Hx Hl IH]; intros k Hk; [constructor|].
  destruct Hk as [|y k Hy Hk]; [constructor|].
  cbn. constructor; [split; assumption|apply IH; exact Hk].
Qed.

Lemma crossover_loop_good (rate alpha : Q) (pairs : list (ref * ref)) :
  forall (acc new : list ref) (w w' : World),
    Forall (fun ab => good w (fst ab) /\ good w (snd ab)) pairs ->
    Forall (good w) acc ->
    crossover_loop pairs rate alpha acc w = (Ok new, w') ->
    Forall (good w') new.
Proof.
  induction pairs as [|[ra rb] pairs IH]; intros acc new w w' Hp Hacc H;
    cbn [crossover_loop] in H.
  - inversion H; subst. exact Hacc.
  - inversion Hp as [|? ? [Ga Gb] Hp']; subst. cbn [fst snd] in Ga, Gb.
    apply bind_inv_ok in H as (u & w1 & H1 & H).
    assert (K1 : forall r, good w r -> good w1 r).
    { eapply (local_preserves_good np_random_rand (fun _ => any)); [intros; apply local_rand|exact H1]. }
    destruct (Qle_bool u rate).
    + apply bind_inv_ok in H as ([r1 r2] & w2 & H2 & H).
      assert (K2 : forall r, good w1 r -> good w2 r).
      { eapply (local_preserves_good (cross_individuals ra rb alpha)
                  (fun n p => (n <= fst p /\ n <= snd p)%nat));
          [intros; apply local_cross_individuals|exact H2]. }
      destruct (cross_individuals_good w1 w2 ra rb r1 r2 alpha) as [G1 G2];
        [apply K1 in Ga; apply Ga|apply K1 in Gb; apply Gb|exact H2|].
      eapply IH; [| |exact H].
      * eapply Forall_impl; [|exact Hp']. intros [x y] [Gx Gy]. cbn in *. auto.
      * apply Forall_app. split.
        -- eapply Forall_impl; [|exact Hacc]. intros; auto.
        -- cbn [fst snd]. constructor; [exact G1|constructor; [exact G2|constructor]].
    + eapply IH; [| |exact H].
      * eapply Forall_impl; [|exact Hp']. intros [x y] [Gx Gy]. cbn in *. auto.
      * apply Forall_app. split.
        -- eapply Forall_impl; [|exact Hacc]. intros; auto.
        -- constructor; [auto|constructor; [auto|constructor]].
Qed.

Lemma sound_set_pop (w : World) (P : Population) (l : list ref) :
  _individuals P = Some l -> Forall (good w) l -> sound (set_pop P w).
Proof.
  intros HP Hl l' Hl'. cbn in Hl'. rewrite HP in Hl'. inversion Hl'; subst. exact Hl.
Qed.

Lemma sound_frame (w w' : World) : frame (next w) w w' -> sound w -> sound w'.
Proof.
  intros F Hs l Hl. pose proof F as (Hpop & _). rewrite Hpop in Hl.
  eapply Forall_impl; [|exact (Hs l Hl)]. intros r. apply good_frame. exact F.
Qed.

(** [crossover] keeps the population sound, however it ends. *)
Lemma Population_crossover_sound (rate alpha : Q) (w w' : World) (o : outcome unit) :
  sound w -> Population_crossover rate alpha w = (o, w') -> sound w'.
Proof.
  intros Hs Hrun.
  destruct (Population_crossover_inv _ _ _ _ _ Hrun) as [(-> & _)|(e & _ & F)];
    [|eapply sound_frame; eauto].
  unfold Population_crossover in Hrun.
  apply bind_inv_ok in Hrun as (l & w1 & H1 & Hrun).
  rewrite individuals_as_array_run in H1.
  destruct (_individuals (pop w)) as [l0|] eqn:El; inversion H1; subst; clear H1.
  specialize (Hs l El).
  apply bind_inv_ok in Hrun as (rp & w2 & H2 & Hrun).
  assert (K2 : forall r, good w1 r -> good w2 r).
  { eapply (local_preserves_good (np_random_permutation l) (fun _ => any));
      [intros; apply local_permutation|exact H2]. }
  assert (Hrp : Forall (good w1) rp) by (eapply shuffle_Forall; eauto).
  apply bind_inv_ok in Hrun as (new & w3 & H3 & Hrun).
  assert (Hnew : Forall (good w3) new).
  { eapply crossover_loop_good; [| |exact H3]; [|constructor].
    apply zip_Forall; (eapply Forall_impl; [|eassumption]; auto). }
  apply bind_inv_ok in Hrun as (P & w4 & H4 & Hrun). inversion H4; subst; clear H4.
  apply bind_inv_ok in Hrun as (chosen & w5 & H5 & Hrun).
  assert (K5 : forall r, good w4 r -> good w5 r).
  { eapply (local_preserves_good (np_random_choice new (_size (pop w4))) (fun _ => any));
      [intros; apply local_choice|exact H5]. }
  assert (Hch : Forall (good w5) chosen).
  { eapply Forall_impl; [|eapply choice_Forall; eauto]; auto. }
  rewrite assign_run in Hrun. inversion Hrun; subst.
  eapply sound_set_pop; [reflexivity|exact Hch].
Qed.

Lemma sound_evaluation (w w1 : World) (o : outcome (list Q)) :
  Population_evaluation w = (o, w1) -> sound w -> sound w1.
Proof.
  intros Hev Hs l Hl.
  destruct (Population_evaluation_effect _ _ _ Hev)
    as (_ & _ & Hheap & Hnext & Hind & _).
  rewrite Hind in Hl. specialize (Hs l Hl).
  eapply Forall_impl; [|exact Hs]. intros r (H1 & H2 & H3).
  unfold good. rewrite Hheap, Hnext. auto.
Qed.

Lemma select_one_good (C : list np.np_float) (w w' : World) (r : ref) :
  sound w -> select_one C w = (Ok r, w') -> good w' r.
Proof.
  intros Hs H.
  assert (K : forall x, good w x -> good w' x).
  { eapply (local_preserves_good (select_one C) (fun _ => any));
      [intros; apply local_select_one|exact H]. }
  apply K. unfold select_one in H.
  apply bind_inv_ok in H as (u & w1 & H1 & H). inversion H1; subst; clear H1.
  apply bind_inv_ok in H as (l & w1 & H1 & H).
  rewrite self_individuals_run in H1. cbn [pop tick] in H1.
  destruct (_individuals (pop w)) as [l0|] eqn:El; inversion H1; subst; clear H1.
  unfold list_getitem in H.
  destruct (l !! _) as [x|] eqn:Ex; inversion H; subst.
  eapply Forall_lookup_1; [exact (Hs l El)|exact Ex].
Qed.

Lemma select_loop_good (C : list np.np_float) (ns : list nat) :
  forall (w w' : World) (sel : list ref),
    sound w ->
    list_comp ns (fun _ => select_one C) w = (Ok sel, w') ->
    Forall (good w') sel.
Proof.
  induction ns as [|n ns IH]; intros w w' sel Hs H; cbn [list_comp] in H.
  - inversion H; subst. constructor.
  - apply bind_inv_ok in H as (r & w1 & H1 & H).
    apply bind_inv_ok in H as (rs & w2 & H2 & H). inversion H; subst; clear H.
    assert (Hs1 : sound w1).
    { destruct (local_select_one (next w) C w (Ok r) w1 ltac:(lia) H1) as [F _].
      eapply sound_frame; eauto. }
    assert (K : forall x, good w1 x -> good w' x).
    { eapply (local_preserves_good (list_comp ns (fun _ => select_one C))
                (fun _ => Forall any));
        [intros; apply local_list_comp; intros; apply local_select_one|exact H2]. }
    constructor; [apply K; exact (select_one_good C w w1 r Hs H1)|].
    exact (IH w1 w' rs Hs1 H2).
Qed.

(** [select] keeps the population sound, however it ends. *)
Lemma Population_select_sound (w w' : World) (o : outcome unit) :
  sound w -> Population_select w = (o, w') -> sound w'.
Proof.
  intros Hs Hrun. unfold Population_select in Hrun.
  destruct (Population_evaluation w) as [[V|e] w1] eqn:Hev.
  - pose proof (sound_evaluation _ _ _ Hev Hs) as Hs1.
    rewrite (bind_ok _ _ _ _ _ (Population_fitness_run _ _ _ Hev)) in Hrun.
    rewrite (bind_ok get_self _ w1 w1 (pop w1) eq_refl) in Hrun.
    destruct (list_comp (seq 0 (_size (pop w1)))
                (fun _ => select_one (np.cumsum (fitness_of V))) w1)
      as [[sel|err] w2] eqn:Hl.
    + rewrite (bind_ok _ _ _ _ _ Hl), assign_run in Hrun. inversion Hrun; subst.
      eapply sound_set_pop; [reflexivity|]. eapply select_loop_good; eauto.
    + rewrite (bind_raise _ _ _ _ _ Hl) in Hrun. inversion Hrun; subst.
      destruct (local_list_comp (next w1) (seq 0 (_size (pop w1)))
                  (fun _ => select_one (np.cumsum (fitness_of V))) any
                  (fun _ => local_select_one (next w1) _) w1 (Raise err) w'
                  ltac:(lia) Hl) as [F _].
      eapply sound_frame; eauto.
  - rewrite (bind_raise _ _ _ _ _ (Population_fitness_raise _ _ _ Hev)) in Hrun.
    inversion Hrun; subst. eapply sound_evaluation; eauto.
Qed.

(** [mutate] with a magnitude in [[0,1]] keeps the population sound,
    however it ends. *)
Lemma Population_mutate_sound (num : nat) (rate alpha : Q) (w w' : World)
  (o : outcome unit) :
  0 <= alpha <= 1 ->
  sound w -> Population_mutate num rate alpha w = (o, w') -> sound w'.
Proof.
  intros Ha Hs Hrun.
  pose proof (Population_mutate_inv _ _ _ _ _ _ Hrun) as Hpop.
  unfold Population_mutate in Hrun.
  assert (Hset : set_evaluation None w
                 = (Ok tt, set_pop (mkPopulation (_fun_evaluation (pop w)) (_size (pop w))
                                      (_individuals (pop w)) None) w)) by reflexivity.
  rewrite (bind_ok _ _ _ _ _ Hset) in Hrun.
  set (w0 := set_pop _ w) in *.
  assert (K : forall r, good w0 r -> good w' r).
  { assert (Hp : preserves_good (l <- self_individuals ;; for_each l (mutate_one num rate alpha))).
    { apply preserves_good_bind.
      - apply (local_preserves_good _ (fun _ => any)); intros; apply local_self_individuals.
      - intros l. apply preserves_good_for_each. intros r. apply mutate_one_good. exact Ha. }
    exact (Hp w0 o w' Hrun). }
  intros l Hl. rewrite Hpop in Hl. cbn in Hl.
  eapply Forall_impl; [|exact (Hs l Hl)]. intros r Hr. apply K. exact Hr.
Qed.

(** The list comprehension of [Population.initialize] allocates one object
    per slot. *)
Lemma alloc_loop (d : nat) (lo hi : list Q) (ns : list nat) :
  forall w,
    exists l w1,
      list_comp ns (fun _ => Individual__init__ d lo hi) w = (Ok l, w1)
      /\ length l = length ns
      /\ Forall (framed d lo hi w1) l
      /\ pop w1 = pop w
      /\ (forall r, framed d lo hi w r -> framed d lo hi w1 r).
Proof.
  induction ns as [|n ns IH]; intros w.
  - exists [], w. cbn.
    split; [reflexivity|]. split; [reflexivity|]. split; [constructor|]. split; auto.
  - set (w' := mkWorld (rng w) (clock w) (junk w)
                 (<[next w := mkIndividual d lo hi (map (junk w) (seq 0 d))]> (heap w))
                 (S (next w)) (pop w)).
    assert (Hinit : Individual__init__ d lo hi w = (Ok (next w), w')) by reflexivity.
    assert (Hnew : framed d lo hi w' (next w)).
    { unfold framed, w'. cbn. rewrite fn_lookup_insert. repeat split. lia. }
    assert (Hkeep : forall r, framed d lo hi w r -> framed d lo hi w' r).
    { intros r (Hr & H1 & H2 & H3). unfold framed, w'. cbn.
      rewrite fn_lookup_insert_ne by lia. repeat split; auto. }
    destruct (IH w') as (l & w1 & Hrun & Hlen & Hall & Hpop & Hk).
    exists (next w :: l), w1. cbn [list_comp].
    rewrite (bind_ok _ _ _ _ _ Hinit), (bind_ok _ _ _ _ _ Hrun).
    split; [reflexivity|]. split; [simpl; congruence|].
    split; [constructor; [apply Hk, Hnew|exact Hall]|].
    split; [rewrite Hpop; reflexivity|]. intros r Hr. apply Hk, Hkeep, Hr.
Qed.

(** The loop of [Population.initialize] makes every object it visits
    good. *)
Lemma initialize_loop (d : nat) (lo hi : list Q) (l : list ref) :
  length lo = d -> length hi = d -> Forall2 Qle lo hi ->
  forall w,
    Forall (framed d lo hi w) l ->
    exists w',
      for_each l Individual_initialize w = (Ok tt, w')
      /\ pop w' = pop w
      /\ (forall r, framed d lo hi w r -> framed d lo hi w' r)
      /\ (forall r, good w r -> good w' r)
      /\ Forall (good w') l.
Proof.
  intros Hlo Hhi Hbox. induction l as [|x l IH]; intros w Hl.
  - exists w. cbn.
    split; [reflexivity|]. split; [reflexivity|]. split; [auto|]. split; [auto|constructor].
  - pose proof (Forall_inv Hl) as (Hx & Hd & Hxl & Hxh).
    pose proof (Forall_inv_tail Hl) as Hl'.
    assert (Hsh : shaped (heap w x)) by (split; congruence).
    pose proof (Individual_initialize_run w x Hsh) as Hrun.
    set (w1 := set_heap _ (tick _ w)) in Hrun.
    assert (Hgx : good w1 x).
    { unfold good, w1. cbn [next heap set_heap tick]. rewrite fn_lookup_insert.
      split; [exact Hx|]. split; [exact Hsh|].
      apply (initial_chrom_within w (heap w x) Hsh). rewrite Hxl, Hxh. exact Hbox. }
    assert (Hkf : forall r, framed d lo hi w r -> framed d lo hi w1 r).
    { intros r (Hr & H1 & H2 & H3). unfold framed, w1. cbn [next heap set_heap tick].
      destruct (Nat.eq_dec x r) as [->|Hne].
      - rewrite fn_lookup_insert. repeat split; auto.
      - rewrite fn_lookup_insert_ne by exact Hne. repeat split; auto. }
    assert (Hkg : forall r, good w r -> good w1 r).
    { intros r Hr. destruct (Nat.eq_dec x r) as [->|Hne]; [exact Hgx|].
      destruct Hr as (Hr & H1 & H2). unfold good, w1. cbn [next heap set_heap tick].
      rewrite fn_lookup_insert_ne by exact Hne. auto. }
    destruct (IH w1) as (w' & Hrest & Hpop & Hkf' & Hkg' & Hall).
    { eapply Forall_impl; [|exact Hl']. exact Hkf. }
    exists w'. cbn [for_each].
    rewrite (bind_ok _ _ _ _ _ Hrun). split; [exact Hrest|].
    split; [rewrite Hpop; reflexivity|].
    split; [intros r Hr; apply Hkf', Hkf, Hr|].
    split; [intros r Hr; apply Hkg', Hkg, Hr|].
    constructor; [apply Hkg', Hgx|exact Hall].
Qed.

(** [Population.initialize] with bound vectors of [dim] entries that span a
    box returns with [_size] members, all of them good. *)
Lemma Population_initialize_sound (dim : nat) (lo hi : list Q) (w : World) :
  length lo = dim -> length hi = dim -> Forall2 Qle lo hi ->
  exists w',
    Population_initialize dim lo hi w = (Ok tt, w')
    /\ sound w' /\ holds (_size (pop w)) w'.
Proof.
  intros Hlo Hhi Hbox. unfold Population_initialize.
  rewrite (bind_ok get_self _ w w (pop w) eq_refl).
  destruct (alloc_loop dim lo hi (seq 0 (_size (pop w))) w)
    as (l & w1 & Hrun & Hlen & Hall & Hpop & _).
  rewrite (bind_ok _ _ _ _ _ Hrun).
  assert (Hset : set_individuals l w1
                 = (Ok tt, set_pop (mkPopulation (_fun_evaluation (pop w1)) (_size (pop w1))
                                      (Some l) (_evaluation (pop w1))) w1)) by reflexivity.
  rewrite (bind_ok _ _ _ _ _ Hset).
  set (w2 := set_pop _ w1).
  destruct (initialize_loop dim lo hi l Hlo Hhi Hbox w2) as (w' & Hloop & Hpop' & _ & _ & Hgood).
  { eapply Forall_impl; [|exact Hall]. intros r Hr. exact Hr. }
  exists w'. split; [exact Hloop|]. split.
  - intros l' Hl'. rewrite Hpop' in Hl'. cbn in Hl'. inversion Hl'; subst. exact Hgood.
  - exists l. rewrite Hpop'. cbn. split; [reflexivity|].
    rewrite Hlen, length_seq. reflexivity.
Qed.




End PopulationBounds.

(** * Further properties of the code *)

(** ** The queries of [Population]: [evaluation], [best], [convergent] *)

Section Queries.
Local Open Scope Q_scope.

Lemma evaluation_consistent (w : World) (l : list ref) :
  cache_consistent w -> _individuals (pop w) = Some l ->
  exists w1,
    Population_evaluation w = (Ok (evaluations w l), w1)
    /\ pop w1 = mkPopulation (_fun_evaluation (pop w)) (_size (pop w)) (Some l)
                  (Some (evaluations w l))
    /\ heap w1 = heap w /\ next w1 = next w /\ rng w1 = rng w /\ clock w1 = clock w.
Proof.
  intros Hc Hl. rewrite Population_evaluation_run.
  unfold cache_consistent in Hc.
  destruct (_evaluation (pop w)) as [v|] eqn:Hv.
  - destruct Hc as (l' & Hl' & ->). rewrite Hl in Hl'. injection Hl' as <-.
    exists w. split; [reflexivity|]. split; [|repeat split].
    unfold evaluations. destruct (pop w) as [f sz il ev]. simpl in *. subst. reflexivity.
  - rewrite Hl. eexists. split; [reflexivity|]. repeat split.
Qed.

(** [np.argmin] returns the first position of the minimum. *)
Lemma argmin_from_first (x : list Q) :
  forall (pre : list Q) (best : nat) (vbest : Q) (i : nat),
    i = length pre -> pre !! best = Some vbest ->
    (forall j v, (j < best)%nat -> pre !! j = Some v -> vbest < v) ->
    (forall v, In v pre -> vbest <= v) ->
    exists m,
      (pre ++ x) !! np.argmin_from best vbest i x = Some m
      /\ (forall v, In v (pre ++ x) -> m <= v)
      /\ (forall j v, (j < np.argmin_from best vbest i x)%nat ->
                      (pre ++ x) !! j = Some v -> m < v).
Proof.
  induction x as [|a x IH]; intros pre best vbest i Hi Hb Hfirst Hall; cbn [np.argmin_from].
  - rewrite app_nil_r. exists vbest. auto.
  - assert (Happ : pre ++ a :: x = (pre ++ [a]) ++ x) by (rewrite <- app_assoc; reflexivity).
    rewrite Happ.
    destruct (Qle_bool vbest a) eqn:Hva.
    + apply Qle_bool_iff in Hva.
      apply IH.
      * rewrite length_app. simpl. lia.
      * rewrite lookup_app_l; [exact Hb|]. apply lookup_lt_Some in Hb. exact Hb.
      * intros j v Hj Hv. apply (Hfirst j v Hj).
        apply lookup_lt_Some in Hb.
        rewrite lookup_app_l in Hv; [exact Hv|lia].
      * intros v Hv. apply in_app_or in Hv. destruct Hv as [Hv|[<-|[]]]; auto.
    + assert (Hav : a < vbest).
      { destruct (Qlt_le_dec a vbest) as [Hlt|Hle]; [exact Hlt|].
        apply Qle_bool_iff in Hle. congruence. }
      apply IH.
      * rewrite length_app. simpl. lia.
      * subst i. rewrite lookup_app_r by lia. rewrite Nat.sub_diag. reflexivity.
      * intros j v Hj Hv. subst i.
        rewrite lookup_app_l in Hv by lia.
        apply (Qlt_le_trans _ vbest); [exact Hav|].
        apply Hall. apply list_elem_of_In. eapply list_elem_of_lookup_2. exact Hv.
      * intros v Hv. apply in_app_or in Hv. destruct Hv as [Hv|[<-|[]]].
        -- apply Qlt_le_weak. apply (Qlt_le_trans _ vbest); [exact Hav|apply Hall, Hv].
        -- lra.
Qed.

Lemma argmin_first (x : list Q) :
  x <> [] ->
  exists k m,
    np.argmin x = Ok k /\ x !! k = Some m
    /\ (forall v, In v x -> m <= v)
    /\ (forall j v, (j < k)%nat -> x !! j = Some v -> m < v).
Proof.
  destruct x as [|a x]; [congruence|]. intros _.
  destruct (argmin_from_first x [a] 0 a 1) as (m & Hm & Hall & Hfirst).
  - reflexivity.
  - reflexivity.
  - intros j v Hj. lia.
  - intros v [<-|[]]. lra.
  - exists (np.argmin_from 0 a 1 x), m. split; [reflexivity|]. auto.
Qed.

End Queries.

Section QueryProperties.
Local Open Scope Q_scope.

Lemma evaluations_nil (w : World) (l : list ref) : evaluations w l = [] -> l = [].
Proof. destruct l; [reflexivity|discriminate]. Qed.

Lemma evaluations_In (w : World) (l : list ref) (v : Q) :
  In v (evaluations w l) <->
  exists r, In r l /\ v = _fun_evaluation (pop w) (_chrom (heap w r)).
Proof.
  unfold evaluations. rewrite in_map_iff. split.
  - intros (r & <- & Hr). exists r. auto.
  - intros (r & Hr & ->). exists r. auto.
Qed.

Lemma evaluation_twice (w : World) (l : list ref) :
  cache_consistent w -> _individuals (pop w) = Some l ->
  exists w1,
    Population_evaluation w = (Ok (evaluations w l), w1)
    /\ Population_evaluation w1 = (Ok (evaluations w l), w1)
    /\ pop w1 = mkPopulation (_fun_evaluation (pop w)) (_size (pop w)) (Some l)
                  (Some (evaluations w l))
    /\ heap w1 = heap w /\ next w1 = next w /\ rng w1 = rng w /\ clock w1 = clock w.
Proof.
  intros Hc Hl. destruct (evaluation_consistent w l Hc Hl) as (w1 & Hrun & Hrest).
  exists w1. split; [exact Hrun|]. split; [|exact Hrest].
  eapply Population_evaluation_again. exact Hrun.
Qed.

(** The [evaluation] property is lazy and, on a cache that is not stale,
    faithful: it returns the evaluation of every individual's present
    chromosome, in order; a second read returns the same vector from the
    cache without changing anything; and reading never touches an
    individual or the generator. *)
Theorem Population_evaluation_lazy (w : World) (l : list ref) :
  cache_consistent w -> _individuals (pop w) = Some l ->
  exists w1,
    Population_evaluation w = (Ok (evaluations w l), w1)
    /\ Population_evaluation w1 = (Ok (evaluations w l), w1)
    /\ _evaluation (pop w1) = Some (evaluations w l)
    /\ cache_consistent w1
    /\ _individuals (pop w1) = Some l
    /\ (forall r, heap w1 r = heap w r)
    /\ clock w1 = clock w.
Proof.
  intros Hc Hl.
  destruct (evaluation_twice w l Hc Hl) as (w1 & Hrun & Hagain & Hpop & Hheap & _ & _ & Hclock).
  exists w1. split; [exact Hrun|]. split; [exact Hagain|].
  rewrite Hpop. split; [reflexivity|]. split; [|split; [reflexivity|split]].
  - unfold cache_consistent. rewrite Hpop. cbn. exists l. split; [reflexivity|].
    unfold evaluations. rewrite Hheap. reflexivity.
  - intros r. rewrite Hheap. reflexivity.
  - exact Hclock.
Qed.

Lemma Population_evaluation_lazy_witness :
  let w := world_of (fun _ => 0%N)
             [sample_individual [0] [4] [1]; sample_individual [0] [4] [3]]
             np.sum 2 None in
  exists w1,
    Population_evaluation w = (Ok [1 + 0; 3 + 0], w1)
    /\ Population_evaluation w1 = (Ok [1 + 0; 3 + 0], w1)
    /\ clock w1 = clock w.
Proof.
  intros w.
  destruct (Population_evaluation_lazy w [0%nat; 1%nat]) as (w1 & H1 & H2 & _ & _ & _ & _ & H3).
  - exact I.
  - reflexivity.
  - exists w1. split; [exact H1|]. split; [exact H2|exact H3].
Defined.

Lemma local_Individual_initialize (self : ref) :
  local 0 (Individual_initialize self) any.
Proof.
  assert (forall r I, local 0 (store r I) any) by (intros; apply local_store; lia).
  unfold Individual_initialize. local_tac.
Qed.

Lemma Population_initialize_pop (dim : nat) (lo hi : list Q) (w w' : World)
  (o : outcome unit) :
  Population_initialize dim lo hi w = (o, w') ->
  exists l,
    pop w' = mkPopulation (_fun_evaluation (pop w)) (_size (pop w)) (Some l)
               (_evaluation (pop w)).
Proof.
  unfold Population_initialize. intros Hrun.
  apply bind_inv in Hrun. destruct Hrun as [(P & w0 & HP & Hrun)|(e & HP & _)];
    [|discriminate HP].
  injection HP as <- <-.
  destruct (alloc_loop dim lo hi (seq 0 (_size (pop w))) w)
    as (l & w1 & Hal & _ & _ & Hpop1 & _).
  rewrite (bind_ok _ _ _ _ _ Hal) in Hrun.
  apply bind_inv in Hrun. destruct Hrun as [([] & w2 & Hset & Hrun)|(e & Hset & _)];
    [|discriminate Hset].
  unfold set_individuals, bind, get_self, put_self in Hset. injection Hset as <-.
  assert (Hloc : local 0 (for_each l Individual_initialize) any).
  { apply local_for_each. intros x _. apply local_Individual_initialize. }
  destruct (Hloc _ _ _ (Nat.le_0_l _) Hrun) as ((Hpop & _) & _).
  exists l. rewrite Hpop. cbn. rewrite Hpop1. reflexivity.
Qed.

(** [Population.initialize] builds new individuals but does not reset
    [_evaluation]: an evaluation vector cached before the call is still
    the one [evaluation] returns after it, however the call ends. *)
Theorem Population_initialize_keeps_cache (dim : nat) (lo hi : list Q)
  (w w' : World) (o : outcome unit) (v : list Q) :
  _evaluation (pop w) = Some v ->
  Population_initialize dim lo hi w = (o, w') ->
  _evaluation (pop w') = Some v /\ Population_evaluation w' = (Ok v, w').
Proof.
  intros Hv Hrun. apply Population_initialize_pop in Hrun. destruct Hrun as (l & Hpop).
  assert (Hv' : _evaluation (pop w') = Some v) by (rewrite Hpop; exact Hv).
  split; [exact Hv'|]. rewrite Population_evaluation_run, Hv'. reflexivity.
Qed.

Lemma Population_initialize_keeps_cache_witness :
  let w := world_of (fun _ => 4503599627370496%N)
             [sample_individual [0] [4] [1]; sample_individual [0] [4] [3]]
             np.sum 2 (Some [1; 3]) in
  let w' := snd (Population_initialize 1 [0] [4] w) in
  Population_evaluation w' = (Ok [1; 3], w')
  /\ Forall2 Qeq (evaluations w' (default [] (_individuals (pop w')))) [2; 2].
Proof.
  intros w w'. split.
  - apply (Population_initialize_keeps_cache 1 [0] [4] w w'
             (fst (Population_initialize 1 [0] [4] w)) [1; 3]).
    + reflexivity.
    + apply surjective_pairing.
  - vm_compute. repeat constructor.
Defined.

Lemma Population_best_run (w w1 : World) (l : list ref) (k : nat) (r : ref) :
  Population_evaluation w = (Ok (evaluations w l), w1) ->
  _individuals (pop w1) = Some l ->
  np.argmin (evaluations w l) = Ok k -> l !! k = Some r ->
  Population_best w = (Ok (r, _fun_evaluation (pop w) (_chrom (heap w r))), w1).
Proof.
  intros Hrun Hl1 Hk Hr.
  pose proof (Population_evaluation_again _ _ _ Hrun) as Hagain.
  unfold Population_best.
  rewrite (bind_ok _ _ _ _ _ Hrun).
  unfold lift at 1. erewrite bind_ok by (rewrite Hk; reflexivity).
  erewrite bind_ok by (rewrite self_individuals_run, Hl1; reflexivity).
  unfold list_getitem at 1. rewrite Hr. erewrite bind_ok by reflexivity.
  rewrite (bind_ok _ _ _ _ _ Hagain).
  unfold list_getitem, evaluations. rewrite map_lookup, Hr. reflexivity.
Qed.

(** [best] on a population with at least one individual and a cache that
    is not stale: it returns the individual at the first position of the
    minimum evaluation together with that evaluation, which no other
    individual undercuts, and it alters no individual. *)
Theorem Population_best_minimum (w : World) (l : list ref) :
  cache_consistent w -> _individuals (pop w) = Some l -> l <> [] ->
  let eval := fun r => _fun_evaluation (pop w) (_chrom (heap w r)) in
  exists k r w1,
    Population_best w = (Ok (r, eval r), w1)
    /\ l !! k = Some r
    /\ (forall r', In r' l -> eval r <= eval r')
    /\ (forall j r', (j < k)%nat -> l !! j = Some r' -> eval r < eval r')
    /\ _individuals (pop w1) = Some l
    /\ (forall r', heap w1 r' = heap w r').
Proof.
  intros Hc Hl Hne eval.
  destruct (evaluation_twice w l Hc Hl) as (w1 & Hrun & _ & Hpop & Hheap & _).
  destruct (argmin_first (evaluations w l)) as (k & m & Hk & Hm & Hmin & Hfirst).
  { intros Hnil. apply Hne. eapply evaluations_nil. exact Hnil. }
  unfold evaluations in Hm. rewrite map_lookup in Hm.
  destruct (l !! k) as [r|] eqn:Hr; [|discriminate Hm]. injection Hm as <-.
  assert (Hl1 : _individuals (pop w1) = Some l) by (rewrite Hpop; reflexivity).
  exists k, r, w1. split; [|split; [exact Hr|split; [|split; [|split]]]].
  - exact (Population_best_run w w1 l k r Hrun Hl1 Hk Hr).
  - intros r' Hr'. apply Hmin. apply evaluations_In. exists r'. auto.
  - intros j r' Hj Hj'. apply (Hfirst j _ Hj).
    unfold evaluations. rewrite map_lookup, Hj'. reflexivity.
  - exact Hl1.
  - intros r'. rewrite Hheap. reflexivity.
Qed.

Lemma Population_best_minimum_witness :
  let w := world_of (fun _ => 0%N)
             [sample_individual [0] [4] [3]; sample_individual [0] [4] [1];
              sample_individual [0] [4] [1]]
             np.sum 3 None in
  exists k r w1,
    Population_best w = (Ok (r, _fun_evaluation (pop w) (_chrom (heap w r))), w1)
    /\ [0%nat; 1%nat; 2%nat] !! k = Some r
    /\ (forall j r', (j < k)%nat -> [0%nat; 1%nat; 2%nat] !! j = Some r' ->
          _fun_evaluation (pop w) (_chrom (heap w r))
          < _fun_evaluation (pop w) (_chrom (heap w r'))).
Proof.
  intros w.
  destruct (Population_best_minimum w [0%nat; 1%nat; 2%nat])
    as (k & r & w1 & Hrun & Hk & _ & Hfirst & _).
  - exact I.
  - reflexivity.
  - discriminate.
  - exists k, r, w1. split; [exact Hrun|]. split; [exact Hk|exact Hfirst].
Defined.

(** A population that was constructed but never initialised: [evaluation],
    [fitness], [best], [convergent] and [select] raise [TypeError] and
    leave everything as it was; [mutate] raises it too, after it has
    cleared the cache. *)
Theorem Population_uninitialised (fun_evaluation : list Q -> Q) (size : nat) (w : World) :
  let w0 := snd (Population__init__ fun_evaluation size w) in
  Population_evaluation w0 = (Raise TypeError, w0)
  /\ Population_fitness w0 = (Raise TypeError, w0)
  /\ Population_best w0 = (Raise TypeError, w0)
  /\ (forall tol, Population_convergent tol w0 = (Raise TypeError, w0))
  /\ Population_select w0 = (Raise TypeError, w0)
  /\ (forall num rate alpha,
        fst (Population_mutate num rate alpha w0) = Raise TypeError
        /\ pop (snd (Population_mutate num rate alpha w0)) = pop w0).
Proof.
  intros w0.
  assert (He : Population_evaluation w0 = (Raise TypeError, w0)) by reflexivity.
  split; [exact He|]. split; [|split; [|split; [|split]]].
  - apply Population_fitness_raise. exact He.
  - unfold Population_best. apply bind_raise. exact He.
  - intros tol. unfold Population_convergent. apply bind_raise. exact He.
  - unfold Population_select. apply bind_raise. apply Population_fitness_raise. exact He.
  - intros num rate alpha. split; reflexivity.
Qed.

(** On a population without individuals [best] and [convergent] raise the
    [ValueError] of [np.argmin] and [np.max] on an empty array. *)
Theorem Population_empty_queries (w : World) :
  cache_consistent w -> _individuals (pop w) = Some [] ->
  exists w1,
    Population_evaluation w = (Ok [], w1)
    /\ Population_best w = (Raise ValueError, w1)
    /\ forall tol, Population_convergent tol w = (Raise ValueError, w1).
Proof.
  intros Hc Hl. destruct (evaluation_twice w [] Hc Hl) as (w1 & Hrun & _).
  exists w1. split; [exact Hrun|]. split; [|intros tol].
  - unfold Population_best. rewrite (bind_ok _ _ _ _ _ Hrun). reflexivity.
  - unfold Population_convergent. rewrite (bind_ok _ _ _ _ _ Hrun). reflexivity.
Qed.

Lemma Population_empty_queries_witness :
  let w := snd ((Population__init__ np.sum 0 ;;; Population_initialize 2 [0; 0] [1; 1])
                  (world_of (fun _ => 0%N) [] np.sum 0 None)) in
  exists w1,
    Population_best w = (Raise ValueError, w1)
    /\ Population_convergent (1 # 1000000) w = (Raise ValueError, w1).
Proof.
  intros w. destruct (Population_empty_queries w) as (w1 & _ & Hb & Hc).
  - exact I.
  - reflexivity.
  - exists w1. split; [exact Hb|apply Hc].
Defined.

End QueryProperties.

(** ** More on [Population.select] *)

Section SelectProperties.
Local Open Scope Q_scope.

Lemma select_one_effect (C : list np.np_float) (w w' : World) (o : outcome ref) :
  select_one C w = (o, w') ->
  w' = tick 1 w
  /\ forall r l, o = Ok r -> _individuals (pop w) = Some l -> In r l.
Proof.
  unfold select_one, bind, np_random_rand. rewrite self_individuals_run.
  cbn [pop tick]. destruct (_individuals (pop w)) as [l|].
  - unfold list_getitem.
    destruct (l !! _) as [r|] eqn:Hr; intros Hrun; injection Hrun as <- <-.
    + split; [reflexivity|]. intros r' l' Hr' Hl'. injection Hr' as <-. injection Hl' as <-.
      apply list_elem_of_In. eapply list_elem_of_lookup_2. exact Hr.
    + split; [reflexivity|]. intros r l' Hr'. discriminate Hr'.
  - intros Hrun. injection Hrun as <- <-. split; [reflexivity|].
    intros r l' Hr'. discriminate Hr'.
Qed.

Lemma select_loop_effect (C : list np.np_float) (ns : list nat) :
  forall (w w' : World) (o : outcome (list ref)),
    list_comp ns (fun _ => select_one C) w = (o, w') ->
    heap w' = heap w /\ next w' = next w /\ pop w' = pop w /\ rng w' = rng w
    /\ forall sel l, o = Ok sel -> _individuals (pop w) = Some l ->
         Forall (fun r => In r l) sel /\ clock w' = (clock w + length ns)%nat.
Proof.
  induction ns as [|n ns IH]; intros w w' o Hrun; cbn [list_comp] in Hrun.
  - injection Hrun as <- <-. do 4 (split; [reflexivity|]).
    intros sel l Hs _. injection Hs as <-. split; [constructor|simpl; lia].
  - apply bind_inv in Hrun. destruct Hrun as [(r & w1 & Hone & Hrun)|(e & Hone & ->)].
    + apply select_one_effect in Hone. destruct Hone as (-> & Hin).
      apply bind_inv in Hrun. destruct Hrun as [(sel & w2 & Hrest & Hrun)|(e & Hrest & ->)].
      * injection Hrun as <- <-.
        destruct (IH _ _ _ Hrest) as (Hh & Hn & Hp & Hr & Hsel).
        do 4 (split; [assumption|]).
        intros sel' l Hs Hl. injection Hs as <-.
        destruct (Hsel sel l eq_refl Hl) as (Hall & Hc).
        split; [constructor; [eapply Hin; eauto|exact Hall]|].
        rewrite Hc. simpl. lia.
      * destruct (IH _ _ _ Hrest) as (Hh & Hn & Hp & Hr & Hsel).
        do 4 (split; [assumption|]).
        intros sel' l Hs. discriminate Hs.
    + apply select_one_effect in Hone. destruct Hone as (-> & _).
      do 4 (split; [reflexivity|]).
      intros sel' l Hs. discriminate Hs.
Qed.

(** [select], step by step, however it ends. *)
Lemma Population_select_cases (w w' : World) (o : outcome unit) :
  Population_select w = (o, w') ->
  exists w1 ow,
    Population_evaluation w = (ow, w1)
    /\ ((exists e, ow = Raise e /\ o = Raise e /\ w' = w1)
        \/ (exists f os w2,
              Population_fitness w = (Ok f, w1)
              /\ list_comp (seq 0 (_size (pop w1))) (fun _ => select_one (np.cumsum f)) w1
                 = (os, w2)
              /\ match os with
                 | Ok sel =>
                     o = Ok tt
                     /\ w' = set_pop (mkPopulation (_fun_evaluation (pop w2)) (_size (pop w2))
                                        (Some sel) None) w2
                 | Raise e => o = Raise e /\ w' = w2
                 end)).
Proof.
  intros Hrun. unfold Population_select in Hrun.
  destruct (Population_evaluation w) as [ow w1] eqn:Hev. exists w1, ow.
  split; [reflexivity|]. destruct ow as [V|e].
  - right. rewrite (bind_ok _ _ _ _ _ (Population_fitness_run _ _ _ Hev)) in Hrun.
    erewrite bind_ok in Hrun by reflexivity.
    destruct (list_comp (seq 0 (_size (pop w1)))
                (fun _ => select_one (np.cumsum (fitness_of V))) w1) as [os w2] eqn:Hloop.
    exists (fitness_of V), os, w2.
    split; [apply Population_fitness_run; exact Hev|]. split; [exact Hloop|].
    destruct os as [sel|e].
    + rewrite (bind_ok _ _ _ _ _ Hloop), assign_run in Hrun. injection Hrun as <- <-.
      split; reflexivity.
    + rewrite (bind_raise _ _ _ _ _ Hloop) in Hrun. injection Hrun as <- <-.
      split; reflexivity.
  - left. exists e.
    rewrite (bind_raise _ _ _ _ _ (Population_fitness_raise _ _ _ Hev)) in Hrun.
    injection Hrun as <- <-. split; [reflexivity|split; reflexivity].
Qed.

Lemma Population_select_effect (w w' : World) (l : list ref) :
  _individuals (pop w) = Some l ->
  Population_select w = (Ok tt, w') ->
  exists sel,
    _individuals (pop w') = Some sel
    /\ Forall (fun r => In r l) sel
    /\ heap w' = heap w
    /\ next w' = next w.
Proof.
  intros Hl Hrun.
  destruct (Population_select_cases _ _ _ Hrun) as (w1 & ow & Hev & Hcases).
  pose proof (Population_evaluation_effect _ _ _ Hev)
    as (_ & _ & Hheap & Hnext & Hind & _).
  destruct Hcases as [(e & _ & He & _)|(f & os & w2 & _ & Hloop & Hos)]; [discriminate He|].
  destruct (select_loop_effect _ _ _ _ _ Hloop) as (Hh & Hn & _ & _ & Hsel).
  destruct os as [sel|e]; [|destruct Hos as [He _]; discriminate He].
  destruct Hos as (_ & ->).
  destruct (Hsel sel l eq_refl ltac:(congruence)) as (Hin & _).
  exists sel. cbn [pop heap next set_pop _individuals].
  split; [reflexivity|]. split; [exact Hin|]. split; congruence.
Qed.

(** [select] only rearranges references.  However it ends, it creates no
    object and alters none.  When it returns, every slot of the new
    population holds an individual that was a member before, there are
    [_size] slots, and one number was drawn per slot; when it raises, the
    sequence of individuals is the one it was. *)
Theorem Population_select_members (w w' : World) (o : outcome unit) (l : list ref) :
  _individuals (pop w) = Some l ->
  Population_select w = (o, w') ->
  (forall r, heap w' r = heap w r)
  /\ next w' = next w
  /\ match o with
     | Ok _ =>
         exists sel,
           _individuals (pop w') = Some sel
           /\ length sel = _size (pop w)
           /\ Forall (fun r => In r l) sel
           /\ clock w' = (clock w + _size (pop w))%nat
     | Raise _ => _individuals (pop w') = Some l
     end.
Proof.
  intros Hl Hrun.
  destruct (Population_select_cases _ _ _ Hrun) as (w1 & ow & Hev & Hcases).
  pose proof (Population_evaluation_effect _ _ _ Hev)
    as (_ & Hclock & Hheap & Hnext & Hind & Hsize & _).
  destruct Hcases as [(e & _ & -> & ->)|(f & os & w2 & _ & Hloop & Hos)].
  - split; [intros r; rewrite Hheap; reflexivity|]. split; [exact Hnext|]. congruence.
  - destruct (select_loop_effect _ _ _ _ _ Hloop) as (Hh & Hn & Hp & _ & Hsel).
    destruct os as [sel|e].
    + destruct Hos as (-> & ->). cbn [pop heap next clock set_pop _individuals].
      split; [intros r; rewrite Hh, Hheap; reflexivity|]. split; [congruence|].
      destruct (Hsel sel l eq_refl ltac:(congruence)) as (Hin & Hc).
      exists sel. split; [reflexivity|]. split; [|split; [exact Hin|]].
      * apply list_comp_length in Hloop. rewrite length_seq in Hloop. congruence.
      * rewrite Hc, length_seq, Hclock, Hsize. reflexivity.
    + destruct Hos as (-> & ->).
      split; [intros r; rewrite Hh, Hheap; reflexivity|]. split; [congruence|].
      rewrite Hp. congruence.
Qed.

Lemma Population_select_members_witness :
  let w := world_of (fun t => if Nat.even t then 0%N else 9007199254740991%N)
             [sample_individual [0] [4] [1]; sample_individual [0] [4] [3]]
             np.sum 2 None in
  let w' := snd (Population_select w) in
  exists sel,
    _individuals (pop w') = Some sel
    /\ Forall (fun r => In r [0%nat; 1%nat]) sel
    /\ clock w' = 2%nat.
Proof.
  intros w w'.
  destruct (Population_select_members w w' (Ok tt) [0%nat; 1%nat]) as (_ & _ & sel & H1 & _ & H2 & H3).
  - reflexivity.
  - vm_compute. reflexivity.
  - exists sel. split; [exact H1|]. split; [exact H2|exact H3].
Defined.

Lemma cumsum_from_nan (x : list np.np_float) :
  Forall (fun a => a = np.NaN) x ->
  Forall (fun a => a = np.NaN) (np.cumsum_from np.NaN x).
Proof.
  induction 1 as [|a x Ha _ IH]; cbn [np.cumsum_from]; [constructor|].
  subst a. cbn. constructor; [reflexivity|exact IH].
Qed.

Lemma cumsum_nan (x : list np.np_float) :
  Forall (fun a => a = np.NaN) x -> Forall (fun a => a = np.NaN) (np.cumsum x).
Proof.
  destruct 1 as [|a x Ha Hx]; cbn [np.cumsum]; [constructor|].
  subst a. constructor; [reflexivity|]. apply cumsum_from_nan. exact Hx.
Qed.

Lemma roulette_index_nan (C : list np.np_float) (u : Q) :
  Forall (fun a => a = np.NaN) C -> roulette_index C u = O.
Proof.
  unfold roulette_index. induction 1 as [|a C Ha _ IH]; [reflexivity|].
  subst a. cbn. exact IH.
Qed.

Lemma lookup_repeat {A} (x : A) (n i : nat) :
  (i < n)%nat -> repeat x n !! i = Some x.
Proof.
  revert i. induction n as [|n IH]; intros i Hi; [lia|].
  destruct i as [|i]; [reflexivity|]. simpl. apply IH. lia.
Qed.

Lemma Population_select_nan (w : World) (r0 : ref) (l : list ref) :
  cache_consistent w -> _individuals (pop w) = Some (r0 :: l) ->
  np.sum (np.rsub (np.sum (np.abs (evaluations w (r0 :: l)))) (evaluations w (r0 :: l))) == 0 ->
  exists w',
    Population_select w = (Ok tt, w')
    /\ _individuals (pop w') = Some (repeat r0 (_size (pop w))).
Proof.
  intros Hc Hl HT. set (V := evaluations w (r0 :: l)) in *.
  destruct (evaluation_twice w _ Hc Hl) as (w1 & Hev & _ & Hpop & _).
  fold V in Hev, Hpop.
  assert (Hnan : Forall (fun a => a = np.NaN) (np.cumsum (fitness_of V))).
  { apply cumsum_nan. rewrite (fitness_of_degenerate V HT).
    apply Forall_forall. intros a Ha. apply in_map_iff in Ha.
    destruct Ha as (? & <- & _). reflexivity. }
  assert (Hl1 : _individuals (pop w1) = Some (r0 :: l)) by (rewrite Hpop; reflexivity).
  destruct (select_loop_run (np.cumsum (fitness_of V)) (r0 :: l) (_size (pop w1))
              ltac:(intros bits; rewrite (roulette_index_nan _ _ Hnan); simpl; lia)
              O w1 Hl1) as (sel & Hrun & Hlen & Hsel).
  eexists. split.
  - unfold Population_select.
    erewrite bind_ok by (apply Population_fitness_run; exact Hev).
    erewrite bind_ok by reflexivity.
    erewrite bind_ok by exact Hrun.
    rewrite assign_run. reflexivity.
  - cbn. f_equal.
    assert (Hsz : _size (pop w1) = _size (pop w)) by (rewrite Hpop; reflexivity).
    rewrite Hsz in Hlen, Hsel.
    apply list_eq. intros i.
    destruct (lt_dec i (_size (pop w))) as [Hi|Hi].
    + rewrite (Hsel i Hi), (roulette_index_nan _ _ Hnan).
      simpl. symmetry. apply lookup_repeat. exact Hi.
    + rewrite lookup_ge_None_2 by lia.
      symmetry. apply lookup_ge_None_2. rewrite repeat_length. lia.
Qed.

Lemma sum_all_zero (x : list Q) : Forall (fun v => v == 0) x -> np.sum x == 0.
Proof.
  unfold np.sum. induction 1 as [|a x Ha _ IH]; simpl; [reflexivity|].
  rewrite Ha, IH. reflexivity.
Qed.

(** When every individual evaluates to zero the normalising sum of the
    fitness is zero, the fitness vector holds only nan, every comparison
    in the roulette is false, and [select] fills every slot with the first
    individual: the population collapses to [_size] references to one
    object. *)
Theorem Population_select_degenerate (w : World) (r0 : ref) (l : list ref) :
  cache_consistent w -> _individuals (pop w) = Some (r0 :: l) ->
  Forall (fun v => v == 0) (evaluations w (r0 :: l)) ->
  exists w1 w',
    Population_fitness w = (Ok (map (fun _ => np.NaN) (r0 :: l)), w1)
    /\ Population_select w = (Ok tt, w')
    /\ _individuals (pop w') = Some (repeat r0 (_size (pop w)))
    /\ (forall r, heap w' r = heap w r).
Proof.
  intros Hc Hl Hzero. set (V := evaluations w (r0 :: l)) in *.
  assert (HT : np.sum (np.rsub (np.sum (np.abs V)) V) == 0).
  { assert (HS : np.sum (np.abs V) == 0).
    { apply sum_all_zero. unfold np.abs. apply Forall_forall. intros a Ha.
      apply in_map_iff in Ha. destruct Ha as (v & <- & Hv).
      rewrite (proj1 (Forall_forall _ _) Hzero v Hv). reflexivity. }
    apply sum_all_zero. unfold np.rsub. apply Forall_forall. intros a Ha.
    apply in_map_iff in Ha. destruct Ha as (v & <- & Hv).
    rewrite HS, (proj1 (Forall_forall _ _) Hzero v Hv). reflexivity. }
  destruct (evaluation_twice w _ Hc Hl) as (w1 & Hev & _).
  destruct (Population_select_nan w r0 l Hc Hl HT) as (w' & Hrun & Hsel).
  destruct (Population_select_effect w w' _ Hl Hrun) as (_ & _ & _ & Hh & _).
  exists w1, w'. split; [|split; [exact Hrun|split; [exact Hsel|]]].
  - rewrite (Population_fitness_run _ _ _ Hev). fold V.
    rewrite (fitness_of_degenerate V HT). unfold V, evaluations.
    rewrite map_map. reflexivity.
  - intros r. rewrite Hh. reflexivity.
Qed.

Lemma Population_select_degenerate_witness :
  let w := world_of (fun _ => 0%N)
             [sample_individual [-1] [1] [0]; sample_individual [-1] [1] [0];
              sample_individual [-1] [1] [0]]
             np.sum 3 None in
  exists w',
    Population_select w = (Ok tt, w')
    /\ _individuals (pop w') = Some [0%nat; 0%nat; 0%nat].
Proof.
  intros w.
  destruct (Population_select_degenerate w 0%nat [1%nat; 2%nat])
    as (w1 & w' & _ & Hrun & Hsel & _).
  - exact I.
  - reflexivity.
  - repeat constructor.
  - exists w'. split; [exact Hrun|exact Hsel].
Defined.

Lemma sum_app (x y : list Q) : np.sum (x ++ y) == np.sum x + np.sum y.
Proof.
  unfold np.sum. induction x as [|a x IH]; simpl; [lra|]. rewrite IH. lra.
Qed.

Lemma sum_take_S (x : list Q) (k : nat) (a : Q) :
  x !! k = Some a -> np.sum (take (S k) x) == np.sum (take k x) + a.
Proof.
  intros Ha. rewrite (take_S_r _ _ _ Ha), sum_app. unfold np.sum. simpl. lra.
Qed.

(** The roulette never lands on an entry of fitness zero: with a fitness
    vector [f] of non-negative entries the index picked for a draw
    [u >= 0] has a strictly positive entry. *)
Lemma roulette_positive (f : list Q) (u : Q) :
  Forall (fun q => 0 <= q) f -> 0 <= u ->
  forall a, f !! count_le u (qcumsum f) = Some a -> 0 < a.
Proof.
  intros Hf Hu a Ha.
  destruct (roulette_first_above f u Hf) as (Hbelow & Habove).
  set (k := count_le u (qcumsum f)) in *.
  assert (Hk : (k < length f)%nat) by (eapply lookup_lt_Some; exact Ha).
  destruct (qcumsum_lookup f k Hk) as (c & Hc & Hcs).
  pose proof (Habove c Hc) as Huc.
  rewrite (sum_take_S f k a Ha) in Hcs.
  destruct k as [|k'].
  - rewrite take_0 in Hcs. unfold np.sum in Hcs. simpl in Hcs. lra.
  - destruct (qcumsum_lookup f k' ltac:(lia)) as (c' & Hc' & Hcs').
    pose proof (Hbelow k' c' ltac:(lia) Hc') as Hle. lra.
Qed.

(** With a well-defined fitness vector, [select] never fills a slot from a
    position whose fitness is zero, that is, whose evaluation equals the
    sum [S] of the absolute values of all evaluations: whenever [select]
    returns, the evaluation at every position picked is strictly below
    [S]. *)
Theorem Population_select_skips_zero_fitness (w w1 w' : World) (V : list Q)
  (l : list ref) :
  Population_evaluation w = (Ok V, w1) ->
  _individuals (pop w) = Some l ->
  length l = _size (pop w) ->
  length V = length l ->
  (exists v, In v V /\ ~ v == 0) ->
  ((2 <= length V)%nat \/ (exists v, In v V /\ v < 0)) ->
  Population_select w = (Ok tt, w') ->
  exists sel,
    _individuals (pop w') = Some sel
    /\ forall i, (i < length l)%nat ->
         exists k r v,
           l !! k = Some r /\ sel !! i = Some r
           /\ V !! k = Some v /\ v < np.sum (np.abs V).
Proof.
  intros Hev Hl Hsize HV Hnz Hshape Hrun'.
  pose proof (fitness_total_pos V Hnz Hshape) as HT.
  destruct (Population_select_run w w1 V l Hev Hl Hsize HV HT)
    as (_ & sel & w0 & Hrun & Hpop & Hlen & _ & Hsel).
  rewrite Hrun in Hrun'. injection Hrun' as <-.
  exists sel. split; [rewrite Hpop; reflexivity|].
  intros i Hi. set (u := np.uniform (rng w (clock w + i))).
  set (k := count_le u (qcumsum (fitness_values V))).
  assert (Hk : (k < length V)%nat) by (apply roulette_index_in_range; exact HT).
  destruct (lookup_lt_is_Some_2 l k ltac:(lia)) as [r Hr].
  destruct (lookup_lt_is_Some_2 V k Hk) as [v Hv].
  exists k, r, v. split; [exact Hr|]. split; [rewrite (Hsel i Hi); exact Hr|].
  split; [exact Hv|].
  assert (Hfk : fitness_values V !! k
                = Some ((np.sum (np.abs V) - v)
                        / np.sum (np.rsub (np.sum (np.abs V)) V))).
  { unfold fitness_values. rewrite map_lookup, Hv. reflexivity. }
  pose proof (roulette_positive (fitness_values V) u (fitness_values_nonneg V HT)
                (proj1 (uniform_range _)) _ Hfk) as Hpos.
  set (S := np.sum (np.abs V)) in *. set (T := np.sum (np.rsub S V)) in *.
  assert (Hmul : 0 < (S - v) / T * T) by (apply Qmult_lt_0_compat; assumption).
  assert (Heq : (S - v) / T * T == S - v) by (field; lra).
  rewrite Heq in Hmul. lra.
Qed.

Lemma Population_select_skips_zero_fitness_witness :
  let w := world_of (fun t => if Nat.even t then 0%N else 9007199254740991%N)
             [sample_individual [0] [4] [0]; sample_individual [0] [4] [3]]
             np.sum 2 None in
  fst (Population_select w) = Ok tt
  /\ exists sel,
       _individuals (pop (snd (Population_select w))) = Some sel
       /\ forall i, (i < 2)%nat -> sel !! i = Some 0%nat.
Proof.
  intros w.
  assert (Hrun : Population_select w = (Ok tt, snd (Population_select w))).
  { transitivity (fst (Population_select w), snd (Population_select w));
      [apply surjective_pairing|]. f_equal; vm_compute; reflexivity. }
  split; [rewrite Hrun; reflexivity|].
  destruct (Population_select_skips_zero_fitness w (snd (Population_evaluation w))
              (snd (Population_select w)) [0 + 0; 3 + 0] [0%nat; 1%nat])
    as (sel & Hpop & Hsel).
  - vm_compute. reflexivity.
  - reflexivity.
  - reflexivity.
  - reflexivity.
  - exists (3 + 0). split; [right; left; reflexivity|]. intros H. vm_compute in H. discriminate H.
  - left. simpl. lia.
  - exact Hrun.
  - exists sel. split; [exact Hpop|].
    intros i Hi. destruct (Hsel i Hi) as (k & r & v & Hk & Hr & Hv & Hlt).
    destruct k as [|[|k]]; simpl in Hk, Hv.
    + injection Hk as <-. exact Hr.
    + injection Hv as <-. vm_compute in Hlt. discriminate Hlt.
    + discriminate Hk.
Defined.

End SelectProperties.

(** ** More on [Individual.mutate] and [Population.mutate] *)

Section MutateProperties.
Local Open Scope Q_scope.

(** One turn of [Individual.mutate], however it ends: an exception leaves
    the individual as it was; otherwise one gene [c] was replaced by its
    value moved the fraction [alpha] of the way to some number [b]. *)
Lemma Individual_mutate_at_cases (self : ref) (pos : Z) (alpha : Q)
  (w w' : World) (o : outcome unit) :
  Individual_mutate_at self pos alpha w = (o, w') ->
  (exists e, o = Raise e /\ w' = tick 1 w)
  \/ (exists i c b,
        o = Ok tt /\ _chrom (heap w self) !! i = Some c
        /\ w' = set_heap
                  (<[self := with_chrom (heap w self)
                       (<[i := creep (np.uniform (rng w (clock w))) c b b alpha]>
                          (_chrom (heap w self)))]> (heap w))
                  (tick 1 w)).
Proof.
  unfold Individual_mutate_at, bind, np_random_rand, load, lift, store, creep.
  cbn [heap tick rng clock].
  unfold np.getitem at 1. unfold obind.
  destruct (np.index (length (_chrom (heap w self))) pos) as [i|e] eqn:Hi;
    [|intros H; injection H as <- <-; left; eauto].
  destruct (_chrom (heap w self) !! i) as [c|] eqn:Hc;
    [|intros H; injection H as <- <-; left; eauto].
  unfold np.setitem, obind. rewrite Hi.
  destruct (negb _).
  - destruct (np.getitem (_lbound (heap w self)) pos) as [b|e];
      intros H; injection H as <- <-; [right|left; eauto].
    exists i, c, b. split; [reflexivity|]. split; [exact Hc|].
    reflexivity.
  - destruct (np.getitem (_ubound (heap w self)) pos) as [b|e];
      intros H; injection H as <- <-; [right|left; eauto].
    exists i, c, b. split; [reflexivity|]. split; [exact Hc|].
    reflexivity.
Qed.

Lemma same_frame_refl (I : Individual) : same_frame I I.
Proof. repeat split. Qed.

(** What one turn of [Individual.mutate] can reach: only the object
    [self], and of it only the chromosome. *)
Lemma Individual_mutate_at_footprint (self : ref) (pos : Z) (alpha : Q)
  (w w' : World) (o : outcome unit) :
  Individual_mutate_at self pos alpha w = (o, w') ->
  next w' = next w /\ pop w' = pop w
  /\ (forall r, same_frame (heap w r) (heap w' r)
                /\ length (_chrom (heap w' r)) = length (_chrom (heap w r))).
Proof.
  intros Hrun. apply Individual_mutate_at_cases in Hrun.
  destruct Hrun as [(e & -> & ->)|(i & c & b & -> & Hc & ->)].
  - split; [reflexivity|]. split; [reflexivity|].
    intros r. split; [apply same_frame_refl|reflexivity].
  - split; [reflexivity|]. split; [reflexivity|]. cbn [heap set_heap tick].
    intros r. destruct (Nat.eq_dec r self) as [->|Hne].
    + rewrite fn_lookup_insert. split; [repeat split|].
      cbn. apply length_insert.
    + rewrite fn_lookup_insert_ne by congruence.
      split; [apply same_frame_refl|reflexivity].
Qed.

Lemma shuffle_run {A} (i : nat) :
  forall (l : list A) (w : World), exists p, shuffle i l w = (Ok p, tick i w).
Proof.
  induction i as [|i IH]; intros l w; cbn [shuffle].
  - exists l. unfold ret, tick. destruct w; cbn. rewrite Nat.add_0_r. reflexivity.
  - erewrite bind_ok by reflexivity.
    destruct (IH (swap l (S i) (N.to_nat (rng w (clock w) mod N.of_nat (S (S i)))))
                (tick 1 w)) as (p & Hp).
    exists p. rewrite Hp, tick_tick. reflexivity.
Qed.

Lemma np_random_choice_run {A} (a : list A) (size : nat) (w : World) :
  (size <= length a)%nat ->
  exists c, np_random_choice a size w = (Ok c, tick (length a - 1) w).
Proof.
  intros Hs. unfold np_random_choice.
  destruct (Nat.leb_spec size (length a)) as [_|Hlt]; [|lia].
  unfold np_random_permutation.
  destruct (shuffle_run (length a - 1) a w) as (p & Hp).
  exists (take size p). rewrite (bind_ok _ _ _ _ _ Hp). reflexivity.
Qed.

Lemma np_random_choice_effect {A} (a : list A) (size : nat) (w w' : World)
  (o : outcome (list A)) :
  np_random_choice a size w = (o, w') ->
  heap w' = heap w /\ next w' = next w /\ pop w' = pop w /\ rng w' = rng w.
Proof.
  unfold np_random_choice. destruct (Nat.leb_spec size (length a)) as [Hs|Hlt].
  - destruct (np_random_choice_run a size w Hs) as (c & Hc).
    unfold np_random_choice in Hc.
    destruct (Nat.leb_spec size (length a)) as [_|Hlt]; [|lia].
    rewrite Hc. intros H. injection H as <- <-. repeat split.
  - intros H. injection H as <- <-. repeat split.
Qed.

Lemma for_each_app {A} (l1 l2 : list A) (body : A -> M unit) (w : World) :
  for_each (l1 ++ l2) body w = (for_each l1 body ;;; for_each l2 body) w.
Proof.
  revert w. induction l1 as [|x l1 IH]; intros w; cbn [for_each app].
  - reflexivity.
  - unfold bind. destruct (body x w) as [[[]|e] w1]; [|reflexivity].
    rewrite IH. reflexivity.
Qed.

Lemma Individual_mutate_footprint (self : ref) (alpha : Q) (positions : list Z) :
  forall (w w' : World) (o : outcome unit),
    Individual_mutate self positions alpha w = (o, w') ->
    next w' = next w /\ pop w' = pop w
    /\ (forall r, same_frame (heap w r) (heap w' r)
                  /\ length (_chrom (heap w' r)) = length (_chrom (heap w r)))
    /\ (forall r, r <> self -> heap w' r = heap w r).
Proof.
  unfold Individual_mutate.
  induction positions as [|pos ps IH]; intros w w' o Hrun; cbn [for_each] in Hrun.
  - injection Hrun as <- <-.
    split; [reflexivity|]. split; [reflexivity|]. split.
    + intros r. split; [apply same_frame_refl|reflexivity].
    + intros r _. reflexivity.
  - assert (Hstep : forall w1 o1, Individual_mutate_at self pos alpha w = (o1, w1) ->
                      next w1 = next w /\ pop w1 = pop w
                      /\ (forall r, same_frame (heap w r) (heap w1 r)
                            /\ length (_chrom (heap w1 r)) = length (_chrom (heap w r)))
                      /\ (forall r, r <> self -> heap w1 r = heap w r)).
    { intros w1 o1 H1.
      destruct (Individual_mutate_at_footprint _ _ _ _ _ _ H1) as (Hn & Hp & Hf).
      destruct (Individual_mutate_at_others _ _ _ _ _ _ H1) as (_ & Ho).
      auto. }
    apply bind_inv in Hrun. destruct Hrun as [([] & w1 & H1 & Hrun)|(e & H1 & _)].
    + destruct (Hstep _ _ H1) as (Hn & Hp & Hf & Ho).
      destruct (IH _ _ _ Hrun) as (Hn' & Hp' & Hf' & Ho').
      split; [congruence|]. split; [congruence|]. split.
      * intros r. destruct (Hf r) as [F1 L1]. destruct (Hf' r) as [F2 L2].
        split; [eapply same_frame_trans; eassumption|congruence].
      * intros r Hr. rewrite (Ho' r Hr). apply Ho, Hr.
    + apply Hstep in H1. exact H1.
Qed.

Lemma mutate_one_footprint (num : nat) (rate alpha : Q) (individual : ref)
  (w w' : World) (o : outcome unit) :
  mutate_one num rate alpha individual w = (o, w') ->
  next w' = next w /\ pop w' = pop w
  /\ (forall r, same_frame (heap w r) (heap w' r)
                /\ length (_chrom (heap w' r)) = length (_chrom (heap w r)))
  /\ (forall r, r <> individual -> heap w' r = heap w r)
  /\ (~ np.uniform (rng w (clock w)) <= rate -> o = Ok tt /\ w' = tick 1 w).
Proof.
  unfold mutate_one. intros Hrun.
  apply bind_inv in Hrun. destruct Hrun as [(u & w1 & Hu & Hrun)|(e & Hu & _)];
    [|discriminate Hu].
  injection Hu as <- <-.
  destruct (Qle_bool _ rate) eqn:Hle.
  - apply bind_inv in Hrun. destruct Hrun as [(I & w1 & HI & Hrun)|(e & HI & _)];
      [|discriminate HI].
    injection HI as <- <-.
    apply bind_inv in Hrun. destruct Hrun as [(ps & w2 & Hc & Hrun)|(e & Hc & _)].
    + destruct (np_random_choice_effect _ _ _ _ _ Hc) as (Hh & Hn & Hp & _).
      cbn [heap next pop tick] in Hh, Hn, Hp.
      destruct (Individual_mutate_footprint _ _ _ _ _ _ Hrun) as (Hn' & Hp' & Hf & Ho).
      split; [congruence|]. split; [congruence|]. split; [|split].
      * intros r. rewrite <- Hh. apply Hf.
      * intros r Hr. rewrite <- Hh. apply Ho, Hr.
      * intros Hn0. exfalso. apply Hn0. apply Qle_bool_iff. exact Hle.
    + destruct (np_random_choice_effect _ _ _ _ _ Hc) as (Hh & Hn & Hp & _).
      cbn [heap next pop tick] in Hh, Hn, Hp.
      split; [congruence|]. split; [congruence|]. split; [|split].
      * intros r. rewrite Hh. split; [apply same_frame_refl|reflexivity].
      * intros r _. rewrite Hh. reflexivity.
      * intros Hn0. exfalso. apply Hn0. apply Qle_bool_iff. exact Hle.
  - injection Hrun as <- <-.
    split; [reflexivity|]. split; [reflexivity|]. split; [|split].
    + intros r. split; [apply same_frame_refl|reflexivity].
    + intros r _. reflexivity.
    + intros _. split; reflexivity.
Qed.

Lemma mutate_loop_footprint (num : nat) (rate alpha : Q) (l : list ref) :
  forall (w w' : World) (o : outcome unit),
    for_each l (mutate_one num rate alpha) w = (o, w') ->
    next w' = next w /\ pop w' = pop w
    /\ (forall r, same_frame (heap w r) (heap w' r)
                  /\ length (_chrom (heap w' r)) = length (_chrom (heap w r)))
    /\ (forall r, ~ In r l -> heap w' r = heap w r).
Proof.
  induction l as [|x l IH]; intros w w' o Hrun; cbn [for_each] in Hrun.
  - injection Hrun as <- <-.
    split; [reflexivity|]. split; [reflexivity|]. split.
    + intros r. split; [apply same_frame_refl|reflexivity].
    + intros r _. reflexivity.
  - apply bind_inv in Hrun. destruct Hrun as [([] & w1 & H1 & Hrun)|(e & H1 & _)].
    + destruct (mutate_one_footprint _ _ _ _ _ _ _ H1) as (Hn & Hp & Hf & Ho & _).
      destruct (IH _ _ _ Hrun) as (Hn' & Hp' & Hf' & Ho').
      split; [congruence|]. split; [congruence|]. split.
      * intros r. destruct (Hf r) as [F1 L1]. destruct (Hf' r) as [F2 L2].
        split; [eapply same_frame_trans; eassumption|congruence].
      * intros r Hr. rewrite Ho'; [apply Ho|]; intros Hx; apply Hr; simpl; auto.
    + destruct (mutate_one_footprint _ _ _ _ _ _ _ H1) as (Hn & Hp & Hf & Ho & _).
      split; [exact Hn|]. split; [exact Hp|]. split; [exact Hf|].
      intros r Hr. apply Ho. intros Hx. apply Hr. simpl. auto.
Qed.

Lemma Population_mutate_start (num : nat) (rate alpha : Q) (w w' : World)
  (o : outcome unit) :
  Population_mutate num rate alpha w = (o, w') ->
  let w0 := set_pop (mkPopulation (_fun_evaluation (pop w)) (_size (pop w))
                       (_individuals (pop w)) None) w in
  match _individuals (pop w) with
  | Some l => for_each l (mutate_one num rate alpha) w0 = (o, w')
  | None => o = Raise TypeError /\ w' = w0
  end.
Proof.
  unfold Population_mutate. intros Hrun. cbv zeta.
  set (w0 := set_pop _ w).
  apply bind_inv in Hrun. destruct Hrun as [([] & w1 & H1 & Hrun)|(e & H1 & _)];
    [|discriminate H1].
  unfold set_evaluation, bind, get_self, put_self in H1. injection H1 as <-.
  fold w0 in Hrun.
  apply bind_inv in Hrun. rewrite self_individuals_run in Hrun.
  change (pop w0) with (mkPopulation (_fun_evaluation (pop w)) (_size (pop w))
                          (_individuals (pop w)) None) in Hrun.
  cbn [_individuals] in Hrun.
  destruct (_individuals (pop w)) as [l|].
  - destruct Hrun as [(l' & w1 & H1 & Hrun)|(e & H1 & _)]; [|discriminate H1].
    injection H1 as <- <-. exact Hrun.
  - destruct Hrun as [(l' & w1 & H1 & Hrun)|(e & H1 & ->)]; [discriminate H1|].
    injection H1 as <- <-. split; reflexivity.
Qed.

(** [Population.mutate] works in place and only on the members, however
    it ends: it creates no object, leaves every object that is not a member
    exactly as it was, changes neither the dimension nor the bounds nor the
    number of genes of any object, and keeps the sequence of individuals;
    what it always does is clear the evaluation cache. *)
Theorem Population_mutate_footprint (num : nat) (rate alpha : Q) (w w' : World)
  (o : outcome unit) (l : list ref) :
  _individuals (pop w) = Some l ->
  Population_mutate num rate alpha w = (o, w') ->
  _individuals (pop w') = Some l
  /\ _evaluation (pop w') = None
  /\ next w' = next w
  /\ (forall r, ~ In r l -> heap w' r = heap w r)
  /\ (forall r, same_frame (heap w r) (heap w' r)
                /\ length (_chrom (heap w' r)) = length (_chrom (heap w r))).
Proof.
  intros Hl Hrun. apply Population_mutate_start in Hrun. rewrite Hl in Hrun.
  destruct (mutate_loop_footprint _ _ _ _ _ _ _ Hrun) as (Hn & Hp & Hf & Ho).
  rewrite Hp. cbn [pop set_pop _individuals _evaluation].
  split; [reflexivity|]. split; [reflexivity|]. split; [exact Hn|]. split; [exact Ho|exact Hf].
Qed.

Lemma Population_mutate_footprint_witness :
  let w := world_of (fun _ => 0%N)
             [sample_individual [-1; -1] [3; 3] [1; 2];
              sample_individual [-1; -1] [3; 3] [3; 0];
              sample_individual [-1; -1] [3; 3] [2; 2]]
             np.sum 2 (Some [3; 3]) in
  let w0 := set_pop (mkPopulation np.sum 2 (Some [0%nat; 1%nat]) (Some [3; 3])) w in
  let w' := snd (Population_mutate 1 1 (1#2) w0) in
  _individuals (pop w') = Some [0%nat; 1%nat]
  /\ heap w' 2%nat = heap w0 2%nat
  /\ _chrom (heap w' 0%nat) <> _chrom (heap w0 0%nat).
Proof.
  intros w w0 w'.
  destruct (Population_mutate_footprint 1 1 (1#2) w0 w'
              (fst (Population_mutate 1 1 (1#2) w0)) [0%nat; 1%nat])
    as (Hl & _ & _ & Ho & _).
  - reflexivity.
  - apply surjective_pairing.
  - split; [exact Hl|]. split.
    + apply Ho. intros [H|[H|[]]]; discriminate H.
    + vm_compute. discriminate.
Defined.

(** Asking for more positions than an individual has genes: the first
    individual that the rate lets through makes [np.random.choice] raise
    [ValueError]; when that is the first member, no chromosome has changed
    but the evaluation cache is gone. *)
Theorem Population_mutate_too_many_positions (num : nat) (rate alpha : Q)
  (w : World) (r : ref) (l : list ref) :
  _individuals (pop w) = Some (r :: l) ->
  np.uniform (rng w (clock w)) <= rate ->
  (_dim (heap w r) < num)%nat ->
  exists w',
    Population_mutate num rate alpha w = (Raise ValueError, w')
    /\ (forall r', heap w' r' = heap w r')
    /\ _individuals (pop w') = Some (r :: l)
    /\ _evaluation (pop w') = None.
Proof.
  intros Hl Hu Hnum.
  set (w0 := set_pop (mkPopulation (_fun_evaluation (pop w)) (_size (pop w))
                        (_individuals (pop w)) None) w).
  exists (tick 1 w0). split; [|split; [|split]].
  - unfold Population_mutate.
    erewrite bind_ok by reflexivity.
    erewrite bind_ok
      by (rewrite self_individuals_run; cbn [pop set_pop _individuals];
          rewrite Hl; reflexivity).
    cbn [for_each]. apply bind_raise. unfold mutate_one.
    erewrite bind_ok by reflexivity.
    apply Qle_bool_iff in Hu. cbn [rng clock set_pop]. rewrite Hu.
    erewrite bind_ok by reflexivity.
    apply bind_raise. unfold np_random_choice. cbn [heap tick set_pop].
    rewrite length_seq.
    destruct (Nat.leb_spec num (_dim (heap w r))) as [Hle|_]; [lia|].
    rewrite <- Hl. reflexivity.
  - intros r'. reflexivity.
  - cbn. exact Hl.
  - reflexivity.
Qed.

Lemma Population_mutate_too_many_positions_witness :
  let w := world_of (fun _ => 0%N)
             [sample_individual [-1; -1] [3; 3] [1; 2];
              sample_individual [-1; -1] [3; 3] [3; 0]]
             np.sum 2 (Some [3; 3]) in
  exists w',
    Population_mutate 3 (8 # 100) (1#2) w = (Raise ValueError, w')
    /\ _evaluation (pop w') = None.
Proof.
  intros w.
  destruct (Population_mutate_too_many_positions 3 (8 # 100) (1#2) w 0%nat [1%nat])
    as (w' & Hrun & _ & _ & Hc).
  - reflexivity.
  - vm_compute. discriminate.
  - simpl. lia.
  - exists w'. split; [exact Hrun|exact Hc].
Defined.

End MutateProperties.

(** ** More on [cross_individuals] and [Population.crossover] *)

Section CrossoverProperties.
Local Open Scope Q_scope.

(** The children of [cross_individuals] are objects that did not exist
    before the call. *)
Lemma cross_individuals_fresh (w w' : World) (ra rb r1 r2 : ref) (alpha : Q) :
  cross_individuals ra rb alpha w = (Ok (r1, r2), w') ->
  (next w <= r1 < next w')%nat /\ (next w <= r2 < next w')%nat.
Proof.
  intros H. unfold cross_individuals in H.
  apply bind_inv_ok in H as (a & u0 & H1 & H); inversion H1; clear H1; try subst a; subst u0.
  apply bind_inv_ok in H as (b & u1 & H1 & H); inversion H1; clear H1; try subst b; subst u1.
  apply bind_inv_ok in H as (draws & u2 & H1 & H); inversion H1; clear H1; try subst draws; subst u2.
  apply bind_inv_ok in H as (ap & u3 & H1 & H); inversion H1; clear H1; try subst ap; subst u3.
  apply bind_inv_ok in H as (bp & u4 & H1 & H); inversion H1; clear H1; try subst bp; subst u4.
  apply bind_inv_ok in H as (va & u5 & H1 & H); inversion H1; clear H1; try subst va; subst u5.
  apply bind_inv_ok in H as (ap' & u6 & H1 & H); inversion H1; clear H1; try subst ap'; subst u6.
  apply bind_inv_ok in H as (bp' & u7 & H1 & H); inversion H1; clear H1; try subst bp'; subst u7.
  apply bind_inv_ok in H as (vb & u8 & H1 & H); inversion H1; clear H1; try subst vb; subst u8.
  apply bind_inv_ok in H as (na & u9 & H1 & H); inversion H1; clear H1; try subst na; subst u9.
  apply bind_inv_ok in H as (nb & u10 & H1 & H); inversion H1; clear H1; try subst nb; subst u10.
  cbn [rng clock junk heap next pop tick] in H.
  set (w2 := mkWorld _ _ _ _ _ _) in H.
  apply bind_inv_ok in H as ([] & w3 & Hseta & H).
  apply bind_inv_ok in H as ([] & w4 & Hsetb & H).
  inversion H; subst; clear H.
  destruct (local_Individual_set_chrom 0 _ _ (Nat.le_0_l _) _ _ _ (Nat.le_0_l _) Hseta)
    as ((_ & Hn3 & _) & _).
  destruct (local_Individual_set_chrom 0 _ _ (Nat.le_0_l _) _ _ _ (Nat.le_0_l _) Hsetb)
    as ((_ & Hn4 & _) & _).
  assert (Hn2 : next w2 = S (S (next w))) by reflexivity.
  lia.
Qed.

Lemma crossover_loop_provenance (rate alpha : Q) (pairs : list (ref * ref)) :
  forall (P : ref -> Prop) (acc new : list ref) (w w' : World),
    Forall (fun ab => P (fst ab) /\ P (snd ab)) pairs ->
    Forall P acc ->
    crossover_loop pairs rate alpha acc w = (Ok new, w') ->
    (next w <= next w')%nat
    /\ Forall (fun r => P r \/ (next w <= r < next w')%nat) new.
Proof.
  induction pairs as [|[ra rb] pairs IH]; intros P acc new w w' Hp Hacc Hrun;
    cbn [crossover_loop] in Hrun.
  - injection Hrun as <- <-. split; [lia|].
    eapply Forall_impl; [|exact Hacc]. auto.
  - apply bind_inv_ok in Hrun as (u & w1 & Hu & Hrun). injection Hu as <- <-.
    pose proof (Forall_inv Hp) as [Pa Pb]. pose proof (Forall_inv_tail Hp) as Hp'.
    cbn [fst snd] in Pa, Pb.
    destruct (Qle_bool _ rate).
    + apply bind_inv_ok in Hrun as ([r1 r2] & w2 & Hc & Hrun).
      destruct (cross_individuals_fresh _ _ _ _ _ _ _ Hc) as (F1 & F2).
      cbn [next tick] in F1, F2. cbn [fst snd] in Hrun.
      destruct (IH (fun r => P r \/ (next w <= r < next w2)%nat) _ _ _ _
                  ltac:(eapply Forall_impl; [|exact Hp']; cbv beta; tauto)
                  ltac:(apply Forall_app; split;
                        [eapply Forall_impl; [|exact Hacc]; cbv beta; tauto
                        |constructor; [right; exact F1|constructor; [right; exact F2|constructor]]])
                  Hrun) as (Hn & Hall).
      split; [lia|]. eapply Forall_impl; [|exact Hall]. cbv beta. intros r [[H|H]|H]; auto.
      * right. lia.
      * right. lia.
    + destruct (IH P _ _ _ _ Hp'
                  ltac:(apply Forall_app; split;
                        [exact Hacc|constructor; [exact Pa|constructor; [exact Pb|constructor]]])
                  Hrun) as (Hn & Hall).
      cbn [next tick] in Hn, Hall. split; [exact Hn|exact Hall].
Qed.

Lemma Population_crossover_effect (rate alpha : Q) (w w' : World) (l : list ref) :
  _individuals (pop w) = Some l ->
  Population_crossover rate alpha w = (Ok tt, w') ->
  exists l',
    _individuals (pop w') = Some l'
    /\ length l' = _size (pop w)
    /\ Forall (fun r => In r l \/ (next w <= r < next w')%nat) l'
    /\ (forall r, (r < next w)%nat -> heap w' r = heap w r).
Proof.
  intros Hl Hrun.
  destruct (Population_crossover_inv _ _ _ _ _ Hrun) as [(_ & l' & Hlen & Hpop)|(e & He & _)];
    [|discriminate He].
  unfold Population_crossover in Hrun.
  apply bind_inv_ok in Hrun as (l0 & w1 & H1 & Hrun).
  rewrite individuals_as_array_run, Hl in H1. injection H1 as <- <-.
  apply bind_inv_ok in Hrun as (rp & w2 & H2 & Hrun).
  assert (Hrp : Forall (fun r => In r l) rp).
  { eapply shuffle_Forall; [|exact H2]. apply Forall_forall. auto. }
  destruct (local_permutation (next w) l _ _ _ (Nat.le_refl _) H2) as ((_ & Hn2 & _ & Hh2) & _).
  apply bind_inv_ok in Hrun as (new & w3 & H3 & Hrun).
  destruct (local_crossover_loop (next w) _ _ _ _ _ _ _ Hn2 H3) as ((_ & _ & _ & Hh3) & _).
  destruct (crossover_loop_provenance rate alpha (zip l rp) (fun r => In r l) [] new w2 w3)
    as (Hn3 & Hnew).
  { apply (zip_Forall (fun r => In r l) (fun r => In r l)); [apply Forall_forall; auto|exact Hrp]. }
  { constructor. }
  { exact H3. }
  apply bind_inv_ok in Hrun as (P & w4 & H4 & Hrun). injection H4 as <- <-.
  apply bind_inv_ok in Hrun as (chosen & w5 & H5 & Hrun).
  pose proof (choice_Forall _ _ _ _ _ _ Hnew H5) as Hch.
  destruct (np_random_choice_effect _ _ _ _ _ H5) as (Hh5 & Hn5 & _).
  rewrite assign_run in Hrun. injection Hrun as <-.
  exists chosen. cbn [pop set_pop _individuals next heap].
  split; [reflexivity|]. split; [|split].
  - cbn [pop set_pop] in Hpop. injection Hpop as _ _ Hc. rewrite Hc. exact Hlen.
  - eapply Forall_impl; [|exact Hch]. cbv beta. intros r [H|H]; [left; exact H|right; lia].
  - intros r Hr.
    rewrite Hh5, (Hh3 r Hr). apply (Hh2 r Hr).
Qed.

(** [crossover] never changes a parent in place.  However it ends, every
    object that existed before the call is exactly as it was.  When it
    returns, each of the [_size] members of the new population is either a
    member of the old one or an object created by this call; when it
    raises, the population object is as it was, cache included. *)
Theorem Population_crossover_provenance (rate alpha : Q) (w w' : World)
  (o : outcome unit) (l : list ref) :
  _individuals (pop w) = Some l ->
  Population_crossover rate alpha w = (o, w') ->
  (forall r, (r < next w)%nat -> heap w' r = heap w r)
  /\ match o with
     | Ok _ =>
         exists l',
           _individuals (pop w') = Some l'
           /\ length l' = _size (pop w)
           /\ Forall (fun r => In r l \/ (next w <= r < next w')%nat) l'
     | Raise _ => pop w' = pop w
     end.
Proof.
  intros Hl Hrun. destruct o as [[]|e].
  - destruct (Population_crossover_effect rate alpha w w' l Hl Hrun)
      as (l' & Hl' & Hlen & Hall & Hold).
    split; [exact Hold|]. exists l'. split; [exact Hl'|]. split; [exact Hlen|exact Hall].
  - destruct (Population_crossover_inv _ _ _ _ _ Hrun) as [(He & _)|(e' & _ & Hp & _ & _ & Hh)];
      [discriminate He|].
    split; [exact Hh|exact Hp].
Qed.

Lemma Population_crossover_provenance_witness :
  let w := world_of (fun t => if Nat.even t then 0%N else 9007199254740991%N)
             [sample_individual [-1; -1] [3; 3] [1; 2];
              sample_individual [-1; -1] [3; 3] [3; 0]]
             np.sum 2 None in
  let w' := snd (Population_crossover 1 (1#4) w) in
  fst (Population_crossover 1 (1#4) w) = Ok tt
  /\ heap w' 0%nat = heap w 0%nat /\ heap w' 1%nat = heap w 1%nat.
Proof.
  intros w w'.
  destruct (Population_crossover_provenance 1 (1#4) w w'
              (fst (Population_crossover 1 (1#4) w)) [0%nat; 1%nat])
    as (Hold & _).
  - reflexivity.
  - apply surjective_pairing.
  - split; [vm_compute; reflexivity|]. split; apply Hold; simpl; lia.
Defined.

End CrossoverProperties.

(** ** When [Population.mutate] returns *)

Section MutateReturns.
Local Open Scope Q_scope.

Lemma index_of_nat (n p : nat) : (p < n)%nat -> np.index n (Z.of_nat p) = Ok p.
Proof.
  intros Hp. unfold np.index.
  destruct (Z.leb_spec 0 (Z.of_nat p)) as [_|H]; [|lia].
  destruct (Z.ltb_spec (Z.of_nat p) (Z.of_nat n)) as [_|H]; [|lia].
  cbn. rewrite Nat2Z.id. reflexivity.
Qed.

Lemma in_seq_lt (n : nat) : Forall (fun p => (p < n)%nat) (seq 0 n).
Proof. apply Forall_forall. intros p Hp. apply in_seq in Hp. lia. Qed.

Lemma formed_kept (d : nat) (w w' : World) (r : ref) :
  (forall r', same_frame (heap w r') (heap w' r')
              /\ length (_chrom (heap w' r')) = length (_chrom (heap w r'))) ->
  formed d w r -> formed d w' r.
Proof.
  intros Hf (Hd & Hc & Hl & Hu). destruct (Hf r) as ((Hd' & Hl' & Hu') & Hc').
  unfold formed. rewrite Hd', Hl', Hu', Hc'. auto.
Qed.

Lemma Individual_mutate_returns (d : nat) (self : ref) (alpha : Q) :
  forall (ps : list nat) (w : World),
    formed d w self -> Forall (fun p => (p < d)%nat) ps ->
    exists w', Individual_mutate self (map Z.of_nat ps) alpha w = (Ok tt, w').
Proof.
  unfold Individual_mutate.
  induction ps as [|p ps IH]; intros w Hf Hps; cbn [map for_each].
  - exists w. reflexivity.
  - pose proof (Forall_inv Hps) as Hp. pose proof (Forall_inv_tail Hps) as Hps'.
    pose proof Hf as (Hd & Hc & Hl & Hu).
    destruct (Individual_mutate_at_ok w self (Z.of_nat p) alpha p
                ltac:(split; congruence) ltac:(congruence)
                ltac:(rewrite Hd; apply index_of_nat; exact Hp))
      as (c & l & h & _ & _ & _ & Hrun).
    rewrite (bind_ok _ _ _ _ _ Hrun).
    apply IH; [|exact Hps'].
    destruct (Individual_mutate_at_footprint _ _ _ _ _ _ Hrun) as (_ & _ & Hfp).
    exact (formed_kept d _ _ self Hfp Hf).
Qed.

Lemma mutate_one_returns (d num : nat) (rate alpha : Q) (individual : ref) (w : World) :
  formed d w individual -> (num <= d)%nat ->
  exists w', mutate_one num rate alpha individual w = (Ok tt, w').
Proof.
  intros Hf Hnum. unfold mutate_one.
  erewrite bind_ok by reflexivity.
  destruct (Qle_bool _ rate); [|eexists; reflexivity].
  erewrite bind_ok by reflexivity. cbn [heap tick].
  pose proof Hf as (Hd & _).
  destruct (np_random_choice_run (seq 0 (_dim (heap w individual))) num (tick 1 w))
    as (ps & Hps).
  { rewrite length_seq, Hd. exact Hnum. }
  rewrite (bind_ok _ _ _ _ _ Hps).
  apply (Individual_mutate_returns d individual alpha ps); [exact Hf|].
  eapply choice_Forall; [|exact Hps]. rewrite Hd. apply in_seq_lt.
Qed.

Lemma mutate_loop_returns (d num : nat) (rate alpha : Q) :
  (num <= d)%nat ->
  forall (l : list ref) (w : World),
    Forall (formed d w) l ->
    exists w', for_each l (mutate_one num rate alpha) w = (Ok tt, w').
Proof.
  intros Hnum. induction l as [|r l IH]; intros w Hl; cbn [for_each].
  - exists w. reflexivity.
  - pose proof (Forall_inv Hl) as Hf. pose proof (Forall_inv_tail Hl) as Hl'.
    destruct (mutate_one_returns d num rate alpha r w Hf Hnum) as (w1 & Hrun).
    rewrite (bind_ok _ _ _ _ _ Hrun).
    destruct (mutate_one_footprint _ _ _ _ _ _ _ Hrun) as (_ & _ & Hfp & _).
    apply IH. eapply Forall_impl; [|exact Hl']. cbv beta. intros r'.
    apply formed_kept. exact Hfp.
Qed.

(** [Population.mutate] never raises when every member has the dimension
    [d], with [d >= 1], a chromosome and bound vectors of [d] entries, and
    at most [d] positions are asked for: whatever the rate, the magnitude
    and the draws, it returns.  The members are the same objects at the
    same positions, still of that shape; no object was created, no object
    outside the population was touched, and the cache is gone. *)
Theorem Population_mutate_total (d num : nat) (rate alpha : Q) (w : World)
  (l : list ref) :
  _individuals (pop w) = Some l -> Forall (formed d w) l ->
  (1 <= d)%nat -> (num <= d)%nat ->
  exists w',
    Population_mutate num rate alpha w = (Ok tt, w')
    /\ _evaluation (pop w') = None
    /\ _individuals (pop w') = Some l
    /\ Forall (formed d w') l
    /\ next w' = next w
    /\ (forall r, ~ In r l -> heap w' r = heap w r).
Proof.
  intros Hl Hall _ Hnum.
  set (w0 := set_pop (mkPopulation (_fun_evaluation (pop w)) (_size (pop w))
                        (_individuals (pop w)) None) w).
  destruct (mutate_loop_returns d num rate alpha Hnum l w0) as (w' & Hloop).
  { exact Hall. }
  assert (Hrun : Population_mutate num rate alpha w = (Ok tt, w')).
  { unfold Population_mutate. erewrite bind_ok by reflexivity.
    erewrite bind_ok
      by (rewrite self_individuals_run; cbn [pop set_pop _individuals];
          rewrite Hl; reflexivity).
    rewrite <- Hl. exact Hloop. }
  destruct (mutate_loop_footprint _ _ _ _ _ _ _ Hloop) as (Hn & Hp & Hf & Ho).
  exists w'. split; [exact Hrun|].
  rewrite Hp. unfold w0 at 1 2. cbn [pop set_pop _evaluation _individuals].
  split; [reflexivity|]. split; [exact Hl|]. split; [|split; [exact Hn|exact Ho]].
  eapply Forall_impl; [|exact Hall]. cbv beta. intros r. apply formed_kept. exact Hf.
Qed.

Lemma Population_mutate_total_witness :
  let w := world_of (fun t => if Nat.even t then 0%N else 9007199254740991%N)
             [sample_individual [-1; -1] [3; 3] [1; 2];
              sample_individual [-1; -1] [3; 3] [3; 0]]
             np.sum 2 (Some [3; 3]) in
  exists w',
    Population_mutate 2 (1#2) 5 w = (Ok tt, w')
    /\ _evaluation (pop w') = None
    /\ _individuals (pop w') = Some [0%nat; 1%nat].
Proof.
  intros w.
  destruct (Population_mutate_total 2 2 (1#2) 5 w [0%nat; 1%nat])
    as (w' & Hrun & Hc & Hl & _).
  - reflexivity.
  - repeat constructor.
  - lia.
  - lia.
  - exists w'. split; [exact Hrun|]. split; [exact Hc|exact Hl].
Defined.

End MutateReturns.

(** ** The monolithic driver: [GA.__init__] and [GA.solve] *)

Section MonolithicDriver.
Local Open Scope Q_scope.

Variable float_pow : Q -> Q -> Q.

Lemma inv_bind {A B} (I : World -> Prop) (m : M A) (k : A -> M B) :
  (forall w w' o, m w = (o, w') -> I w -> I w') ->
  (forall a w w' o, k a w = (o, w') -> I w -> I w') ->
  forall w w' o, bind m k w = (o, w') -> I w -> I w'.
Proof.
  intros Hm Hk w w' o Hrun HI. apply bind_inv in Hrun.
  destruct Hrun as [(a & w1 & H1 & H2)|(e & H1 & _)].
  - eapply Hk; [exact H2|]. eapply Hm; eassumption.
  - eapply Hm; eassumption.
Qed.

Lemma inv_same {A} (I : World -> Prop) (m : M A) :
  (forall w, snd (m w) = w) -> forall w w' o, m w = (o, w') -> I w -> I w'.
Proof.
  intros Hm w w' o Hrun HI. pose proof (Hm w) as H. rewrite Hrun in H.
  simpl in H. subst. exact HI.
Qed.

Section Sized.

Variable N : nat.

Lemma sized_evaluation (w w' : World) (o : outcome (list Q)) :
  Population_evaluation w = (o, w') -> sized N w -> sized N w'.
Proof.
  intros Hrun ((l & Hl & Hlen) & Hsize).
  pose proof (Population_evaluation_effect _ _ _ Hrun) as (_ & _ & _ & _ & Hi & Hsz & _).
  split; [|congruence]. exists l. split; [congruence|exact Hlen].
Qed.

Lemma sized_select (w w' : World) (o : outcome unit) :
  Population_select w = (o, w') -> sized N w -> sized N w'.
Proof.
  intros Hrun ((l & Hl & Hlen) & Hsize).
  destruct (Population_select_inv _ _ _ Hrun) as [(_ & l' & Hlen' & Hpop)|(e & _ & Hi & Hsz & _)].
  - unfold sized, holds. rewrite Hpop. cbn. split; [|exact Hsize].
    exists l'. split; [reflexivity|congruence].
  - split; [|congruence]. exists l. split; [congruence|exact Hlen].
Qed.

Lemma sized_crossover (rate alpha : Q) (w w' : World) (o : outcome unit) :
  Population_crossover rate alpha w = (o, w') -> sized N w -> sized N w'.
Proof.
  intros Hrun ((l & Hl & Hlen) & Hsize).
  destruct (Population_crossover_inv _ _ _ _ _ Hrun) as [(_ & l' & Hlen' & Hpop)|(e & _ & Hp & _)].
  - unfold sized, holds. rewrite Hpop. cbn. split; [|exact Hsize].
    exists l'. split; [reflexivity|congruence].
  - unfold sized, holds. rewrite Hp. split; [|exact Hsize]. exists l. split; assumption.
Qed.

Lemma sized_mutate (num : nat) (rate alpha : Q) (w w' : World) (o : outcome unit) :
  Population_mutate num rate alpha w = (o, w') -> sized N w -> sized N w'.
Proof.
  intros Hrun ((l & Hl & Hlen) & Hsize).
  unfold sized, holds. rewrite (Population_mutate_inv _ _ _ _ _ _ Hrun). cbn.
  split; [|exact Hsize]. exists l. split; assumption.
Qed.

Lemma sized_convergent (tol : Q) (w w' : World) (o : outcome bool) :
  Population_convergent tol w = (o, w') -> sized N w -> sized N w'.
Proof.
  unfold Population_convergent.
  apply (inv_bind (sized N)); [apply sized_evaluation|intros V].
  apply (inv_bind (sized N)); [apply inv_same; reflexivity|intros mx].
  apply (inv_bind (sized N)); [apply sized_evaluation|intros V'].
  apply (inv_bind (sized N)); [apply inv_same; reflexivity|intros mn].
  apply inv_same. reflexivity.
Qed.

Lemma sized_best (w w' : World) (o : outcome (ref * Q)) :
  Population_best w = (o, w') -> sized N w -> sized N w'.
Proof.
  unfold Population_best.
  apply (inv_bind (sized N)); [apply sized_evaluation|intros V].
  apply (inv_bind (sized N)); [apply inv_same; reflexivity|intros pos].
  apply (inv_bind (sized N));
    [apply inv_same; intros w0; rewrite self_individuals_run;
     destruct (_individuals (pop w0)); reflexivity|intros l].
  apply (inv_bind (sized N));
    [apply inv_same; intros w0; unfold list_getitem; destruct (l !! pos); reflexivity|intros r].
  apply (inv_bind (sized N)); [apply sized_evaluation|intros V'].
  apply (inv_bind (sized N));
    [apply inv_same; intros w0; unfold list_getitem; destruct (V' !! pos); reflexivity|intros v].
  apply inv_same. reflexivity.
Qed.

Lemma sized_generation (self : Monolithic.GA) (current_gen : nat) (w w' : World)
  (o : outcome bool) :
  Monolithic.solve_generation float_pow self current_gen w = (o, w') ->
  sized N w -> sized N w'.
Proof.
  unfold Monolithic.solve_generation. cbv zeta. revert w w' o.
  apply (inv_bind (sized N)).
  { intros w w' o H Hk. injection H as _ <-. exact Hk. }
  intros u.
  apply (inv_bind (sized N)); [apply sized_select|intros _].
  apply (inv_bind (sized N)); [apply sized_crossover|intros _].
  apply (inv_bind (sized N)).
  { intros w0 w0' o0 H0 Hk0. destruct (Monolithic.var_dim (Monolithic._param self)).
    - injection H0 as <- <-. exact Hk0.
    - injection H0 as <- <-. exact Hk0. }
  intros k.
  apply (inv_bind (sized N)); [apply sized_mutate|intros _].
  apply sized_convergent.
Qed.

Lemma sized_loop (self : Monolithic.GA) (gens : list nat) :
  forall (w w' : World) (o : outcome unit),
    Monolithic.solve_loop float_pow self gens w = (o, w') -> sized N w -> sized N w'.
Proof.
  induction gens as [|g gens IH]; intros w w' o Hrun Hk;
    cbn [Monolithic.solve_loop] in Hrun.
  - injection Hrun as <- <-. exact Hk.
  - apply bind_inv in Hrun. destruct Hrun as [(stop & w1 & H1 & Hrun)|(e & H1 & _)].
    + pose proof (sized_generation self g _ _ _ H1 Hk) as Hk1. destruct stop.
      * injection Hrun as <- <-. exact Hk1.
      * eapply IH; eassumption.
    + exact (sized_generation self g _ _ _ H1 Hk).
Qed.

(** However [GA.solve()] ends, with a result, with an exception of one
    of the operators or at its first [print], and whatever the parameters
    and the draws are, a population that held [N] individuals with
    [_size = N] holds [N] individuals afterwards. *)
Theorem solve_keeps_size (self : Monolithic.GA) (w w' : World)
  (result : Monolithic.solve_result) :
  holds N w -> _size (pop w) = N ->
  Monolithic.solve float_pow self w = (result, w') ->
  holds N w' /\ _size (pop w') = N.
Proof.
  intros Hh Hsize Hrun.
  assert (Hk : sized N w) by (split; assumption).
  assert (Hall : forall o w1,
             (Monolithic.solve_loop float_pow self
                (seq 1 (Monolithic.max_generation (Monolithic._param self))) ;;;
              Population_best) w = (o, w1) -> sized N w1).
  { intros o w1 H. clear Hh Hsize Hrun. revert w w1 o H Hk.
    apply (inv_bind (sized N)); [|intros _; apply sized_best].
    intros w w1 o H Hk. eapply sized_loop; [exact H|exact Hk]. }
  unfold Monolithic.solve in Hrun.
  destruct (bind _ _ w) as [[[r v]|e] w1] eqn:Hb.
  - pose proof (Hall _ _ eq_refl) as Hk1.
    destruct (Monolithic.max_generation _); injection Hrun as _ <-; exact Hk1.
  - pose proof (Hall _ _ eq_refl) as Hk1. injection Hrun as _ <-. exact Hk1.
Qed.

End Sized.

(** [GA.solve()] with [max_generation = 0] on a population with at least
    one individual: the loop does not run, [best] is computed, and the
    first [print] fails because [current_gen] was never bound; no
    individual has changed. *)
Theorem solve_no_generation (self : Monolithic.GA) (w : World) (l : list ref) :
  Monolithic.max_generation (Monolithic._param self) = O ->
  cache_consistent w -> _individuals (pop w) = Some l -> l <> [] ->
  exists w',
    Monolithic.solve float_pow self w = (Monolithic.UnboundLocalError, w')
    /\ (forall r, heap w' r = heap w r)
    /\ clock w' = clock w.
Proof.
  intros HG Hc Hl Hne.
  destruct (evaluation_twice w l Hc Hl) as (w1 & Hev & _ & Hpop & Hheap & _ & _ & Hclock).
  destruct (argmin_first (evaluations w l)) as (k & m & Hk & Hm & _).
  { intros Hnil. apply Hne. eapply evaluations_nil. exact Hnil. }
  unfold evaluations in Hm. rewrite map_lookup in Hm.
  destruct (l !! k) as [r|] eqn:Hr; [|discriminate Hm].
  assert (Hl1 : _individuals (pop w1) = Some l) by (rewrite Hpop; reflexivity).
  exists w1. split; [|split; [intros r'; rewrite Hheap; reflexivity|exact Hclock]].
  unfold Monolithic.solve. rewrite HG. cbn [seq Monolithic.solve_loop].
  erewrite bind_ok by reflexivity.
  rewrite (Population_best_run w w1 l k r Hev Hl1 Hk Hr). reflexivity.
Qed.

(** [GA.solve()] on a population without individuals ([size = 0]) ends
    in a [ValueError], whatever the other parameters and the draws are: no
    individual is ever returned.  (Here it comes from [np.argmin] in [best]
    when there is no generation to run, from [np.random.randint(0)] when
    [var_dim] is 0, and otherwise from [np.max] of the empty evaluation
    vector in [convergent].) *)
Theorem solve_empty_population (self : Monolithic.GA) (w : World) :
  _individuals (pop w) = Some [] -> _size (pop w) = O -> cache_consistent w ->
  fst (Monolithic.solve float_pow self w) = Monolithic.Raised ValueError.
Proof.
  intros Hl Hsize Hc.
  destruct w as [rng clock junk heap next [f sz inds ev]]. cbn in Hl, Hsize, Hc.
  subst inds sz.
  assert (Hev : ev = None \/ ev = Some []).
  { destruct ev as [v|]; [right|left; reflexivity].
    destruct Hc as (l & Hl & ->). injection Hl as <-. reflexivity. }
  destruct self as [[vd lb ub sz G cr mr ca]].
  destruct Hev as [-> | ->]; destruct G as [|G]; destruct vd as [|vd]; reflexivity.
Qed.

End MonolithicDriver.

Section MonolithicDriverWitnesses.
Local Open Scope Q_scope.

Lemma solve_keeps_size_witness :
  let self := Monolithic.mkGA
                (Monolithic.mkParam 1 [1] [2] 2 3 1 (1 # 10) (1 # 4)) in
  let w := world_of (fun _ => 9007199254740991%N)
             [sample_individual [1] [2] [1]; sample_individual [1] [2] [2]]
             np.sum 2 None in
  let self' := Monolithic.mkGA
                 (Monolithic.mkParam 2 [-1; -1] [3; 3] 2 3 (9 # 10) (8 # 100) (1 # 4)) in
  let w0 := world_of (fun _ => 4503599627370496%N)
              [sample_individual [-1; -1] [3; 3] [0; 0];
               sample_individual [-1; -1] [3; 3] [0; 0]]
              np.sum 2 None in
  fst (Monolithic.solve sample_pow self w) = Monolithic.Raised AssertionError
  /\ holds 2 (snd (Monolithic.solve sample_pow self w))
  /\ (exists individual val,
        fst (Monolithic.solve sample_pow self' w0) = Monolithic.Returned individual val
        /\ val == 0)
  /\ holds 2 (snd (Monolithic.solve sample_pow self' w0)).
Proof.
  intros self w self' w0. split; [vm_compute; reflexivity|]. split; [|split].
  - destruct (solve_keeps_size sample_pow 2 self w
                (snd (Monolithic.solve sample_pow self w))
                (fst (Monolithic.solve sample_pow self w))) as (Hh & _).
    + exists [0%nat; 1%nat]. split; reflexivity.
    + reflexivity.
    + apply surjective_pairing.
    + exact Hh.
  - do 2 eexists. split; [vm_compute; reflexivity | reflexivity].
  - destruct (solve_keeps_size sample_pow 2 self' w0
                (snd (Monolithic.solve sample_pow self' w0))
                (fst (Monolithic.solve sample_pow self' w0))) as (Hh & _).
    + exists [0%nat; 1%nat]. split; reflexivity.
    + reflexivity.
    + apply surjective_pairing.
    + exact Hh.
Defined.

Lemma solve_no_generation_witness :
  let self := Monolithic.mkGA
                (Monolithic.mkParam 2 [-1; -1] [3; 3] 2 0 (9 # 10) (1 # 10) (1 # 4)) in
  let w := world_of (fun t => if Nat.even t then 0%N else 9007199254740991%N)
             [sample_individual [-1; -1] [3; 3] [1; 2];
              sample_individual [-1; -1] [3; 3] [3; 0]]
             np.sum 2 None in
  exists w', Monolithic.solve sample_pow self w = (Monolithic.UnboundLocalError, w').
Proof.
  intros self w.
  destruct (solve_no_generation sample_pow self w [0%nat; 1%nat]) as (w' & Hrun & _).
  - reflexivity.
  - exact I.
  - reflexivity.
  - discriminate.
  - exists w'. exact Hrun.
Defined.

Lemma solve_empty_population_witness :
  let self := Monolithic.mkGA
                (Monolithic.mkParam 2 [-1; -1] [3; 3] 0 3 (9 # 10) (1 # 10) (1 # 4)) in
  let w := world_of (fun _ => 0%N) [] np.sum 0 None in
  fst (Monolithic.solve sample_pow self w) = Monolithic.Raised ValueError.
Proof.
  intros self w. apply (solve_empty_population sample_pow self w).
  - reflexivity.
  - reflexivity.
  - exact I.
Defined.

End MonolithicDriverWitnesses.

(** ** The mutation magnitude of the modular driver *)

Section RunScheduleProperties.
Local Open Scope R_scope.

Lemma float_pow_unit_interval (U y : R) :
  0 <= U < 1 -> 0 <= y -> 0 <= Schedule.float_pow U y <= 1.
Proof.
  intros HU Hy. destruct (Req_dec_T U 0) as [->|HU0].
  - destruct (float_pow_zero_base y) as [-> | ->]; lra.
  - rewrite float_pow_Rpower by lra.
    pose proof (Rpower_le_1 U y ltac:(lra) Hy). lra.
Qed.

(** For a base in [[0,1)] Python's power does not grow with the
    exponent. *)
Lemma float_pow_antitone (U y z : R) :
  0 <= U < 1 -> 0 <= y <= z -> Schedule.float_pow U z <= Schedule.float_pow U y.
Proof.
  intros HU Hyz. destruct (Req_dec_T y z) as [->|Hne]; [lra|].
  destruct (Req_dec_T U 0) as [->|HU0].
  - unfold Schedule.float_pow.
    destruct (Req_dec_T z 0) as [Hz|Hz]; [lra|].
    destruct (Req_dec_T 0 0) as [_|H]; [|contradiction].
    destruct (Req_dec_T y 0); lra.
  - rewrite !float_pow_Rpower by lra. left. apply Rpower_antitone; lra.
Qed.

Lemma cube_range (e : R) : 0 <= e <= 1 -> 0 <= e ^ 3 <= e.
Proof. intros He. simpl. nra. Qed.

Lemma cube_monotone (a b : R) : 0 <= a <= b -> a ^ 3 <= b ^ 3.
Proof.
  intros Hab. simpl.
  assert (H1 : a * a <= b * b) by nra.
  assert (H2 : 0 <= a * a) by nra. nra.
Qed.

(** The mutation magnitude that [GA.run] hands to the mutation operator in
    generation [n] of [gen], for a draw [U] in [[0,1)]: it lies in
    [[0,1]], it does not grow from one generation to the next, it is
    exactly 0 in the last generation, and it is never larger than the
    magnitude the monolithic [GA.solve] computes from the same draw at
    the same point of its run (the exponent is cubed here). *)
Theorem run_rate_schedule (U : R) (gen : nat) :
  0 <= U < 1 -> (1 <= gen)%nat ->
  (forall n, (n <= gen)%nat -> 0 <= RunSchedule.run_rate U n gen <= 1)
  /\ (forall n1 n2, (n1 <= n2 <= gen)%nat ->
        RunSchedule.run_rate U n2 gen <= RunSchedule.run_rate U n1 gen)
  /\ RunSchedule.run_rate U gen gen = 0
  /\ (forall n, (n <= gen)%nat ->
        RunSchedule.run_rate U n gen <= Schedule.solve_rate U n gen).
Proof.
  intros HU Hgen. unfold RunSchedule.run_rate, Schedule.solve_rate.
  split; [|split; [|split]].
  - intros n Hn. pose proof (exponent_range n gen Hn Hgen) as He.
    pose proof (cube_range _ He) as Hc.
    pose proof (float_pow_unit_interval U _ HU (proj1 Hc)). lra.
  - intros n1 n2 [H12 H2].
    pose proof (exponent_range n1 gen ltac:(lia) Hgen) as He1.
    pose proof (exponent_range n2 gen H2 Hgen) as He2.
    assert (He : 1 - INR n2 / INR gen <= 1 - INR n1 / INR gen).
    { destruct (Nat.eq_dec n1 n2) as [->|Hne]; [lra|].
      left. apply exponent_antitone; lia. }
    pose proof (cube_monotone _ _ (conj (proj1 He2) He)) as Hc.
    pose proof (cube_range _ He2) as Hc2.
    pose proof (float_pow_antitone U _ _ HU (conj (proj1 Hc2) Hc)). lra.
  - rewrite (exponent_last gen Hgen). unfold Schedule.float_pow.
    destruct (Req_dec_T (0 ^ 3) 0) as [_|H]; [lra|]. exfalso. apply H. simpl. lra.
  - intros n Hn. pose proof (exponent_range n gen Hn Hgen) as He.
    pose proof (cube_range _ He) as Hc.
    pose proof (float_pow_antitone U _ _ HU Hc). lra.
Qed.

Lemma run_rate_schedule_witness :
  (forall n, (n <= 50)%nat -> 0 <= RunSchedule.run_rate (1/4) n 50 <= 1)
  /\ RunSchedule.run_rate (1/4) 50 50 = 0
  /\ RunSchedule.run_rate (1/4) 10 50 <= Schedule.solve_rate (1/4) 10 50.
Proof.
  destruct (run_rate_schedule (1/4) 50) as (H1 & _ & H3 & H4).
  - lra.
  - lia.
  - split; [exact H1|]. split; [exact H3|]. apply H4. lia.
Defined.

End RunScheduleProperties.

(** ** Edges of [Individual] and of the constructor of [GA] *)

Section Edges.
Local Open Scope Q_scope.

(** [Individual.mutate] is not atomic: when a position is out of range,
    the [IndexError] surfaces after the positions before it have been
    mutated, and those mutations stay. *)
Theorem Individual_mutate_partial (self : ref) (alpha : Q) (ps rest : list Z)
  (pos : Z) (w w1 : World) (e : exn) :
  0 <= alpha <= 1 ->
  shaped (heap w self) -> in_bounds (heap w self) ->
  Individual_mutate self ps alpha w = (Ok tt, w1) ->
  np.index (_dim (heap w self)) pos = Raise e ->
  Individual_mutate self (ps ++ pos :: rest) alpha w = (Raise IndexError, tick 1 w1)
  /\ heap (tick 1 w1) self = heap w1 self.
Proof.
  intros Ha Hsh Hin Hrun Hidx. split; [|reflexivity].
  destruct (Individual_mutate_preserves self ps alpha Ha w w1 (Ok tt) Hsh Hin Hrun)
    as ((Hd & _ & _) & (Hlen & _)).
  unfold Individual_mutate in *. rewrite for_each_app.
  rewrite (bind_ok _ _ _ _ _ Hrun). cbn [for_each].
  apply bind_raise. apply (Individual_mutate_at_err w1 self pos alpha e Hlen).
  rewrite Hd. exact Hidx.
Qed.

Lemma Individual_mutate_partial_witness :
  let w := world_of (fun _ => 0%N) [sample_individual [0; 0] [4; 4] [1; 3]]
             np.sum 1 None in
  let w1 := snd (Individual_mutate 0%nat [0%Z] (1#2) w) in
  Individual_mutate 0%nat [0%Z; 2%Z; 1%Z] (1#2) w = (Raise IndexError, tick 1 w1)
  /\ _chrom (heap (tick 1 w1) 0%nat) <> _chrom (heap w 0%nat).
Proof.
  intros w w1.
  assert (Hsh : shaped (heap w 0%nat)) by (split; reflexivity).
  destruct (Individual_mutate_partial 0%nat (1#2) [0%Z] [1%Z] 2%Z w w1 IndexError)
    as (Hrun & Hh).
  - split; discriminate.
  - exact Hsh.
  - apply (withinb_spec (heap w 0%nat) _ Hsh). reflexivity.
  - vm_compute. reflexivity.
  - reflexivity.
  - split; [exact Hrun|]. vm_compute. discriminate.
Defined.

(** [Individual.initialize] does not look at the order of the bounds: with
    a lower bound above the upper bound in some coordinate it still
    returns, and the chromosome it leaves is outside the bounds. *)
Theorem Individual_initialize_reversed_bounds (w : World) (self : ref)
  (i : nat) (l u : Q) :
  shaped (heap w self) ->
  _lbound (heap w self) !! i = Some l -> _ubound (heap w self) !! i = Some u ->
  u < l ->
  exists w',
    Individual_initialize self w = (Ok tt, w')
    /\ same_frame (heap w self) (heap w' self)
    /\ ~ in_bounds (heap w' self).
Proof.
  intros Hsh Hl Hu Hul.
  eexists. split; [apply Individual_initialize_run; exact Hsh|].
  cbn [heap set_heap tick]. rewrite fn_lookup_insert.
  split; [repeat split|].
  intros (Hlen & Hb). cbn [with_chrom _dim _lbound _ubound _chrom] in Hlen, Hb.
  assert (Hi : (i < _dim (heap w self))%nat).
  { destruct Hsh as [HL _]. rewrite <- HL. eapply lookup_lt_Some. exact Hl. }
  destruct (lookup_lt_is_Some_2
              (initial_chrom (heap w self) (seeds_of w (_dim (heap w self)))) i
              ltac:(lia)) as [c Hc].
  pose proof (Hb i l c u Hl Hc Hu). lra.
Qed.

Lemma Individual_initialize_reversed_bounds_witness :
  let w := world_of (fun _ => 0%N) [sample_individual [0; 5] [4; 4] [1; 3]]
             np.sum 1 None in
  exists w',
    Individual_initialize 0%nat w = (Ok tt, w') /\ ~ in_bounds (heap w' 0%nat).
Proof.
  intros w.
  destruct (Individual_initialize_reversed_bounds w 0%nat 1%nat 5 4)
    as (w' & Hrun & _ & Hout).
  - split; reflexivity.
  - reflexivity.
  - reflexivity.
  - reflexivity.
  - exists w'. split; [exact Hrun|exact Hout].
Defined.

Lemma broadcast_mismatch {A B C} (f : A -> B -> C) (x : list A) (y : list B) :
  length x <> length y -> length x <> 1%nat -> length y <> 1%nat ->
  np.broadcast f x y = Raise ValueError.
Proof.
  intros Hxy Hx Hy. unfold np.broadcast.
  destruct (Nat.eqb_spec (length x) (length y)) as [H|_]; [contradiction|].
  destruct x as [|a [|a' x]]; [| simpl in Hx; congruence |];
    (destruct y as [|b [|b' y]]; [| simpl in Hy; congruence |]); reflexivity.
Qed.

(** Bound vectors of the wrong length: when [lbound] and [ubound] have
    [k] entries each, with [k] neither the dimension nor 1, and the
    dimension is not 1 and there is at least one individual, the
    constructor of [GA] ends in the [ValueError] of numpy's broadcasting,
    raised while the first individual is initialised. *)
Theorem GA__init___shape_mismatch (fun_evaluation : list Q -> Q) (dimention : nat)
  (kw : Monolithic.Kw) (w : World) :
  let p := Monolithic.update (Monolithic.default_param dimention) kw in
  length (Monolithic.lbound p) = length (Monolithic.ubound p) ->
  length (Monolithic.lbound p) <> dimention ->
  length (Monolithic.lbound p) <> 1%nat ->
  dimention <> 1%nat ->
  (1 <= Monolithic.size p)%nat ->
  fst (Monolithic.GA__init__ fun_evaluation dimention kw w) = Raise ValueError.
Proof.
  intros p Hk Hkd Hk1 Hd1 Hsize. unfold Monolithic.GA__init__. fold p.
  erewrite bind_ok by reflexivity.
  set (w0 := set_pop _ w).
  assert (Hinit : exists w',
             Population_initialize dimention (Monolithic.lbound p) (Monolithic.ubound p) w0
             = (Raise ValueError, w')).
  { unfold Population_initialize.
    rewrite (bind_ok get_self _ w0 w0 (pop w0) eq_refl).
    destruct (alloc_loop dimention (Monolithic.lbound p) (Monolithic.ubound p)
                (seq 0 (_size (pop w0))) w0) as (l & w1 & Hrun & Hlen & Hall & Hpop & _).
    rewrite (bind_ok _ _ _ _ _ Hrun).
    erewrite bind_ok by reflexivity.
    destruct l as [|r l].
    { rewrite length_seq in Hlen.
      change (_size (pop w0)) with (Monolithic.size p) in Hlen.
      simpl length in Hlen. lia. }
    pose proof (Forall_inv Hall) as (_ & Hrd & Hrl & Hru).
    eexists. cbn [for_each]. apply bind_raise.
    unfold Individual_initialize.
    erewrite bind_ok by reflexivity.
    erewrite bind_ok by reflexivity.
    cbn [heap set_pop tick]. rewrite Hrd, Hrl, Hru.
    unfold np.sub. rewrite broadcast_same by (symmetry; exact Hk).
    unfold lift at 1. erewrite bind_ok by reflexivity.
    apply bind_raise. unfold lift, np.mul. rewrite broadcast_mismatch; [reflexivity| | |].
    - rewrite length_zip_with, length_map, length_seq. lia.
    - rewrite length_zip_with. lia.
    - rewrite length_map, length_seq. exact Hd1. }
  destruct Hinit as (w' & Hinit). rewrite (bind_raise _ _ _ _ _ Hinit). reflexivity.
Qed.

Lemma GA__init___shape_mismatch_witness :
  let kw := Monolithic.mkKw None (Some [-(10); -(10)]) (Some [10; 10]) (Some 4%nat)
              None None None None in
  fst (Monolithic.GA__init__ np.sum 3 kw (world_of (fun _ => 0%N) [] np.sum 0 None))
  = Raise ValueError.
Proof.
  intros kw.
  apply (GA__init___shape_mismatch np.sum 3 kw).
  - reflexivity.
  - simpl. lia.
  - simpl. lia.
  - lia.
  - simpl. lia.
Defined.

End Edges.

(** ** Aliasing after [crossover]; what [initialize] and the constructor build *)

Section Aliasing.
Local Open Scope Q_scope.

Lemma swap_lookup {A} (l : list A) (i j k : nat) (x y : A) :
  l !! i = Some x -> l !! j = Some y ->
  swap l i j !! k
  = l !! (if decide (k = i) then j else if decide (k = j) then i else k).
Proof.
  intros Hi Hj. unfold swap. rewrite Hi, Hj.
  pose proof (lookup_lt_Some _ _ _ Hi) as Hil.
  pose proof (lookup_lt_Some _ _ _ Hj) as Hjl.
  destruct (decide (k = i)) as [->|Hki].
  - rewrite list_lookup_insert_eq by (rewrite length_insert; exact Hil).
    symmetry. exact Hj.
  - rewrite list_lookup_insert_ne by congruence.
    destruct (decide (k = j)) as [->|Hkj].
    + rewrite list_lookup_insert_eq by exact Hjl. symmetry. exact Hi.
    + rewrite list_lookup_insert_ne by congruence. reflexivity.
Qed.

Lemma swap_NoDup {A} (l : list A) (i j : nat) : NoDup l -> NoDup (swap l i j).
Proof.
  intros Hnd.
  destruct (l !! i) as [x|] eqn:Hi; [|unfold swap; rewrite Hi; exact Hnd].
  destruct (l !! j) as [y|] eqn:Hj; [|unfold swap; rewrite Hi, Hj; exact Hnd].
  apply NoDup_alt. intros a b z Ha Hb.
  rewrite (swap_lookup l i j a x y Hi Hj) in Ha.
  rewrite (swap_lookup l i j b x y Hi Hj) in Hb.
  pose proof (proj1 (NoDup_alt l) Hnd _ _ _ Ha Hb) as Heq.
  destruct (decide (a = i)), (decide (a = j)), (decide (b = i)), (decide (b = j));
    congruence.
Qed.

Lemma shuffle_NoDup {A} (i : nat) :
  forall (l p : list A) (w w' : World),
    NoDup l -> shuffle i l w = (Ok p, w') -> NoDup p.
Proof.
  induction i as [|i IH]; intros l p w w' Hnd Hrun; cbn [shuffle] in Hrun.
  - injection Hrun as <- <-. exact Hnd.
  - apply bind_inv_ok in Hrun as (j & w1 & _ & Hrun).
    eapply IH; [|exact Hrun]. apply swap_NoDup. exact Hnd.
Qed.

Lemma take_NoDup {A} (n : nat) (l : list A) : NoDup l -> NoDup (take n l).
Proof.
  intros Hnd. apply NoDup_alt. intros a b z Ha Hb.
  apply lookup_take_Some in Ha. apply lookup_take_Some in Hb.
  exact (proj1 (NoDup_alt l) Hnd _ _ _ (proj1 Ha) (proj1 Hb)).
Qed.

Lemma choice_NoDup {A} (a c : list A) (size : nat) (w w' : World) :
  NoDup a -> np_random_choice a size w = (Ok c, w') -> NoDup c.
Proof.
  intros Hnd Hrun. unfold np_random_choice in Hrun.
  destruct (size <=? length a)%nat; [|discriminate Hrun].
  apply bind_inv_ok in Hrun as (p & w1 & Hp & Hrun). injection Hrun as <- <-.
  apply take_NoDup. eapply shuffle_NoDup; [exact Hnd|exact Hp].
Qed.

Lemma Individual_set_chrom_next (self : ref) (x : list Q) (w w' : World)
  (o : outcome unit) :
  Individual_set_chrom self x w = (o, w') -> next w' = next w.
Proof.
  unfold Individual_set_chrom, bind, load, assert_, lift, store, ret, raise.
  destruct (_dim (heap w self) =? length x)%nat;
    [|intros H; injection H as <- <-; reflexivity].
  destruct (np.ge x (_lbound (heap w self))) as [above|e];
    [|intros H; injection H as <- <-; reflexivity].
  destruct (np.all above); [|intros H; injection H as <- <-; reflexivity].
  destruct (np.le x (_ubound (heap w self))) as [below|e];
    [|intros H; injection H as <- <-; reflexivity].
  destruct (np.all below); intros H; injection H as <- <-; reflexivity.
Qed.

Lemma cross_individuals_alloc (w w' : World) (ra rb r1 r2 : ref) (alpha : Q) :
  cross_individuals ra rb alpha w = (Ok (r1, r2), w') ->
  r1 = next w /\ r2 = S (next w) /\ next w' = S (S (next w)).
Proof.
  intros H. unfold cross_individuals in H.
  apply bind_inv_ok in H as (a & u0 & H1 & H); inversion H1; clear H1; try subst a; subst u0.
  apply bind_inv_ok in H as (b & u1 & H1 & H); inversion H1; clear H1; try subst b; subst u1.
  apply bind_inv_ok in H as (draws & u2 & H1 & H); inversion H1; clear H1; try subst draws; subst u2.
  apply bind_inv_ok in H as (ap & u3 & H1 & H); inversion H1; clear H1; try subst ap; subst u3.
  apply bind_inv_ok in H as (bp & u4 & H1 & H); inversion H1; clear H1; try subst bp; subst u4.
  apply bind_inv_ok in H as (va & u5 & H1 & H); inversion H1; clear H1; try subst va; subst u5.
  apply bind_inv_ok in H as (ap' & u6 & H1 & H); inversion H1; clear H1; try subst ap'; subst u6.
  apply bind_inv_ok in H as (bp' & u7 & H1 & H); inversion H1; clear H1; try subst bp'; subst u7.
  apply bind_inv_ok in H as (vb & u8 & H1 & H); inversion H1; clear H1; try subst vb; subst u8.
  apply bind_inv_ok in H as (na & u9 & H1 & H); inversion H1; clear H1; try subst na; subst u9.
  apply bind_inv_ok in H as (nb & u10 & H1 & H); inversion H1; clear H1; try subst nb; subst u10.
  cbn [rng clock junk heap next pop tick] in H.
  set (w2 := mkWorld _ _ _ _ _ _) in H.
  apply bind_inv_ok in H as ([] & w3 & Hseta & H).
  apply bind_inv_ok in H as ([] & w4 & Hsetb & H).
  inversion H; subst; clear H.
  apply Individual_set_chrom_next in Hseta. apply Individual_set_chrom_next in Hsetb.
  split; [reflexivity|]. split; [reflexivity|]. rewrite Hsetb, Hseta. reflexivity.
Qed.

(** With a rate of at least 1 every pair is crossed, and the candidates
    that the loop of [crossover] collects are the objects it created, in
    the order of their creation. *)
Lemma crossover_loop_all_crossed (rate alpha : Q) :
  1 <= rate ->
  forall (pairs : list (ref * ref)) (acc new : list ref) (w w' : World),
    crossover_loop pairs rate alpha acc w = (Ok new, w') ->
    new = acc ++ seq (next w) (2 * length pairs)
    /\ next w' = (next w + 2 * length pairs)%nat.
Proof.
  intros Hrate. induction pairs as [|[ra rb] pairs IH]; intros acc new w w' Hrun;
    cbn [crossover_loop] in Hrun.
  - injection Hrun as <- <-. simpl. rewrite app_nil_r. split; [reflexivity|lia].
  - apply bind_inv_ok in Hrun as (u & w1 & Hu & Hrun). injection Hu as <- <-.
    assert (Hle : Qle_bool (np.uniform (rng w (clock w))) rate = true).
    { apply Qle_bool_iff. pose proof (uniform_range (rng w (clock w))). lra. }
    rewrite Hle in Hrun.
    apply bind_inv_ok in Hrun as ([r1 r2] & w2 & Hc & Hrun).
    destruct (cross_individuals_alloc _ _ _ _ _ _ _ Hc) as (-> & -> & Hn).
    cbn [next tick fst snd] in Hn, Hrun.
    destruct (IH _ _ _ _ Hrun) as (-> & Hn').
    rewrite Hn', Hn. split; [|simpl; lia].
    rewrite <- app_assoc. f_equal.
    replace (2 * length ((ra, rb) :: pairs))%nat with (S (S (2 * length pairs))) by (simpl; lia).
    reflexivity.
Qed.

(** [crossover] with a rate of at least 1 removes all aliasing: when it
    returns, the members of the new population are pairwise different
    objects, all of them created by this call, even if the old population
    held one object at several positions (as [select] leaves it).  A later
    in-place [mutate] therefore changes each position on its own. *)
Theorem Population_crossover_distinct (rate alpha : Q) (w w' : World) (l : list ref) :
  1 <= rate ->
  _individuals (pop w) = Some l ->
  Population_crossover rate alpha w = (Ok tt, w') ->
  exists l',
    _individuals (pop w') = Some l'
    /\ NoDup l'
    /\ Forall (fun r => (next w <= r < next w')%nat) l'.
Proof.
  intros Hrate Hl Hrun. unfold Population_crossover in Hrun.
  apply bind_inv_ok in Hrun as (l0 & w1 & H1 & Hrun).
  rewrite individuals_as_array_run, Hl in H1. injection H1 as <- <-.
  apply bind_inv_ok in Hrun as (rp & w2 & H2 & Hrun).
  assert (Hn2 : next w2 = next w).
  { unfold np_random_permutation in H2.
    destruct (shuffle_run (length l - 1) l w) as (p & Hp). rewrite Hp in H2.
    injection H2 as _ <-. reflexivity. }
  apply bind_inv_ok in Hrun as (new & w3 & H3 & Hrun).
  destruct (crossover_loop_all_crossed rate alpha Hrate _ _ _ _ _ H3) as (Hnew & Hn3).
  cbn [app] in Hnew. subst new.
  apply bind_inv_ok in Hrun as (P & w4 & H4 & Hrun). injection H4 as <- <-.
  apply bind_inv_ok in Hrun as (chosen & w5 & H5 & Hrun).
  destruct (np_random_choice_effect _ _ _ _ _ H5) as (_ & Hn5 & _).
  rewrite assign_run in Hrun. injection Hrun as <-.
  exists chosen. cbn [pop set_pop _individuals next].
  split; [reflexivity|]. split.
  - eapply choice_NoDup; [|exact H5]. apply NoDup_seq.
  - eapply choice_Forall; [|exact H5]. apply Forall_forall. intros r Hr.
    apply in_seq in Hr. lia.
Qed.

Lemma Population_crossover_distinct_witness :
  let w := world_of (fun t => if Nat.even t then 0%N else 9007199254740991%N)
             [sample_individual [-1; -1] [3; 3] [1; 2]]
             np.sum 2 None in
  let w0 := set_pop (mkPopulation np.sum 2 (Some [0%nat; 0%nat]) None) w in
  let w' := snd (Population_crossover 1 (1#4) w0) in
  exists l',
    _individuals (pop w') = Some l' /\ NoDup l' /\ length l' = 2%nat.
Proof.
  intros w w0 w'.
  destruct (Population_crossover_distinct 1 (1#4) w0 w' [0%nat; 0%nat])
    as (l' & Hl' & Hnd & _).
  - discriminate.
  - reflexivity.
  - vm_compute. reflexivity.
  - exists l'. split; [exact Hl'|]. split; [exact Hnd|].
    revert Hl'. vm_compute. intros H. injection H as <-. reflexivity.
Defined.

Lemma alloc_loop_fresh (d : nat) (lo hi : list Q) (ns : list nat) :
  forall w,
    exists w1,
      list_comp ns (fun _ => Individual__init__ d lo hi) w
      = (Ok (seq (next w) (length ns)), w1)
      /\ next w1 = (next w + length ns)%nat
      /\ clock w1 = clock w /\ pop w1 = pop w /\ rng w1 = rng w
      /\ (forall r, (r < next w)%nat -> heap w1 r = heap w r)
      /\ Forall (framed d lo hi w1) (seq (next w) (length ns)).
Proof.
  induction ns as [|n ns IH]; intros w.
  - exists w. cbn. rewrite Nat.add_0_r.
    do 5 (split; [reflexivity|]). split; [reflexivity|constructor].
  - set (w' := mkWorld (rng w) (clock w) (junk w)
                 (<[next w := mkIndividual d lo hi (map (junk w) (seq 0 d))]> (heap w))
                 (S (next w)) (pop w)).
    assert (Hinit : Individual__init__ d lo hi w = (Ok (next w), w')) by reflexivity.
    destruct (IH w') as (w1 & Hrun & Hn & Hc & Hp & Hr & Hold & Hall).
    exists w1. cbn [list_comp length seq].
    rewrite (bind_ok _ _ _ _ _ Hinit), (bind_ok _ _ _ _ _ Hrun).
    change (next w') with (S (next w)) in *.
    split; [reflexivity|]. split; [lia|]. split; [exact Hc|]. split; [exact Hp|].
    split; [exact Hr|]. split.
    + intros r Hlt. rewrite Hold by lia. unfold w'. cbn [heap].
      apply fn_lookup_insert_ne. lia.
    + constructor; [|exact Hall].
      unfold framed. rewrite (Hold (next w)) by lia. unfold w'. cbn [heap].
      rewrite fn_lookup_insert. repeat split. lia.
Qed.

Lemma initialize_loop_effect (d : nat) (lo hi : list Q) :
  length lo = d -> length hi = d ->
  forall (l : list ref) (w : World),
    Forall (framed d lo hi w) l ->
    exists w',
      for_each l Individual_initialize w = (Ok tt, w')
      /\ next w' = next w /\ pop w' = pop w
      /\ clock w' = (clock w + length l * d)%nat
      /\ (forall r, ~ In r l -> heap w' r = heap w r)
      /\ (forall r, framed d lo hi w r -> framed d lo hi w' r).
Proof.
  intros Hlo Hhi. induction l as [|x l IH]; intros w Hl.
  - exists w. cbn. rewrite Nat.add_0_r.
    do 4 (split; [reflexivity|]). split; [intros r _; reflexivity|auto].
  - pose proof (Forall_inv Hl) as (Hx & Hd & Hxl & Hxh).
    pose proof (Forall_inv_tail Hl) as Hl'.
    assert (Hsh : shaped (heap w x)) by (split; congruence).
    pose proof (Individual_initialize_run w x Hsh) as Hrun.
    set (w1 := set_heap _ (tick _ w)) in Hrun.
    assert (Hkf : forall r, framed d lo hi w r -> framed d lo hi w1 r).
    { intros r (Hr & H1 & H2 & H3). unfold framed, w1. cbn [next heap set_heap tick].
      destruct (Nat.eq_dec x r) as [->|Hne].
      - rewrite fn_lookup_insert. repeat split; auto.
      - rewrite fn_lookup_insert_ne by exact Hne. repeat split; auto. }
    destruct (IH w1) as (w' & Hrest & Hn & Hp & Hc & Ho & Hkf').
    { eapply Forall_impl; [|exact Hl']. exact Hkf. }
    exists w'. cbn [for_each length].
    rewrite (bind_ok _ _ _ _ _ Hrun). split; [exact Hrest|].
    split; [rewrite Hn; reflexivity|]. split; [rewrite Hp; reflexivity|].
    split; [|split].
    + rewrite Hc. unfold w1. cbn [clock set_heap tick]. rewrite Hd. lia.
    + intros r Hr. rewrite Ho by (intros Hin; apply Hr; right; exact Hin).
      unfold w1. cbn [heap set_heap tick]. apply fn_lookup_insert_ne.
      intros ->. apply Hr. left. reflexivity.
    + intros r Hr. apply Hkf', Hkf, Hr.
Qed.

(** [Population.initialize] with bound vectors of [dim] entries always
    returns.  The new population consists of [_size] objects created by
    the call, pairwise different and different from every object that
    existed before; those older objects, the former members among them,
    are not altered; and [_size * dim] random numbers are drawn. *)
Theorem Population_initialize_fresh (dim : nat) (lo hi : list Q) (w : World) :
  length lo = dim -> length hi = dim ->
  exists w',
    Population_initialize dim lo hi w = (Ok tt, w')
    /\ _individuals (pop w') = Some (seq (next w) (_size (pop w)))
    /\ NoDup (seq (next w) (_size (pop w)))
    /\ next w' = (next w + _size (pop w))%nat
    /\ (forall r, (r < next w)%nat -> heap w' r = heap w r)
    /\ Forall (framed dim lo hi w') (seq (next w) (_size (pop w)))
    /\ clock w' = (clock w + _size (pop w) * dim)%nat.
Proof.
  intros Hlo Hhi. unfold Population_initialize.
  rewrite (bind_ok get_self _ w w (pop w) eq_refl).
  destruct (alloc_loop_fresh dim lo hi (seq 0 (_size (pop w))) w)
    as (w1 & Hrun & Hn1 & Hc1 & Hp1 & _ & Hold1 & Hall).
  rewrite length_seq in Hrun, Hn1, Hall.
  rewrite (bind_ok _ _ _ _ _ Hrun).
  erewrite bind_ok by reflexivity.
  set (w2 := set_pop _ w1).
  destruct (initialize_loop_effect dim lo hi Hlo Hhi (seq (next w) (_size (pop w))) w2)
    as (w' & Hloop & Hn & Hp & Hc & Ho & Hkf).
  { exact Hall. }
  exists w'. split; [exact Hloop|]. split; [|split; [apply NoDup_seq|split; [|split; [|split]]]].
  - rewrite Hp. reflexivity.
  - rewrite Hn. exact Hn1.
  - intros r Hr. rewrite Ho; [exact (Hold1 r Hr)|].
    intros Hin. apply in_seq in Hin. lia.
  - eapply Forall_impl; [|exact Hall]. exact Hkf.
  - rewrite Hc, length_seq. unfold w2. cbn [clock set_pop]. rewrite Hc1. reflexivity.
Qed.

Lemma Population_initialize_fresh_witness :
  let w := world_of (fun _ => 4503599627370496%N)
             [sample_individual [0] [4] [1]; sample_individual [0] [4] [3]]
             np.sum 2 None in
  exists w',
    Population_initialize 1 [0] [4] w = (Ok tt, w')
    /\ _individuals (pop w') = Some [2%nat; 3%nat]
    /\ heap w' 0%nat = heap w 0%nat
    /\ clock w' = 2%nat.
Proof.
  intros w.
  destruct (Population_initialize_fresh 1 [0] [4] w) as (w' & Hrun & Hl & _ & _ & Hold & _ & Hc).
  - reflexivity.
  - reflexivity.
  - exists w'. split; [exact Hrun|]. split; [exact Hl|]. split; [|exact Hc].
    apply Hold. simpl. lia.
Defined.

(** [GA(fun_evaluation, dimention, **kw)] with bound vectors of
    [dimention] entries always returns, whatever the bounds are.  The
    parameters are the defaults overridden by [kw]; the population it
    builds has [size] members, objects created by the call, each of
    dimension [dimention] (not [var_dim]) with the bounds of the
    parameters; it has no evaluation cache; [size * dimention] random
    numbers are drawn, and no object that existed before is altered. *)
Theorem GA__init___builds (fun_evaluation : list Q -> Q) (dimention : nat)
  (kw : Monolithic.Kw) (w : World) :
  let p := Monolithic.update (Monolithic.default_param dimention) kw in
  length (Monolithic.lbound p) = dimention ->
  length (Monolithic.ubound p) = dimention ->
  exists w',
    Monolithic.GA__init__ fun_evaluation dimention kw w = (Ok (Monolithic.mkGA p), w')
    /\ pop w' = mkPopulation fun_evaluation (Monolithic.size p)
                  (Some (seq (next w) (Monolithic.size p))) None
    /\ next w' = (next w + Monolithic.size p)%nat
    /\ Forall (framed dimention (Monolithic.lbound p) (Monolithic.ubound p) w')
         (seq (next w) (Monolithic.size p))
    /\ (forall r, (r < next w)%nat -> heap w' r = heap w r)
    /\ clock w' = (clock w + Monolithic.size p * dimention)%nat.
Proof.
  intros p Hlo Hhi. unfold Monolithic.GA__init__. fold p.
  erewrite bind_ok by reflexivity.
  set (w0 := set_pop _ w).
  assert (Hinit : exists w',
             Population_initialize dimention (Monolithic.lbound p) (Monolithic.ubound p) w0
             = (Ok tt, w')
             /\ pop w' = mkPopulation fun_evaluation (Monolithic.size p)
                           (Some (seq (next w) (Monolithic.size p))) None
             /\ next w' = (next w + Monolithic.size p)%nat
             /\ Forall (framed dimention (Monolithic.lbound p) (Monolithic.ubound p) w')
                  (seq (next w) (Monolithic.size p))
             /\ (forall r, (r < next w)%nat -> heap w' r = heap w r)
             /\ clock w' = (clock w + Monolithic.size p * dimention)%nat).
  { unfold Population_initialize.
    rewrite (bind_ok get_self _ w0 w0 (pop w0) eq_refl).
    destruct (alloc_loop_fresh dimention (Monolithic.lbound p) (Monolithic.ubound p)
                (seq 0 (_size (pop w0))) w0)
      as (w1 & Hrun & Hn1 & Hc1 & Hp1 & _ & Hold1 & Hall).
    rewrite length_seq in Hrun, Hn1, Hall.
    change (_size (pop w0)) with (Monolithic.size p) in *.
    change (next w0) with (next w) in *.
    rewrite (bind_ok _ _ _ _ _ Hrun).
    erewrite bind_ok by reflexivity.
    set (w2 := set_pop _ w1).
    destruct (initialize_loop_effect dimention _ _ Hlo Hhi
                (seq (next w) (Monolithic.size p)) w2)
      as (w' & Hloop & Hn & Hp & Hc & Ho & Hkf).
    { exact Hall. }
    exists w'. split; [exact Hloop|].
    split; [|split; [|split; [|split]]].
    - rewrite Hp. unfold w2. cbn [pop set_pop]. rewrite Hp1. reflexivity.
    - rewrite Hn. exact Hn1.
    - eapply Forall_impl; [|exact Hall]. exact Hkf.
    - intros r Hr. rewrite Ho; [exact (Hold1 r Hr)|].
      intros Hin. apply in_seq in Hin. lia.
    - rewrite Hc, length_seq. unfold w2. cbn [clock set_pop]. rewrite Hc1. reflexivity. }
  destruct Hinit as (w' & Hinit & Hrest).
  rewrite (bind_ok _ _ _ _ _ Hinit).
  exists w'. split; [reflexivity|exact Hrest].
Qed.

Lemma GA__init___builds_witness :
  let kw := Monolithic.mkKw (Some 7%nat) (Some [5; 5]) (Some [-5; 9]) (Some 3%nat)
              None None None None in
  exists w',
    Monolithic.GA__init__ np.sum 2 kw (world_of (fun _ => 0%N) [] np.sum 0 None)
    = (Ok (Monolithic.mkGA (Monolithic.mkParam 7 [5; 5] [-5; 9] 3 10
                              (9 # 10) (8 # 100) (75 # 100))),
       w')
    /\ _individuals (pop w') = Some [0%nat; 1%nat; 2%nat]
    /\ _evaluation (pop w') = None
    /\ _dim (heap w' 2%nat) = 2%nat
    /\ clock w' = 6%nat.
Proof.
  intros kw.
  destruct (GA__init___builds np.sum 2 kw (world_of (fun _ => 0%N) [] np.sum 0 None))
    as (w' & Hrun & Hpop & _ & Hall & _ & Hc).
  - reflexivity.
  - reflexivity.
  - exists w'. split; [exact Hrun|]. rewrite Hpop.
    split; [reflexivity|]. split; [reflexivity|]. split; [|exact Hc].
    pose proof (Forall_lookup_1 _ _ 2%nat 2%nat Hall eq_refl) as (_ & Hd & _).
    exact Hd.
Defined.

End Aliasing.
